(** * govaluate-tool: the tokenizer ([parser/parsing.go]) and the tree
    renderer ([generate]), embedded in Rocq.

    Go values are modelled as follows.
    - A [rune] is its code point, an integer.  A Go [string] is modelled by
      the sequence of code points it decodes to ([gostring]); the sources
      only ever compare strings, search them for the ASCII period and
      re-encode runes that were decoded from the expression, so the UTF-8
      bytes carry no extra information.
    - [int] is the 64-bit signed integer; where the code increments one, the
      wrap-around is written out ([wrap_int]).
    - [float64] is [spec_float] at precision 53 and maximal exponent 1024.
    - A [map] is a [gmap]; a symbol table whose values are never read is the
      [gset] of its keys.
    - The lexer stream is passed by pointer and mutated: the tokenizer runs
      in a state monad over the stream whose outcomes are a result, a
      run-time panic, or exhausted fuel (the [for] loops are fuelled). *)

From Stdlib Require Import ZArith String Ascii List Lia Bool.
From Stdlib Require Import Floats.SpecFloat.
From stdpp Require Import base decidable option list gmap.
Import ListNotations.
Local Open Scope Z_scope.

(** ** Runes and strings *)

Abbreviation rune := Z (only parsing).
Abbreviation gostring := (list Z) (only parsing).

Definition chr (a : ascii) : rune := Z.of_N (N_of_ascii a).
Arguments chr a%_char.

(** The Go string of an ASCII literal. *)
Definition go (s : string) : gostring := map chr (list_ascii_of_string s).
Arguments go s%_string.

Definition newline : rune := 10.
Definition doublequote : rune := 34.
Definition singlequote : rune := 39.

(** ** Outcomes and the stream monad *)

Inductive outcome (A : Type) : Type :=
| Done (a : A)
| Panic
| OutOfFuel.
Arguments Done {A} a.
Arguments Panic {A}.
Arguments OutOfFuel {A}.

(** ** The character stream

    Modelled from the spec: the [lexerStream] type, [newLexerStream],
    [canRead], [readCharacter] and [rewind] are not in the source files.
    Spec 4.1: the stream owns the text and a cursor [position]; [canRead]
    tests for more input, [readCharacter] returns the code point under the
    cursor and advances by one (undefined when [canRead] is false: a panic
    here), [rewind n] moves the cursor back by [n], forward when [n] is
    negative. *)

Record lexerStream : Type := mkStream {
  source : gostring;
  position : Z;
  slength : Z
}.

Definition newLexerStream (expression : gostring) : lexerStream :=
  {| source := expression; position := 0;
     slength := Z.of_nat (length expression) |}.

Definition canRead (stream : lexerStream) : bool :=
  position stream <? slength stream.

Definition M (A : Type) : Type := lexerStream -> outcome (A * lexerStream).

Definition ret {A} (a : A) : M A := fun stream => Done (a, stream).

Definition bind {A B} (m : M A) (k : A -> M B) : M B :=
  fun stream =>
    match m stream with
    | Done (a, stream') => k a stream'
    | Panic => Panic
    | OutOfFuel => OutOfFuel
    end.

Notation "'do' x <- m ; k" := (bind m (fun x => k))
  (at level 10, x name, m at level 100, k at level 200).
Notation "'do' ' p <- m ; k" := (bind m (fun x => match x with p => k end))
  (at level 10, p pattern, m at level 100, k at level 200).

Definition getStream : M lexerStream := fun stream => Done (stream, stream).

Definition readCharacter : M rune :=
  fun stream =>
    if 0 <=? position stream then
      match source stream !! Z.to_nat (position stream) with
      | Some character =>
          Done (character,
                {| source := source stream;
                   position := position stream + 1;
                   slength := slength stream |})
      | None => Panic
      end
    else Panic.

Definition rewind (amount : Z) : M unit :=
  fun stream =>
    Done (tt, {| source := source stream;
                 position := position stream - amount;
                 slength := slength stream |}).

(** Fuel for a loop that consumes input on every turn. *)
Definition fuel_of (stream : lexerStream) : nat :=
  S (Z.to_nat (slength stream - position stream)).

(** ** Token kinds, values and tokens

    Modelled from the spec: the declarations of [TokenKind] and
    [ExpressionToken] are not in the source files.  Spec 6 lists the kinds;
    spec 3 gives a token its kind, raw text, value and offsets.  The zero
    value of [TokenKind] is [UNKNOWN]: [readToken] leaves [kind] at its zero
    value when only white space remains, and spec 4.3 has the tokenizer stop
    without error there. *)

Inductive TokenKind : Type :=
| UNKNOWN | PREFIX | NUMERIC | BOOLEAN | STRING | TIME | VARIABLE | FUNCTION
| SEPARATOR | ACCESSOR | COMPARATOR | LOGICALOP | MODIFIER | CLAUSE
| CLAUSE_CLOSE | TERNARY | ARRAY.

#[global] Instance TokenKind_eq_dec : EqDecision TokenKind.
Proof. solve_decision. Defined.

Definition TokenKind_zero : TokenKind := UNKNOWN.

(** [ExpressionFunction], from the source. *)
Record ExpressionFunction : Type := mkFunction {
  Name : gostring;
  Parameters : list gostring;
  ReturnType : gostring
}.

Abbreviation float64 := spec_float (only parsing).

(** [time.Time], an instant. *)
Abbreviation Time := Z (only parsing).

(** The dynamic [interface{}] held by a token, one constructor per dynamic
    type the tokenizer stores. *)
Inductive TokenValue : Type :=
| VNil
| VFloat (f : float64)
| VBool (b : bool)
| VString (s : gostring)
| VRune (c : rune)
| VTime (t : Time)
| VFunction (f : ExpressionFunction)
| VStrings (l : list gostring).

Record ExpressionToken : Type := mkToken {
  Kind : TokenKind;
  Value : TokenValue;
  Raw : gostring;
  Start : Z;
  End_ : Z
}.

Abbreviation error := (list Z) (only parsing).

(** ** The Go library the tokenizer calls *)

(** The [unicode] predicates on ASCII are written out; beyond ASCII they are
    the tables of the Go distribution, a parameter of the development.
    [strconv.ParseFloat] is written out on plain decimals (ASCII digits and
    periods) and a parameter on every other text. *)
Record GoLibrary : Type := mkLibrary {
  IsSpace_table : rune -> bool;
  IsLetter_table : rune -> bool;
  IsDigit_table : rune -> bool;
  ToUpper_table : rune -> rune;
  ToLower_table : rune -> rune;
  ParseFloat_other : gostring -> option float64;
  time_ParseInLocation : gostring -> gostring -> option Time;
  time_Now : Time
}.

Definition MaxASCII : rune := 127.

Definition between (lo hi c : rune) : bool := (lo <=? c) && (c <=? hi).

Definition ascii_digit (c : rune) : bool := between (chr "0") (chr "9") c.

(** [strconv.ParseUint(s, 16, 64)]: no sign, no prefix, no underscore; a
    syntax error on the empty text or on a rune that is not a hexadecimal
    digit, a range error above 2^64 - 1. *)
Definition hex_digit_value (c : rune) : option Z :=
  if ascii_digit c then Some (c - chr "0")
  else if between (chr "a") (chr "f") c then Some (c - chr "a" + 10)
  else if between (chr "A") (chr "F") c then Some (c - chr "A" + 10)
  else None.

Fixpoint hex_digits (s : gostring) (acc : Z) : option Z :=
  match s with
  | [] => Some acc
  | c :: s' =>
      match hex_digit_value c with
      | Some d => hex_digits s' (16 * acc + d)
      | None => None
      end
  end.

Definition strconv_ParseUint_16_64 (s : gostring) : option Z :=
  match s with
  | [] => None
  | _ =>
      match hex_digits s 0 with
      | Some n => if n <? 2 ^ 64 then Some n else None
      | None => None
      end
  end.

(** [float64(n)] for an unsigned 64-bit [n]: round to nearest, ties to
    even. *)
Definition float64_of_uint64 (n : Z) : float64 :=
  binary_normalize 53 1024 n 0 false.

(** Plain decimals: the digits with the period removed, and the number of
    digits behind the period. *)
Definition plain_decimal (s : gostring) : bool :=
  forallb (fun c => ascii_digit c || (c =? chr ".")) s.

Fixpoint decimal_digits (s : gostring) (acc : Z) : Z :=
  match s with
  | [] => acc
  | c :: s' =>
      if c =? chr "." then decimal_digits s' acc
      else decimal_digits s' (10 * acc + (c - chr "0"))
  end.

Fixpoint fraction_length (s : gostring) : Z :=
  match s with
  | [] => 0
  | c :: s' =>
      if c =? chr "." then Z.of_nat (length s') else fraction_length s'
  end.

Definition count_rune (c : rune) (s : gostring) : nat :=
  length (filter (fun d => d = c) s).

(** The float nearest to [n / 10 ^ k], ties to even; an overflow is
    reported as a range error. *)
Definition round_decimal (n k : Z) : option float64 :=
  if n =? 0 then Some (S754_zero false)
  else
    let '(q, e, l) := SFdiv_core_binary 53 1024 n 0 (10 ^ k) 0 in
    match binary_round_aux 53 1024 false q e l with
    | S754_infinity _ => None
    | f => Some f
    end.

Definition ParseFloat_plain (s : gostring) : option float64 :=
  if (1 <? count_rune (chr ".") s)%nat then None
  else if forallb (fun c => c =? chr ".") s then None
  else round_decimal (decimal_digits s 0) (fraction_length s).

(** ** Lexer states and symbol tables

    Modelled from the spec: [lexerState], [validLexerStates],
    [canTransitionTo], [getLexerStateForToken] and the five symbol tables
    are not in the source files.  Spec 3: a lexer state is a named state
    with the set of token kinds it may transition to, and the current state
    is a function of the kind of the last token.  Spec 6: the symbol tables
    are static configuration.  The tables, the initial state
    [validLexerStates[0]] and the state function are the fields of
    [Tables]; the tokenizer only tests the keys of a symbol table. *)

Record lexerState : Type := mkState {
  kind : TokenKind;
  validNextKinds : list TokenKind
}.

Definition canTransitionTo (state : lexerState) (k : TokenKind) : bool :=
  bool_decide (k ∈ validNextKinds state).

Record Tables : Type := mkTables {
  prefixSymbols : gset gostring;
  modifierSymbols : gset gostring;
  logicalSymbols : gset gostring;
  comparatorSymbols : gset gostring;
  ternarySymbols : gset gostring;
  validLexerStates_0 : lexerState;
  getLexerStateForToken : TokenKind -> lexerState * option error
}.

Definition found_in (table : gset gostring) (key : gostring) : bool :=
  bool_decide (key ∈ table).

(** ** Strings *)

(** [strings.Index(s, ".")] for a one-rune separator: the index of its
    first occurrence, -1 when there is none.  The source only tests whether
    the index is above 0, which does not depend on counting bytes or
    runes. *)
Fixpoint strings_Index (s : gostring) (sep : rune) : Z :=
  match s with
  | [] => -1
  | c :: s' =>
      if c =? sep then 0
      else let i := strings_Index s' sep in if i <? 0 then -1 else i + 1
  end.

(** [strings.Split(s, ".")] for a one-rune separator. *)
Fixpoint strings_Split (s : gostring) (sep : rune) : list gostring :=
  match s with
  | [] => [[]]
  | c :: s' =>
      if c =? sep then [] :: strings_Split s' sep
      else
        match strings_Split s' sep with
        | segment :: segments => (c :: segment) :: segments
        | [] => [[c]]
        end
  end.

(** [strings.Join]. *)
Fixpoint strings_Join (elems : list gostring) (sep : gostring) : gostring :=
  match elems with
  | [] => []
  | [e] => e
  | e :: elems' => e ++ sep ++ strings_Join elems' sep
  end.

Definition getFirstRune (candidate : gostring) : rune :=
  match candidate with
  | character :: _ => character
  | [] => 0
  end.

Definition string_eqb (a b : gostring) : bool := bool_decide (a = b).

(** [v == "text"] on an [interface{}]: true only for a string of that
    text. *)
Definition value_is (v : TokenValue) (s : gostring) : bool :=
  match v with
  | VString t => string_eqb t s
  | _ => false
  end.

(** ** The tokenizer *)

Section Tokenizer.

Variable L : GoLibrary.
Variable T : Tables.

(** [unicode.IsSpace], [IsLetter], [IsDigit], [ToUpper], [ToLower]. *)
Definition unicode_IsSpace (c : rune) : bool :=
  if c <=? MaxASCII then
    between 9 13 c || (c =? chr " ")
  else IsSpace_table L c.

Definition unicode_IsLetter (c : rune) : bool :=
  if c <=? MaxASCII then
    between (chr "A") (chr "Z") c || between (chr "a") (chr "z") c
  else IsLetter_table L c.

Definition unicode_IsDigit (c : rune) : bool :=
  if c <=? MaxASCII then ascii_digit c else IsDigit_table L c.

Definition unicode_ToUpper (c : rune) : rune :=
  if c <=? MaxASCII then
    if between (chr "a") (chr "z") c then c - (chr "a" - chr "A") else c
  else ToUpper_table L c.

Definition unicode_ToLower (c : rune) : rune :=
  if c <=? MaxASCII then
    if between (chr "A") (chr "Z") c then c + (chr "a" - chr "A") else c
  else ToLower_table L c.

(** [strconv.ParseFloat(s, 64)]; [None] is a returned error. *)
Definition strconv_ParseFloat (s : gostring) : option float64 :=
  if plain_decimal s then ParseFloat_plain s else ParseFloat_other L s.

(** The character classes of the source. *)
Definition isDigit (character : rune) : bool := unicode_IsDigit character.

Definition isHexDigit (character : rune) : bool :=
  let character := unicode_ToLower character in
  unicode_IsDigit character
  || (character =? chr "a") || (character =? chr "b")
  || (character =? chr "c") || (character =? chr "d")
  || (character =? chr "e") || (character =? chr "f").

Definition isNumeric (character : rune) : bool :=
  unicode_IsDigit character || (character =? chr ".").

Definition isNotQuote (character : rune) : bool :=
  negb (character =? singlequote) && negb (character =? doublequote).

Definition isVariableName (character : rune) : bool :=
  unicode_IsLetter character || unicode_IsDigit character
  || (character =? chr "_") || (character =? chr ".").

Definition isNotAlphanumeric (character : rune) : bool :=
  negb (unicode_IsDigit character || unicode_IsLetter character
        || (character =? chr "(") || (character =? chr ")")
        || (character =? chr "[") || (character =? chr "]")
        || negb (isNotQuote character)).

Definition isNotClosingBracket (character : rune) : bool :=
  negb (character =? chr "]").

(** [readUntilFalse]: the text read until [condition] fails or white space
    breaks it, and whether it stopped before the end of the stream. *)
Fixpoint readUntilFalse_loop (fuel : nat)
    (includeWhitespace breakWhitespace allowEscaping : bool)
    (condition : rune -> bool) (tokenBuffer : gostring)
    : M (gostring * bool) :=
  match fuel with
  | O => fun _ => OutOfFuel
  | S fuel =>
      do stream <- getStream;
      if canRead stream then
        do character <- readCharacter;
        if allowEscaping && (character =? chr "\") then
          do character <- readCharacter;
          readUntilFalse_loop fuel includeWhitespace breakWhitespace
            allowEscaping condition (tokenBuffer ++ [character])
        else if unicode_IsSpace character && breakWhitespace
                && (0 <? length tokenBuffer)%nat then
          ret (tokenBuffer, true)
        else if unicode_IsSpace character && negb includeWhitespace then
          readUntilFalse_loop fuel includeWhitespace breakWhitespace
            allowEscaping condition tokenBuffer
        else if condition character then
          readUntilFalse_loop fuel includeWhitespace breakWhitespace
            allowEscaping condition (tokenBuffer ++ [character])
        else
          do _ <- rewind 1;
          ret (tokenBuffer, true)
      else ret (tokenBuffer, false)
  end.

Definition readUntilFalse
    (includeWhitespace breakWhitespace allowEscaping : bool)
    (condition : rune -> bool) : M (gostring * bool) :=
  do stream <- getStream;
  readUntilFalse_loop (fuel_of stream) includeWhitespace breakWhitespace
    allowEscaping condition [].

Definition readTokenUntilFalse (condition : rune -> bool) : M gostring :=
  do _ <- rewind 1;
  do '(ret_, _) <- readUntilFalse false true true condition;
  ret ret_.

(** [tryParseExactTime] and [tryParseTime], with the layouts of the [time]
    package written out. *)
Definition tryParseExactTime (candidate format : gostring) : Time * bool :=
  match time_ParseInLocation L format candidate with
  | Some t => (t, true)
  | None => (time_Now L, false)
  end.

Definition timeFormats : list gostring :=
  [ go "Mon Jan _2 15:04:05 2006";
    go "Mon Jan _2 15:04:05 MST 2006";
    go "Mon Jan 02 15:04:05 -0700 2006";
    go "3:04PM";
    go "2006-01-02T15:04:05Z07:00";
    go "2006-01-02T15:04:05.999999999Z07:00";
    go "2006-01-02";
    go "2006-01-02 15:04";
    go "2006-01-02 15:04:05";
    go "2006-01-02 15:04:05-07:00";
    go "2006-01-02T15Z0700";
    go "2006-01-02T15:04Z0700";
    go "2006-01-02T15:04:05Z0700";
    go "2006-01-02T15:04:05.999999999Z0700" ].

Fixpoint tryParseTime_loop (candidate : gostring) (formats : list gostring)
    : Time * bool :=
  match formats with
  | [] => (time_Now L, false)
  | format :: formats' =>
      let '(t, found) := tryParseExactTime candidate format in
      if found then (t, true) else tryParseTime_loop candidate formats'
  end.

Definition tryParseTime (candidate : gostring) : Time * bool :=
  tryParseTime_loop candidate timeFormats.

(** What [readToken] returns: the token, the error, and [found]. *)
Definition tokenResult : Type := ExpressionToken * option error * bool.

(** [return ExpressionToken{Start: position, End: stream.position}, err,
    false]; the local [position] of the source is [position_] here. *)
Definition fail_at (position_ : Z) (msg : error) : M tokenResult :=
  do stream <- getStream;
  ret ({| Kind := TokenKind_zero; Value := VNil; Raw := [];
          Start := position_; End_ := position stream |},
       Some msg, false).

(** The statements after the loop: fill in [ret] and return it. *)
Definition emit (start : Z) (kind : TokenKind) (tokenValue : TokenValue)
    (tokenString : gostring) : M tokenResult :=
  do stream <- getStream;
  ret ({| Kind := kind; Value := tokenValue; Raw := tokenString;
          Start := start; End_ := position stream |},
       None, negb (bool_decide (kind = UNKNOWN))).

(** Lines 85-116: a numeric constant. *)
Definition readDecimal (position_ : Z) : M tokenResult :=
  do tokenString <- readTokenUntilFalse isNumeric;
  match strconv_ParseFloat tokenString with
  | None =>
      fail_at position_
        (go "Unable to parse numeric value '" ++ tokenString
         ++ go "' to float64" ++ [newline])
  | Some tokenValue => emit position_ NUMERIC (VFloat tokenValue) tokenString
  end.

Definition readHex (position_ : Z) : M tokenResult :=
  do '(tokenString, _) <- readUntilFalse false true true isHexDigit;
  match strconv_ParseUint_16_64 tokenString with
  | None =>
      fail_at position_
        (go "Unable to parse hex value '" ++ tokenString
         ++ go "' to uint64" ++ [newline])
  | Some tokenValueInt =>
      emit position_ NUMERIC (VFloat (float64_of_uint64 tokenValueInt))
        tokenString
  end.

Definition readNumeric (position_ : Z) (character : rune) : M tokenResult :=
  do stream <- getStream;
  if canRead stream && (character =? chr "0") then
    do character <- readCharacter;
    do stream <- getStream;
    if canRead stream && (character =? chr "x") then readHex position_
    else
      do _ <- rewind 1;
      readDecimal position_
  else readDecimal position_.

(** Lines 128-140: a bracketed variable. *)
Definition readBracket (position_ : Z) : M tokenResult :=
  do '(tokenValue, completed) <- readUntilFalse true false true
                                   isNotClosingBracket;
  if negb completed then fail_at position_ (go "Unclosed parameter bracket")
  else
    do _ <- rewind (-1);
    emit position_ VARIABLE (VString tokenValue) tokenValue.

(** Lines 193-202: the first segment after the first that is not
    exported. *)
Fixpoint firstUnexported (splits : list gostring) : option gostring :=
  match splits with
  | [] => None
  | segment :: splits' =>
      let firstCharacter := getFirstRune segment in
      if negb (unicode_ToUpper firstCharacter =? firstCharacter)
      then Some segment
      else firstUnexported splits'
  end.

(** Lines 147-203: the token of a word that has been read. *)
Definition wordToken (functions : gmap gostring ExpressionFunction)
    (position_ : Z) (tokenString : gostring) : M tokenResult :=
  let tokenValue := VString tokenString in
  let kind := VARIABLE in
  let '(kind, tokenValue) :=
    if value_is tokenValue (go "true") then (BOOLEAN, VBool true)
    else if value_is tokenValue (go "false") then (BOOLEAN, VBool false)
    else (kind, tokenValue) in
  let '(kind, tokenValue) :=
    if value_is tokenValue (go "in") || value_is tokenValue (go "IN")
    then (COMPARATOR, VString (go "in"))
    else (kind, tokenValue) in
  let '(kind, tokenValue) :=
    match functions !! tokenString with
    | Some function => (FUNCTION, VFunction function)
    | None => (kind, tokenValue)
    end in
  let accessorIndex := strings_Index tokenString (chr ".") in
  if 0 <? accessorIndex then
    match last tokenString with
    | None => fun _ => Panic
    | Some lastCharacter =>
        if lastCharacter =? chr "." then
          fail_at position_
            (go "Hanging accessor on token '" ++ tokenString ++ go "'")
        else
          let kind := ACCESSOR in
          let splits := strings_Split tokenString (chr ".") in
          let tokenValue := VStrings splits in
          match firstUnexported (tail splits) with
          | Some segment =>
              fail_at position_
                (go "Unable to access unexported field '" ++ segment
                 ++ go "' in token '" ++ tokenString ++ go "'")
          | None => emit position_ kind tokenValue tokenString
          end
    end
  else emit position_ kind tokenValue tokenString.

(** Lines 143-205: a variable, a boolean, [in], a function or an
    accessor. *)
Definition readWord (functions : gmap gostring ExpressionFunction)
    (position_ : Z) : M tokenResult :=
  do tokenString <- readTokenUntilFalse isVariableName;
  wordToken functions position_ tokenString.

(** Lines 207-227: a quoted string or time. *)
Definition readQuoted (position_ : Z) : M tokenResult :=
  do '(tokenValue, completed) <- readUntilFalse true false true isNotQuote;
  if negb completed then fail_at position_ (go "Unclosed string literal")
  else
    do _ <- rewind (-1);
    let '(tokenTime, found) := tryParseTime tokenValue in
    let tokenString := tokenValue in
    if found then emit position_ TIME (VTime tokenTime) tokenString
    else emit position_ STRING (VString tokenValue) tokenString.

(** Lines 245-285: the token of a symbol that has been read.  The
    invalid-token error returns [ret], of which only [Start] has been
    set. *)
Definition symbolToken (state : lexerState) (position_ : Z)
    (tokenString : gostring) : M tokenResult :=
  let tokenValue := VString tokenString in
  if canTransitionTo state PREFIX && found_in (prefixSymbols T) tokenString
  then emit position_ PREFIX tokenValue tokenString
  else if found_in (modifierSymbols T) tokenString
  then emit position_ MODIFIER tokenValue tokenString
  else if found_in (logicalSymbols T) tokenString
  then emit position_ LOGICALOP tokenValue tokenString
  else if found_in (comparatorSymbols T) tokenString
  then emit position_ COMPARATOR tokenValue tokenString
  else if found_in (ternarySymbols T) tokenString
  then emit position_ TERNARY tokenValue tokenString
  else
    ret ({| Kind := TokenKind_zero; Value := VNil; Raw := [];
            Start := position_; End_ := 0 |},
         Some (go "Invalid token: '" ++ tokenString ++ go "'"), false).

(** Lines 243-285: a symbol. *)
Definition readSymbol (state : lexerState) (position_ : Z)
    : M tokenResult :=
  do tokenString <- readTokenUntilFalse isNotAlphanumeric;
  symbolToken state position_ tokenString.

(** One turn of the loop of [readToken] on a character that is not white
    space. *)
Definition readToken_dispatch (state : lexerState)
    (functions : gmap gostring ExpressionFunction)
    (position_ : Z) (character : rune) : M tokenResult :=
  if isNumeric character then readNumeric position_ character
  else if character =? chr "," then
    emit position_ SEPARATOR (VString (go ",")) (go ",")
  else if character =? chr "[" then readBracket position_
  else if unicode_IsLetter character then readWord functions position_
  else if negb (isNotQuote character) then readQuoted position_
  else if character =? chr "(" then
    emit position_ CLAUSE (VRune character) (go "(")
  else if character =? chr ")" then
    emit position_ CLAUSE_CLOSE (VRune character) (go ")")
  else readSymbol state position_.

(** [readToken].  [start] is [ret.Start], set on every turn; when the stream
    runs out, [kind] still has its zero value. *)
Fixpoint readToken_loop (fuel : nat) (state : lexerState)
    (functions : gmap gostring ExpressionFunction) (start : Z)
    : M tokenResult :=
  match fuel with
  | O => fun _ => OutOfFuel
  | S fuel =>
      do stream <- getStream;
      if canRead stream then
        let position_ := position stream in
        do character <- readCharacter;
        if unicode_IsSpace character then
          readToken_loop fuel state functions position_
        else readToken_dispatch state functions position_ character
      else emit start TokenKind_zero VNil []
  end.

Definition readToken (state : lexerState)
    (functions : gmap gostring ExpressionFunction) : M tokenResult :=
  do stream <- getStream;
  readToken_loop (fuel_of stream) state functions 0.

(** ** [checkBalance]

    Modelled from the spec: [tokenStream] with [hasNext] and [next] is not
    in the source files; spec 4.3 has the check walk the emitted sequence
    in order. *)
Definition wrap_int (z : Z) : Z := (z + 2 ^ 63) mod 2 ^ 64 - 2 ^ 63.

Fixpoint checkBalance_loop (tokens : list ExpressionToken) (parens : Z)
    : Z :=
  match tokens with
  | [] => parens
  | token :: tokens' =>
      if bool_decide (Kind token = CLAUSE)
      then checkBalance_loop tokens' (wrap_int (parens + 1))
      else if bool_decide (Kind token = CLAUSE_CLOSE)
      then checkBalance_loop tokens' (wrap_int (parens - 1))
      else checkBalance_loop tokens' parens
  end.

Definition checkBalance (tokens : list ExpressionToken) : option error :=
  let parens := checkBalance_loop tokens 0 in
  if negb (parens =? 0) then Some (go "Unbalanced parenthesis") else None.

(** ** [ParseTokens] *)

(** The loop of [ParseTokens]: the tokens read, and the error of an early
    return. *)
Fixpoint ParseTokens_loop (fuel : nat) (state : lexerState)
    (functions : gmap gostring ExpressionFunction)
    (ret_ : list ExpressionToken) : M (list ExpressionToken * option error) :=
  match fuel with
  | O => fun _ => OutOfFuel
  | S fuel =>
      do stream <- getStream;
      if canRead stream then
        do '(token, err, found) <- readToken state functions;
        match err with
        | Some e => ret (ret_, Some e)
        | None =>
            if negb found then ret (ret_, None)
            else
              let '(state, err) := getLexerStateForToken T (Kind token) in
              match err with
              | Some e => ret (ret_, Some e)
              | None => ParseTokens_loop fuel state functions (ret_ ++ [token])
              end
        end
      else ret (ret_, None)
  end.

(** Lines 21-43 of [ParseTokens]: the scan of the whole expression. *)
Definition scan (expression : gostring)
    (functions : gmap gostring ExpressionFunction)
    : outcome (list ExpressionToken * option error * lexerStream) :=
  let stream := newLexerStream expression in
  let state := validLexerStates_0 T in
  ParseTokens_loop (fuel_of stream) state functions [] stream.

Definition ParseTokens (expression : gostring)
    (functions : gmap gostring ExpressionFunction)
    : outcome (list ExpressionToken * option error) :=
  match scan expression functions with
  | Done ((ret_, Some err), _) => Done (ret_, Some err)
  | Done ((ret_, None), _) =>
      match checkBalance ret_ with
      | Some err => Done ([], Some err)
      | None => Done (ret_, None)
      end
  | Panic => Panic
  | OutOfFuel => OutOfFuel
  end.

End Tokenizer.

(** ** The tree renderer ([generate]) *)

Module Generator.

(** Modelled from the spec: the declarations of [ASTNode] and of its token
    are not in the source files.  Spec 3: a syntax tree node is a token and
    an ordered sequence of child nodes, tree-shaped; [generate] reads the
    fields [Kind], [Content] and [Value] of the token. *)
Record Token : Type := mkToken {
  Kind : TokenKind;
  Content : gostring;
  Value : TokenValue
}.

#[warnings="-register-all"] Inductive ASTNode : Type :=
| Node (token : Token) (children : list ASTNode).

Definition Token_of (ast : ASTNode) : Token :=
  match ast with Node token _ => token end.

Definition Children (ast : ASTNode) : list ASTNode :=
  match ast with Node _ children => children end.

Definition max_int : Z := 2 ^ 63 - 1.

(** [strings.Repeat("  ", count)]: a panic on a negative count and when the
    length of the result overflows [int]. *)
Definition indentation (count : Z) : option gostring :=
  if count <? 0 then None
  else if max_int <? 2 * count then None
  else Some (concat (replicate (Z.to_nat count) (go "  "))).

Section Generate.

(** [fmt.Sprintf("%v", v)], from the Go library. *)
Variable fmt_v : TokenValue -> gostring.

(** [generate]; [None] is a run-time panic (an index out of range, or the
    panic of [strings.Repeat]). *)
Fixpoint generate (ast : ASTNode) (indent : Z) : option gostring :=
  match ast with
  | Node token children =>
      match indentation indent with
      | None => None
      | Some indentStr =>
          match Kind token with
          | LOGICALOP =>
              match children with
              | child0 :: child1 :: _ =>
                  match generate child0 (wrap_int (indent + 1)),
                        generate child1 (wrap_int (indent + 1)) with
                  | Some lhs, Some rhs =>
                      let code :=
                        lhs ++ [newline] ++ indentStr ++ Content token
                        ++ [newline] ++ indentStr ++ rhs ++ go " "
                        ++ indentStr in
                      if 0 <? indent then
                        Some (go "(" ++ [newline] ++ indentStr ++ code
                              ++ [newline] ++ indentStr ++ go ")")
                      else Some code
                  | _, _ => None
                  end
              | _ => None
              end
          | COMPARATOR =>
              match children with
              | child0 :: child1 :: _ =>
                  match generate child0 (wrap_int (indent + 1)),
                        generate child1 (wrap_int (indent + 1)) with
                  | Some lhs, Some rhs =>
                      Some (lhs ++ go " " ++ Content token ++ go " "
                            ++ rhs)
                  | _, _ => None
                  end
              | _ => None
              end
          | PREFIX =>
              match children with
              | child0 :: _ =>
                  match generate child0 (wrap_int (indent + 1)) with
                  | Some operand =>
                      Some (Content token ++ go "(" ++ operand ++ indentStr
                            ++ go ")")
                  | None => None
                  end
              | _ => None
              end
          | FUNCTION =>
              let params :=
                (fix each (rest : list ASTNode) : option (list gostring) :=
                   match rest with
                   | [] => Some []
                   | child :: rest' =>
                       match generate child 0, each rest' with
                       | Some param, Some params => Some (param :: params)
                       | _, _ => None
                       end
                   end) children in
              match params with
              | Some params =>
                  Some (Content token ++ go "( "
                        ++ strings_Join params (go ", ") ++ go " )")
              | None => None
              end
          | VARIABLE | STRING | NUMERIC => Some (fmt_v (Value token))
          | ARRAY =>
              let elements :=
                (fix each (rest : list ASTNode) : option (list gostring) :=
                   match rest with
                   | [] => Some []
                   | child :: rest' =>
                       match generate child (wrap_int (indent + 1)),
                             each rest' with
                       | Some element, Some elements =>
                           Some (element :: elements)
                       | _, _ => None
                       end
                   end) children in
              match elements with
              | Some elements =>
                  Some (go "( " ++ strings_Join elements (go ", ")
                        ++ go " )")
              | None => None
              end
          | _ => Some []
          end
      end
  end.

End Generate.

(** The arity invariant of a tree, and its height. *)
Fixpoint arity_ok (ast : ASTNode) : Prop :=
  match ast with
  | Node token children =>
      match Kind token with
      | LOGICALOP | COMPARATOR => (2 <= length children)%nat
      | PREFIX => (1 <= length children)%nat
      | _ => True
      end
      /\ foldr and True (map arity_ok children)
  end.

Fixpoint height (ast : ASTNode) : Z :=
  match ast with
  | Node _ children => 1 + foldr Z.max 0 (map height children)
  end.

(** The kinds [generate] has a case for. *)
Definition rendered (k : TokenKind) : bool :=
  match k with
  | LOGICALOP | COMPARATOR | PREFIX | FUNCTION | VARIABLE | STRING
  | NUMERIC | ARRAY => true
  | _ => false
  end.

End Generator.

(** ** An instance to evaluate the tokenizer on ASCII expressions *)

(** A library whose tables beyond ASCII are empty, in which no text other
    than a plain decimal parses as a float and no text parses as a time. *)
Definition ascii_library : GoLibrary :=
  {| IsSpace_table := fun _ => false;
     IsLetter_table := fun _ => false;
     IsDigit_table := fun _ => false;
     ToUpper_table := fun c => c;
     ToLower_table := fun c => c;
     ParseFloat_other := fun _ => None;
     time_ParseInLocation := fun _ _ => None;
     time_Now := 0 |}.

(** Modelled from the spec: the symbol tables and the lexer states of the
    repository are not in the source files.  These tables hold what the
    spec names: the negation [-] as a prefix symbol (glossary), [+] and [-]
    as modifiers (spec 8), and the states of spec 4.2, where a prefix may
    follow the start of the expression, an opening parenthesis or an
    operator, and an infix operator may follow an operand. *)
Definition after_operator : list TokenKind :=
  [PREFIX; NUMERIC; BOOLEAN; STRING; TIME; VARIABLE; FUNCTION; ACCESSOR;
   CLAUSE].

Definition after_operand : list TokenKind :=
  [MODIFIER; COMPARATOR; LOGICALOP; TERNARY; SEPARATOR; CLAUSE_CLOSE].

Definition example_state (k : TokenKind) : lexerState * option error :=
  match k with
  | NUMERIC | BOOLEAN | STRING | TIME | VARIABLE | ACCESSOR | CLAUSE_CLOSE =>
      ({| kind := k; validNextKinds := after_operand |}, None)
  | PREFIX | MODIFIER | COMPARATOR | LOGICALOP | TERNARY | SEPARATOR
  | CLAUSE =>
      ({| kind := k; validNextKinds := after_operator |}, None)
  | FUNCTION => ({| kind := k; validNextKinds := [CLAUSE] |}, None)
  | UNKNOWN | ARRAY =>
      ({| kind := UNKNOWN; validNextKinds := after_operator |},
       Some (go "No lexer state found for token kind"))
  end.

Definition example_tables : Tables :=
  {| prefixSymbols := {[ go "-" ]};
     modifierSymbols := {[ go "+"; go "-" ]};
     logicalSymbols := ∅;
     comparatorSymbols := ∅;
     ternarySymbols := ∅;
     validLexerStates_0 :=
       {| kind := UNKNOWN; validNextKinds := after_operator |};
     getLexerStateForToken := example_state |}.

(** Two function mappings: one registers [max], the other registers a name
    that holds a period. *)
Definition max_function : ExpressionFunction :=
  {| Name := go "max"; Parameters := [go "float64"; go "float64"];
     ReturnType := go "float64" |}.

Definition dotted_function : ExpressionFunction :=
  {| Name := go "foo.Bar"; Parameters := []; ReturnType := go "float64" |}.

Definition functions_max : gmap gostring ExpressionFunction :=
  {[ go "max" := max_function ]}.

Definition functions_dotted : gmap gostring ExpressionFunction :=
  {[ go "foo.Bar" := dotted_function ]}.

(** A [%v] to evaluate the renderer with: a string prints as its text and a
    boolean as [true] or [false], as [fmt] prints them; the other values
    are not printed. *)
Definition show_value (v : TokenValue) : gostring :=
  match v with
  | VString s => s
  | VBool true => go "true"
  | VBool false => go "false"
  | _ => []
  end.

(** Trees to evaluate the renderer on: a variable, and an operator over two
    variables. *)
Definition variable_node (name : gostring) : Generator.ASTNode :=
  Generator.Node
    {| Generator.Kind := VARIABLE; Generator.Content := name;
       Generator.Value := VString name |} [].

Definition and_token : Generator.Token :=
  {| Generator.Kind := LOGICALOP; Generator.Content := go "&&";
     Generator.Value := VNil |}.

Definition not_node : Generator.ASTNode :=
  Generator.Node
    {| Generator.Kind := PREFIX; Generator.Content := go "!";
       Generator.Value := VNil |} [variable_node (go "a")].

(** ** Notions used to state the properties *)

(** A stream positioned after [pre], with [rest] still to read. *)
Definition stream_at (pre rest : gostring) : lexerStream :=
  {| source := pre ++ rest;
     position := Z.of_nat (length pre);
     slength := Z.of_nat (length (pre ++ rest)) |}.

(** The balance of a token sequence: [CLAUSE] counts +1 and [CLAUSE_CLOSE]
    counts -1. *)
Fixpoint balance (tokens : list ExpressionToken) : Z :=
  match tokens with
  | [] => 0
  | token :: tokens' =>
      (if bool_decide (Kind token = CLAUSE) then 1
       else if bool_decide (Kind token = CLAUSE_CLOSE) then -1
       else 0) + balance tokens'
  end.

(** The indentation of depth [indent]: two spaces for every level. *)
Definition two_spaces (indent : Z) : gostring :=
  concat (replicate (Z.to_nat indent) (go "  ")).

Section Specification.

Variable L : GoLibrary.
Variable T : Tables.

(** [next_character stream position_ character stream']: the loop of
    [readToken], started on [stream], skips white space and reads at
    [position_] the [character], which is not white space, leaving
    [stream']. *)
Inductive next_character
    : lexerStream -> Z -> rune -> lexerStream -> Prop :=
| next_here stream character stream' :
    canRead stream = true ->
    readCharacter stream = Done (character, stream') ->
    unicode_IsSpace L character = false ->
    next_character stream (position stream) character stream'
| next_skip stream space stream1 position_ character stream' :
    canRead stream = true ->
    readCharacter stream = Done (space, stream1) ->
    unicode_IsSpace L space = true ->
    next_character stream1 position_ character stream' ->
    next_character stream position_ character stream'.

(** The characters [readToken] leaves to the symbol branch, and those it
    takes for the head of a word. *)
Definition symbol_lead (character : rune) : bool :=
  negb (isNumeric L character) && negb (character =? chr ",")
  && negb (character =? chr "[") && negb (unicode_IsLetter L character)
  && isNotQuote character && negb (character =? chr "(")
  && negb (character =? chr ")").

Definition word_lead (character : rune) : bool :=
  negb (isNumeric L character) && negb (character =? chr ",")
  && negb (character =? chr "[") && unicode_IsLetter L character.

(** The classification of a symbol run, in the words of the spec. *)
Definition classify (state : lexerState) (run : gostring)
    : option TokenKind :=
  if canTransitionTo state PREFIX && found_in (prefixSymbols T) run
  then Some PREFIX
  else if found_in (modifierSymbols T) run then Some MODIFIER
  else if found_in (logicalSymbols T) run then Some LOGICALOP
  else if found_in (comparatorSymbols T) run then Some COMPARATOR
  else if found_in (ternarySymbols T) run then Some TERNARY
  else None.

(** What [readToken] returns for a symbol run classified so: a token of the
    kind found, or the invalid-token error. *)
Definition symbol_result (state : lexerState) (position_ : Z)
    (run : gostring) (stream' : lexerStream)
    : outcome (tokenResult * lexerStream) :=
  match classify state run with
  | Some k =>
      Done (({| Kind := k; Value := VString run; Raw := run;
                Start := position_; End_ := position stream' |},
             None, true), stream')
  | None =>
      Done (({| Kind := TokenKind_zero; Value := VNil; Raw := [];
                Start := position_; End_ := 0 |},
             Some (go "Invalid token: '" ++ run ++ go "'"), false),
            stream')
  end.

End Specification.

(** ** Notions used to state the further properties *)

(** The backslash, which escapes the rune behind it. *)
Definition backslash : rune := chr "\".

(** [readUntilFalse] as a function of the runes that are left to read:
    [scanText rest tokenBuffer] is the text, the flag and the number of
    runes consumed, and [None] the panic of a read behind the end.  The
    lemma [readUntilFalse_view] shows that it is what [readUntilFalse]
    computes. *)
Section ScanText.
Variable L : GoLibrary.
Variables includeWhitespace breakWhitespace allowEscaping : bool.
Variable condition : rune -> bool.

Definition consumed (k : nat) (r : option (gostring * bool * nat))
    : option (gostring * bool * nat) :=
  match r with
  | Some (text, conditioned, n) => Some (text, conditioned, (k + n)%nat)
  | None => None
  end.

Fixpoint scanText (rest : gostring) (tokenBuffer : gostring)
    : option (gostring * bool * nat) :=
  match rest with
  | [] => Some (tokenBuffer, false, 0%nat)
  | character :: rest' =>
      if allowEscaping && (character =? backslash) then
        match rest' with
        | [] => None
        | escaped :: rest'' =>
            consumed 2 (scanText rest'' (tokenBuffer ++ [escaped]))
        end
      else if unicode_IsSpace L character && breakWhitespace
              && (0 <? length tokenBuffer)%nat then
        Some (tokenBuffer, true, 1%nat)
      else if unicode_IsSpace L character && negb includeWhitespace then
        consumed 1 (scanText rest' tokenBuffer)
      else if condition character then
        consumed 1 (scanText rest' (tokenBuffer ++ [character]))
      else Some (tokenBuffer, true, 0%nat)
  end.

Definition scan_outcome (pre rest : gostring)
    (r : option (gostring * bool * nat))
    : outcome (gostring * bool * lexerStream) :=
  match r with
  | Some (text, conditioned, n) =>
      Done ((text, conditioned), stream_at (pre ++ take n rest) (drop n rest))
  | None => Panic
  end.
End ScanText.

(** [escape_text condition text]: [text] with a backslash put before every
    backslash and before every rune that [condition] refuses. *)
Fixpoint escape_text (condition : rune -> bool) (text : gostring)
    : gostring :=
  match text with
  | [] => []
  | c :: text' =>
      if (c =? backslash) || negb (condition c)
      then backslash :: c :: escape_text condition text'
      else c :: escape_text condition text'
  end.

(** ** Outcomes over a fixed source *)

(** The stream over [src] at position [p]. *)
Definition stream_of (src : gostring) (p : Z) : lexerStream :=
  {| source := src; position := p; slength := Z.of_nat (length src) |}.

(** [post src Ep Ef o Q]: the outcome [o] of a computation over [src] is a
    result and a position that satisfy [Q]; a panic is excused by [Ep] and
    running out of fuel by [Ef]. *)
Definition post {A : Type} (src : gostring) (Ep Ef : Prop)
    (o : outcome (A * lexerStream)) (Q : A -> Z -> Prop) : Prop :=
  match o with
  | Done (a, stream') => exists p', stream' = stream_of src p' /\ Q a p'
  | Panic => Ep
  | OutOfFuel => Ef
  end.

(** The value that [readToken] gives to a token of each kind, from its raw
    text: the number parsed from the text (as a decimal, or as hexadecimal
    digits), the boolean that the word names, the text of a string or of a
    variable, the time parsed from the text, the function registered under
    the name, the segments of an accessor, the symbol itself (and [in] for
    the word [IN]), the rune of a parenthesis. *)
Definition token_value (L : GoLibrary) (T : Tables)
    (functions : gmap gostring ExpressionFunction)
    (k : TokenKind) (raw : gostring) (v : TokenValue) : Prop :=
  match k with
  | NUMERIC =>
      exists f, v = VFloat f
                /\ (strconv_ParseFloat L raw = Some f
                    \/ exists n, strconv_ParseUint_16_64 raw = Some n
                                 /\ f = float64_of_uint64 n)
  | BOOLEAN =>
      (raw = go "true" /\ v = VBool true)
      \/ (raw = go "false" /\ v = VBool false)
  | STRING => v = VString raw /\ snd (tryParseTime L raw) = false
  | TIME => exists t, v = VTime t /\ tryParseTime L raw = (t, true)
  | VARIABLE => v = VString raw
  | FUNCTION => exists f, functions !! raw = Some f /\ v = VFunction f
  | ACCESSOR => v = VStrings (strings_Split raw (chr "."))
  | SEPARATOR => raw = go "," /\ v = VString raw
  | PREFIX => raw ∈ prefixSymbols T /\ v = VString raw
  | MODIFIER => raw ∈ modifierSymbols T /\ v = VString raw
  | LOGICALOP => raw ∈ logicalSymbols T /\ v = VString raw
  | COMPARATOR =>
      (raw ∈ comparatorSymbols T /\ v = VString raw)
      \/ ((raw = go "in" \/ raw = go "IN") /\ v = VString (go "in"))
  | TERNARY => raw ∈ ternarySymbols T /\ v = VString raw
  | CLAUSE => raw = go "(" /\ v = VRune (chr "(")
  | CLAUSE_CLOSE => raw = go ")" /\ v = VRune (chr ")")
  | UNKNOWN | ARRAY => False
  end.

(** Whether the empty text is a key of one of the symbol tables. *)
Definition empty_symbol (T : Tables) : bool :=
  found_in (prefixSymbols T) [] || found_in (modifierSymbols T) []
  || found_in (logicalSymbols T) [] || found_in (comparatorSymbols T) []
  || found_in (ternarySymbols T) [].

(** What [readToken] returns, started at or before [lo] over a source of
    length [len], when it stops at [p']: a token that spans from its start
    to [p'], of a kind and a value of the tokenizer, or an error, or neither
    at the end of the input. *)
Definition token_post (L : GoLibrary) (T : Tables)
    (functions : gmap gostring ExpressionFunction)
    (len lo : Z) (exact : bool)
    (r : ExpressionToken * option error * bool) (p' : Z) : Prop :=
  let '(token, err, found) := r in
  lo <= p' <= len
  /\ (found = true ->
      err = None
      /\ lo <= Start token
      /\ (exact = true -> Start token = lo)
      /\ End_ token = p'
      /\ Start token <= End_ token
      /\ (empty_symbol T = false -> Start token < End_ token)
      /\ token_value L T functions (Kind token) (Raw token)
           (Value token))
  /\ (found = false -> err = None -> exact = false /\ p' = len).

(** What [readUntilFalse] returns over [src], started at [p], when it stops
    at [p']: it ends at the end of the input when it reports that nothing
    stopped it, before the end when a rune stopped it; the text is empty
    when nothing was consumed, and its runes satisfy the condition unless
    the source holds a backslash; a first rune that is accepted is
    consumed. *)
Definition scanned (L : GoLibrary) (src : gostring)
    (breakWhitespace : bool) (condition : rune -> bool)
    (p : Z) (r : gostring * bool) (p' : Z) : Prop :=
  p <= p' <= Z.of_nat (length src)
  /\ (r.2 = false -> p' = Z.of_nat (length src))
  /\ (r.2 = true -> breakWhitespace = false -> p' < Z.of_nat (length src))
  /\ (p' = p -> r.1 = [])
  /\ (backslash ∈ src \/ Forall (fun c => condition c = true) r.1)
  /\ (forall c, src !! Z.to_nat p = Some c ->
                unicode_IsSpace L c = false -> condition c = true ->
                p < p').

(** Every rune of [src] from [lo] up to [hi] is white space. *)
Definition blank_between (L : GoLibrary) (src : gostring) (lo hi : Z)
    : Prop :=
  forall i c, lo <= i < hi -> src !! Z.to_nat i = Some c ->
              unicode_IsSpace L c = true.

(** What [readToken] skips, started at [lo]: white space only, up to the
    token, or up to the end of the input when there is none. *)
Definition token_gap (L : GoLibrary) (src : gostring) (lo : Z)
    (r : ExpressionToken * option error * bool) : Prop :=
  let '(token, err, found) := r in
  (found = true -> blank_between L src lo (Start token))
  /\ (found = false -> err = None ->
      blank_between L src lo (Z.of_nat (length src))).

(** The tokens lie one after the other, from [lo] up to [hi], each over at
    least one rune. *)
Fixpoint spans (lo : Z) (tokens : list ExpressionToken) (hi : Z) : Prop :=
  match tokens with
  | [] => lo <= hi
  | token :: tokens' =>
      lo <= Start token /\ Start token < End_ token
      /\ spans (End_ token) tokens' hi
  end.

(** The runes of [src] from [lo] up to [hi] that lie in none of the tokens
    are white space. *)
Fixpoint gaps_blank (L : GoLibrary) (src : gostring) (lo : Z)
    (tokens : list ExpressionToken) (hi : Z) : Prop :=
  match tokens with
  | [] => blank_between L src lo hi
  | token :: tokens' =>
      blank_between L src lo (Start token)
      /\ gaps_blank L src (End_ token) tokens' hi
  end.

(** The token has a kind of the tokenizer and the value of its kind and raw
    text. *)
Definition well_formed (L : GoLibrary) (T : Tables)
    (functions : gmap gostring ExpressionFunction)
    (token : ExpressionToken) : Prop :=
  token_value L T functions (Kind token) (Raw token) (Value token).

(** A rune that [readUntilFalse] reads into its buffer whatever the flags:
    not a backslash, not white space, and accepted by the condition. *)
Definition plain (L : GoLibrary) (condition : rune -> bool) (c : rune)
    : bool :=
  negb (c =? backslash) && negb (unicode_IsSpace L c) && condition c.

(** ** The nodes that [generate] visits *)

(** Every node that [generate] visits from [ast] has the children that it
    indexes: the first two children of a LOGICALOP or COMPARATOR node, the
    first child of a PREFIX node, every child of a FUNCTION or ARRAY node,
    and no child of another node. *)
Fixpoint visited_ok (ast : Generator.ASTNode) : Prop :=
  match ast with
  | Generator.Node token children =>
      match Generator.Kind token with
      | LOGICALOP | COMPARATOR =>
          match children with
          | child0 :: child1 :: _ => visited_ok child0 /\ visited_ok child1
          | _ => False
          end
      | PREFIX =>
          match children with
          | child0 :: _ => visited_ok child0
          | _ => False
          end
      | FUNCTION | ARRAY => foldr and True (map visited_ok children)
      | _ => True
      end
  end.

(** No node of the tree is a LOGICALOP node, and no content and no printed
    value holds a line break. *)
Fixpoint no_break (fmt_v : TokenValue -> gostring) (ast : Generator.ASTNode)
    : Prop :=
  match ast with
  | Generator.Node token children =>
      Generator.Kind token <> LOGICALOP
      /\ (newline ∉ Generator.Content token)
      /\ (newline ∉ fmt_v (Generator.Value token))
      /\ foldr and True (map (no_break fmt_v) children)
  end.

(** * Properties of the tokenizer *)

Lemma newLexerStream_at (expression : gostring) :
  newLexerStream expression = stream_at [] expression.
Proof. reflexivity. Qed.

Lemma canRead_at_nil (pre : gostring) : canRead (stream_at pre []) = false.
Proof.
  unfold canRead, stream_at; simpl.
  rewrite app_nil_r. apply Z.ltb_irrefl.
Qed.

Lemma canRead_at_cons (pre : gostring) (c : rune) (rest : gostring) :
  canRead (stream_at pre (c :: rest)) = true.
Proof.
  unfold canRead, stream_at; simpl.
  apply Z.ltb_lt. rewrite length_app; simpl. lia.
Qed.

Lemma readCharacter_at (pre : gostring) (c : rune) (rest : gostring) :
  readCharacter (stream_at pre (c :: rest))
  = Done (c, stream_at (pre ++ [c]) rest).
Proof.
  unfold readCharacter, stream_at; simpl.
  destruct (Z.leb_spec 0 (Z.of_nat (length pre))) as [_|Hneg]; [|lia].
  rewrite Nat2Z.id, list_lookup_middle by reflexivity.
  rewrite <- !app_assoc; simpl.
  do 3 f_equal. rewrite length_app; simpl. lia.
Qed.

Lemma fuel_of_at (pre rest : gostring) :
  fuel_of (stream_at pre rest) = S (length rest).
Proof.
  unfold fuel_of, stream_at; simpl. f_equal.
  rewrite length_app. lia.
Qed.

(** Reading a character uses up one unit of the fuel of the stream. *)
Lemma fuel_of_read (stream stream' : lexerStream) (c : rune) :
  canRead stream = true ->
  readCharacter stream = Done (c, stream') ->
  fuel_of stream = S (fuel_of stream')
  /\ position stream' = position stream + 1.
Proof.
  unfold canRead, readCharacter, fuel_of. intros Hcan Hread.
  apply Z.ltb_lt in Hcan.
  destruct (0 <=? position stream); [|discriminate].
  destruct (source stream !! Z.to_nat (position stream)); [|discriminate].
  injection Hread as _ <-. simpl. split; [|reflexivity].
  f_equal. lia.
Qed.

Lemma bind_Done {A B} (m : M A) (k : A -> M B) (stream stream' : lexerStream)
    (a : A) :
  m stream = Done (a, stream') -> bind m k stream = k a stream'.
Proof. unfold bind. now intros ->. Qed.

Lemma found_in_true (table : gset gostring) (key : gostring) :
  key ∈ table -> found_in table key = true.
Proof. apply bool_decide_eq_true_2. Qed.

Section TokenizerFacts.

Variable L : GoLibrary.
Variable T : Tables.

Lemma readToken_loop_S (fuel : nat) (state : lexerState)
    (functions : gmap gostring ExpressionFunction) (start : Z)
    (stream : lexerStream) :
  readToken_loop L T (S fuel) state functions start stream
  = if canRead stream then
      match readCharacter stream with
      | Done (character, stream') =>
          if unicode_IsSpace L character
          then readToken_loop L T fuel state functions (position stream)
                 stream'
          else readToken_dispatch L T state functions (position stream)
                 character stream'
      | Panic => Panic
      | OutOfFuel => OutOfFuel
      end
    else emit start TokenKind_zero VNil [] stream.
Proof.
  simpl. unfold bind at 1. unfold getStream.
  destruct (canRead stream); [|reflexivity].
  unfold bind at 1.
  destruct (readCharacter stream) as [[character stream']| |];
    [destruct (unicode_IsSpace L character)| |]; reflexivity.
Qed.

Lemma readToken_loop_next (stream : lexerStream) (position_ : Z)
    (character : rune) (stream' : lexerStream) :
  next_character L stream position_ character stream' ->
  forall state functions start,
    readToken_loop L T (fuel_of stream) state functions start stream
    = readToken_dispatch L T state functions position_ character stream'.
Proof.
  induction 1 as [stream character stream' Hcan Hread Hspace
                 |stream space stream1 position_ character stream'
                    Hcan Hread Hspace Hnext IH];
    intros state functions start;
    destruct (fuel_of_read _ _ _ Hcan Hread) as [-> _];
    rewrite readToken_loop_S, Hcan, Hread, Hspace.
  - reflexivity.
  - apply IH.
Qed.

(** [readToken] on a stream whose next character is not white space. *)
Lemma readToken_next (stream : lexerStream) (position_ : Z)
    (character : rune) (stream' : lexerStream)
    (state : lexerState) (functions : gmap gostring ExpressionFunction) :
  next_character L stream position_ character stream' ->
  readToken L T state functions stream
  = readToken_dispatch L T state functions position_ character stream'.
Proof.
  intros Hnext. unfold readToken, bind, getStream.
  now apply readToken_loop_next.
Qed.

(** [readToken] on a stream that holds nothing but white space finds no
    token and reports no error. *)
Lemma readToken_loop_spaces (state : lexerState)
    (functions : gmap gostring ExpressionFunction) (rest : gostring) :
  Forall (fun c => unicode_IsSpace L c = true) rest ->
  forall pre start, exists token,
    readToken_loop L T (S (length rest)) state functions start
      (stream_at pre rest)
    = Done ((token, None, false), stream_at (pre ++ rest) []).
Proof.
  induction 1 as [|c rest Hc Hrest IH]; intros pre start;
    rewrite readToken_loop_S.
  - rewrite canRead_at_nil, app_nil_r. eexists. reflexivity.
  - rewrite canRead_at_cons, readCharacter_at, Hc.
    destruct (IH (pre ++ [c]) (position (stream_at pre (c :: rest))))
      as [token Htoken].
    exists token. simpl length. rewrite Htoken, <- app_assoc. reflexivity.
Qed.

(** The loop of [ParseTokens], one turn. *)
Lemma ParseTokens_loop_S (fuel : nat) (state : lexerState)
    (functions : gmap gostring ExpressionFunction)
    (ret_ : list ExpressionToken) (stream : lexerStream) :
  ParseTokens_loop L T (S fuel) state functions ret_ stream
  = if canRead stream then
      match readToken L T state functions stream with
      | Done ((token, err, found), stream') =>
          match err with
          | Some e => Done ((ret_, Some e), stream')
          | None =>
              if negb found then Done ((ret_, None), stream')
              else
                match getLexerStateForToken T (Kind token) with
                | (_, Some e) => Done ((ret_, Some e), stream')
                | (state', None) =>
                    ParseTokens_loop L T fuel state' functions
                      (ret_ ++ [token]) stream'
                end
          end
      | Panic => Panic
      | OutOfFuel => OutOfFuel
      end
    else Done ((ret_, None), stream).
Proof.
  simpl. unfold bind at 1. unfold getStream.
  destruct (canRead stream); [|reflexivity].
  unfold bind at 1.
  destruct (readToken L T state functions stream)
    as [[[[token err] found] stream']| |]; try reflexivity.
  destruct err; [reflexivity|].
  destruct found; [|reflexivity]. simpl.
  destruct (getLexerStateForToken T (Kind token)) as [state' [e|]];
    reflexivity.
Qed.

Lemma ParseTokens_loop_token (fuel : nat) (state state' : lexerState)
    (functions : gmap gostring ExpressionFunction)
    (ret_ : list ExpressionToken) (stream stream' : lexerStream)
    (token : ExpressionToken) :
  canRead stream = true ->
  readToken L T state functions stream
  = Done ((token, None, true), stream') ->
  getLexerStateForToken T (Kind token) = (state', None) ->
  ParseTokens_loop L T (S fuel) state functions ret_ stream
  = ParseTokens_loop L T fuel state' functions (ret_ ++ [token]) stream'.
Proof.
  intros Hcan Hread Hstate.
  now rewrite ParseTokens_loop_S, Hcan, Hread, Hstate.
Qed.

Lemma ParseTokens_loop_error (fuel : nat) (state : lexerState)
    (functions : gmap gostring ExpressionFunction)
    (ret_ : list ExpressionToken) (stream stream' : lexerStream)
    (token : ExpressionToken) (e : error) (found : bool) :
  canRead stream = true ->
  readToken L T state functions stream
  = Done ((token, Some e, found), stream') ->
  ParseTokens_loop L T (S fuel) state functions ret_ stream
  = Done ((ret_, Some e), stream').
Proof.
  intros Hcan Hread. now rewrite ParseTokens_loop_S, Hcan, Hread.
Qed.

Lemma ParseTokens_loop_end (fuel : nat) (state : lexerState)
    (functions : gmap gostring ExpressionFunction)
    (ret_ : list ExpressionToken) (stream : lexerStream) :
  canRead stream = false ->
  ParseTokens_loop L T (S fuel) state functions ret_ stream
  = Done ((ret_, None), stream).
Proof. intros Hcan. now rewrite ParseTokens_loop_S, Hcan. Qed.

Lemma readToken_dispatch_symbol (state : lexerState)
    (functions : gmap gostring ExpressionFunction) (position_ : Z)
    (character : rune) (stream : lexerStream) :
  symbol_lead L character = true ->
  readToken_dispatch L T state functions position_ character stream
  = readSymbol L T state position_ stream.
Proof.
  unfold symbol_lead, readToken_dispatch. intros Hlead.
  repeat (apply andb_prop in Hlead as [Hlead ?]).
  repeat match goal with
         | H : negb ?b = true |- _ => apply negb_true_iff in H; rewrite H
         end.
  now replace (isNotQuote character) with true.
Qed.

Lemma readSymbol_run (state : lexerState) (position_ : Z)
    (stream stream' : lexerStream) (run : gostring) :
  readTokenUntilFalse L (isNotAlphanumeric L) stream = Done (run, stream') ->
  readSymbol L T state position_ stream
  = symbol_result T state position_ run stream'.
Proof.
  intros Hrun. unfold readSymbol, symbolToken, symbol_result, classify.
  rewrite (bind_Done _ _ _ _ _ Hrun).
  repeat match goal with
         | |- context [if ?b then _ else _] => destruct b
         end; reflexivity.
Qed.

Lemma readToken_symbol (state : lexerState)
    (functions : gmap gostring ExpressionFunction)
    (stream stream1 stream2 : lexerStream) (position_ : Z)
    (character : rune) (run : gostring) :
  next_character L stream position_ character stream1 ->
  symbol_lead L character = true ->
  readTokenUntilFalse L (isNotAlphanumeric L) stream1 = Done (run, stream2) ->
  readToken L T state functions stream
  = symbol_result T state position_ run stream2.
Proof.
  intros Hnext Hlead Hrun.
  rewrite (readToken_next _ _ _ _ state functions Hnext).
  rewrite readToken_dispatch_symbol by assumption.
  now apply readSymbol_run.
Qed.

End TokenizerFacts.

Section Branches.

Variable L : GoLibrary.
Variable T : Tables.

Lemma readToken_dispatch_word (state : lexerState)
    (functions : gmap gostring ExpressionFunction) (position_ : Z)
    (character : rune) (stream : lexerStream) :
  word_lead L character = true ->
  readToken_dispatch L T state functions position_ character stream
  = readWord L functions position_ stream.
Proof.
  unfold word_lead, readToken_dispatch. intros Hlead.
  repeat (apply andb_prop in Hlead as [Hlead ?]).
  repeat match goal with
         | H : negb ?b = true |- _ => apply negb_true_iff in H; rewrite H
         end.
  now replace (unicode_IsLetter L character) with true.
Qed.

(** [readToken] on a word: the token of the run that was read. *)
Lemma readToken_word (state : lexerState)
    (functions : gmap gostring ExpressionFunction)
    (stream stream1 stream2 : lexerStream) (position_ : Z)
    (character : rune) (run : gostring) :
  next_character L stream position_ character stream1 ->
  word_lead L character = true ->
  readTokenUntilFalse L (isVariableName L) stream1 = Done (run, stream2) ->
  readToken L T state functions stream
  = wordToken L functions position_ run stream2.
Proof.
  intros Hnext Hlead Hrun.
  rewrite (readToken_next _ _ _ _ _ _ state functions Hnext).
  rewrite readToken_dispatch_word by assumption.
  unfold readWord. now rewrite (bind_Done _ _ _ _ _ Hrun).
Qed.

Lemma strings_Index_bounds (s : gostring) (sep : rune) :
  -1 <= strings_Index s sep.
Proof.
  induction s as [|c s IH]; simpl; [lia|].
  destruct (c =? sep); [lia|].
  destruct (strings_Index s sep <? 0); lia.
Qed.

Lemma strings_Index_notin (s : gostring) (sep : rune) :
  sep ∉ s -> strings_Index s sep = -1.
Proof.
  induction s as [|c s IH]; simpl; intros Hnotin; [reflexivity|].
  apply not_elem_of_cons in Hnotin as [Hne Hnotin].
  destruct (Z.eqb_spec c sep) as [->|_]; [contradiction|].
  now rewrite (IH Hnotin).
Qed.

(** A word without a period keeps the classification made before the
    accessor test; a registered word is a [FUNCTION]. *)
Lemma wordToken_function (functions : gmap gostring ExpressionFunction)
    (position_ : Z) (run : gostring) (function : ExpressionFunction)
    (stream : lexerStream) :
  functions !! run = Some function ->
  chr "." ∉ run ->
  wordToken L functions position_ run stream
  = Done (({| Kind := FUNCTION; Value := VFunction function; Raw := run;
              Start := position_; End_ := position stream |},
           None, true), stream).
Proof.
  intros Hfound Hperiod. unfold wordToken.
  rewrite Hfound, (strings_Index_notin _ _ Hperiod).
  destruct (value_is (VString run) (go "true"));
    [|destruct (value_is (VString run) (go "false"))]; simpl;
    try destruct (string_eqb run (go "in") || string_eqb run (go "IN"));
    reflexivity.
Qed.

(** On a word with a period behind its head the function mapping is not
    consulted for the result. *)
Lemma wordToken_accessor_any (functions functions' : gmap gostring
                                                     ExpressionFunction)
    (position_ : Z) (run : gostring) (stream : lexerStream) :
  0 < strings_Index run (chr ".") ->
  wordToken L functions position_ run stream
  = wordToken L functions' position_ run stream.
Proof.
  intros Hindex. apply Z.ltb_lt in Hindex. unfold wordToken.
  destruct (value_is (VString run) (go "true"));
    [|destruct (value_is (VString run) (go "false"))]; simpl;
    try destruct (string_eqb run (go "in") || string_eqb run (go "IN"));
    destruct (functions !! run); destruct (functions' !! run);
    rewrite Hindex; reflexivity.
Qed.

(** What [wordToken] does with a word that has a period behind its head. *)
Lemma wordToken_accessor (functions : gmap gostring ExpressionFunction)
    (position_ : Z) (run : gostring) (lastCharacter : rune)
    (stream : lexerStream) :
  0 < strings_Index run (chr ".") ->
  last run = Some lastCharacter ->
  wordToken L functions position_ run stream
  = if lastCharacter =? chr "." then
      fail_at position_
        (go "Hanging accessor on token '" ++ run ++ go "'") stream
    else
      match firstUnexported L (tail (strings_Split run (chr "."))) with
      | Some segment =>
          fail_at position_
            (go "Unable to access unexported field '" ++ segment
             ++ go "' in token '" ++ run ++ go "'") stream
      | None =>
          emit position_ ACCESSOR (VStrings (strings_Split run (chr ".")))
            run stream
      end.
Proof.
  intros Hindex Hlast. apply Z.ltb_lt in Hindex. unfold wordToken.
  destruct (value_is (VString run) (go "true"));
    [|destruct (value_is (VString run) (go "false"))]; simpl;
    try destruct (string_eqb run (go "in") || string_eqb run (go "IN"));
    destruct (functions !! run); rewrite Hindex, Hlast;
    destruct (lastCharacter =? chr "."); try reflexivity;
    destruct (firstUnexported L (tail (strings_Split run (chr "."))));
    reflexivity.
Qed.

Lemma readToken_dispatch_numeric (state : lexerState)
    (functions : gmap gostring ExpressionFunction) (position_ : Z)
    (character : rune) (stream : lexerStream) :
  isNumeric L character = true ->
  readToken_dispatch L T state functions position_ character stream
  = readNumeric L position_ character stream.
Proof. unfold readToken_dispatch. now intros ->. Qed.

(** The hexadecimal branch: [0], then [x], then more input. *)
Lemma readNumeric_hex (position_ : Z)
    (stream1 stream2 : lexerStream) :
  canRead stream1 = true ->
  readCharacter stream1 = Done (chr "x", stream2) ->
  canRead stream2 = true ->
  readNumeric L position_ (chr "0") stream1 = readHex L position_ stream2.
Proof.
  intros Hcan1 Hread Hcan2. unfold readNumeric.
  unfold bind at 1. unfold getStream at 1. rewrite Hcan1.
  change (chr "0" =? chr "0") with true. cbv beta iota delta [andb].
  unfold bind at 1. rewrite Hread.
  unfold bind at 1. unfold getStream at 1. rewrite Hcan2.
  reflexivity.
Qed.

(** Undoing the last read. *)
Lemma rewind_read (stream stream' : lexerStream) (c : rune) :
  readCharacter stream = Done (c, stream') ->
  rewind 1 stream' = Done (tt, stream).
Proof.
  unfold readCharacter, rewind. intros Hread.
  destruct (0 <=? position stream); [|discriminate].
  destruct (source stream !! Z.to_nat (position stream)); [|discriminate].
  injection Hread as _ <-. destruct stream as [text at_ len]; simpl.
  do 3 f_equal. lia.
Qed.

(** [0], then [x], then the end of the input: the [x] is put back and the
    decimal branch reads the [0]. *)
Lemma readNumeric_hex_end (position_ : Z)
    (stream1 stream2 : lexerStream) :
  canRead stream1 = true ->
  readCharacter stream1 = Done (chr "x", stream2) ->
  canRead stream2 = false ->
  readNumeric L position_ (chr "0") stream1
  = readDecimal L position_ stream1.
Proof.
  intros Hcan1 Hread Hcan2. unfold readNumeric.
  unfold bind at 1. unfold getStream at 1. rewrite Hcan1.
  change (chr "0" =? chr "0") with true. cbv beta iota delta [andb].
  unfold bind at 1. rewrite Hread.
  unfold bind at 1. unfold getStream at 1. rewrite Hcan2.
  cbv beta iota delta [andb].
  unfold bind at 1. now rewrite (rewind_read _ _ _ Hread).
Qed.

(** Any other head of a numeric constant than [0] goes to the decimal
    branch. *)
Lemma readNumeric_decimal (position_ : Z) (character : rune)
    (stream1 : lexerStream) :
  character <> chr "0" ->
  readNumeric L position_ character stream1 = readDecimal L position_ stream1.
Proof.
  intros Hzero. unfold readNumeric.
  unfold bind at 1. unfold getStream at 1.
  destruct (Z.eqb_spec character (chr "0")) as [?|_]; [contradiction|].
  now rewrite andb_false_r.
Qed.

End Branches.

(** ** The fuel of the loops is enough *)

Lemma readCharacter_position (stream stream' : lexerStream) (c : rune) :
  readCharacter stream = Done (c, stream') ->
  position stream' = position stream + 1
  /\ slength stream' = slength stream.
Proof.
  unfold readCharacter. intros Hread.
  destruct (0 <=? position stream); [|discriminate].
  destruct (source stream !! Z.to_nat (position stream)); [|discriminate].
  injection Hread as _ <-. now split.
Qed.

Lemma bind_fuelled {A B} (m : M A) (k : A -> M B) (stream : lexerStream) :
  m stream <> OutOfFuel ->
  (forall a stream', k a stream' <> OutOfFuel) ->
  bind m k stream <> OutOfFuel.
Proof.
  intros Hm Hk. unfold bind.
  destruct (m stream) as [[a stream']| |];
    [apply Hk|discriminate|now contradiction Hm].
Qed.

Lemma readCharacter_fuelled (stream : lexerStream) :
  readCharacter stream <> OutOfFuel.
Proof.
  unfold readCharacter.
  destruct (0 <=? position stream); [|discriminate].
  destruct (source stream !! Z.to_nat (position stream)); discriminate.
Qed.

Section Fuel.

Variable L : GoLibrary.
Variable T : Tables.

Lemma readUntilFalse_loop_fuelled
    (includeWhitespace breakWhitespace allowEscaping : bool)
    (condition : rune -> bool) (fuel : nat) :
  forall tokenBuffer stream,
    (Z.to_nat (slength stream - position stream) < fuel)%nat ->
    readUntilFalse_loop L fuel includeWhitespace breakWhitespace
      allowEscaping condition tokenBuffer stream <> OutOfFuel.
Proof.
  induction fuel as [|fuel IH]; intros tokenBuffer stream Hfuel; [lia|].
  cbn [readUntilFalse_loop]. unfold bind at 1. unfold getStream at 1.
  destruct (canRead stream) eqn:Hcan; [|discriminate].
  apply Z.ltb_lt in Hcan.
  unfold bind at 1.
  destruct (readCharacter stream) as [[character stream1]| |] eqn:Hread;
    [|discriminate|now apply readCharacter_fuelled in Hread].
  apply readCharacter_position in Hread as [Hposition Hlength].
  destruct (allowEscaping && (character =? chr "\")).
  { unfold bind at 1.
    destruct (readCharacter stream1) as [[escaped stream2]| |] eqn:Hread2;
      [|discriminate|now apply readCharacter_fuelled in Hread2].
    apply readCharacter_position in Hread2 as [Hposition2 Hlength2].
    apply IH. lia. }
  destruct (unicode_IsSpace L character && breakWhitespace
            && (0 <? length tokenBuffer)%nat); [discriminate|].
  destruct (unicode_IsSpace L character && negb includeWhitespace);
    [apply IH; lia|].
  destruct (condition character); [apply IH; lia|discriminate].
Qed.

Lemma readUntilFalse_fuelled
    (includeWhitespace breakWhitespace allowEscaping : bool)
    (condition : rune -> bool) (stream : lexerStream) :
  readUntilFalse L includeWhitespace breakWhitespace allowEscaping condition
    stream <> OutOfFuel.
Proof.
  unfold readUntilFalse, bind, getStream.
  apply readUntilFalse_loop_fuelled. unfold fuel_of. lia.
Qed.

Lemma readTokenUntilFalse_fuelled (condition : rune -> bool)
    (stream : lexerStream) :
  readTokenUntilFalse L condition stream <> OutOfFuel.
Proof.
  unfold readTokenUntilFalse.
  apply bind_fuelled; [discriminate|]. intros _ stream1.
  apply bind_fuelled; [apply readUntilFalse_fuelled|].
  intros [text conditioned] stream2. discriminate.
Qed.

Ltac fuelled :=
  repeat first
    [ discriminate
    | apply readTokenUntilFalse_fuelled
    | apply readUntilFalse_fuelled
    | apply readCharacter_fuelled
    | apply bind_fuelled; [|intros]
    | match goal with
      | |- (if ?b then _ else _) _ <> _ => destruct b
      | |- (match ?x with _ => _ end) _ <> _ => destruct x
      | |- (let '(_, _) := ?x in _) _ <> _ => destruct x
      end ].

Lemma readToken_dispatch_fuelled (state : lexerState)
    (functions : gmap gostring ExpressionFunction) (position_ : Z)
    (character : rune) (stream : lexerStream) :
  readToken_dispatch L T state functions position_ character stream
  <> OutOfFuel.
Proof.
  unfold readToken_dispatch, readNumeric, readDecimal, readHex, readBracket,
    readWord, wordToken, readQuoted, readSymbol, symbolToken, emit, fail_at,
    getStream, ret.
  fuelled.
Qed.

Lemma readToken_loop_fuelled (state : lexerState)
    (functions : gmap gostring ExpressionFunction) (fuel : nat) :
  forall start stream,
    (Z.to_nat (slength stream - position stream) < fuel)%nat ->
    readToken_loop L T fuel state functions start stream <> OutOfFuel.
Proof.
  induction fuel as [|fuel IH]; intros start stream Hfuel; [lia|].
  rewrite readToken_loop_S.
  destruct (canRead stream) eqn:Hcan; [|discriminate].
  apply Z.ltb_lt in Hcan.
  destruct (readCharacter stream) as [[character stream1]| |] eqn:Hread;
    [|discriminate|now apply readCharacter_fuelled in Hread].
  apply readCharacter_position in Hread as [Hposition Hlength].
  destruct (unicode_IsSpace L character).
  - apply IH. lia.
  - apply readToken_dispatch_fuelled.
Qed.

(** [readToken] returns or panics: its loops never run out of fuel. *)
Lemma readToken_fuelled (state : lexerState)
    (functions : gmap gostring ExpressionFunction) (stream : lexerStream) :
  readToken L T state functions stream <> OutOfFuel.
Proof.
  unfold readToken, bind, getStream.
  apply readToken_loop_fuelled. unfold fuel_of. lia.
Qed.

End Fuel.

(** ** Stepping the loop of [ParseTokens] on a concrete expression *)

(** Rewrites the [go] literals of a hypothesis into lists of code points, as
    evaluation produces them. *)
Ltac go_literals H :=
  repeat match type of H with
         | context [go ?s] =>
             let r := eval vm_compute in (go s) in
             change (go s) with r in H
         end.

(** The state function is known to succeed on a kind: name its state. *)
Ltac name_state H s Hs :=
  match type of H with
  | snd (getLexerStateForToken ?T ?k) = None =>
      let e := fresh "e" in
      destruct (getLexerStateForToken T k) as [s e] eqn:Hs;
      simpl in H; subst e
  end.

(** One token that no symbol table decides, then the next state. *)
Ltac plain_token Hs :=
  erewrite ParseTokens_loop_token;
  [ | reflexivity | vm_compute; reflexivity | exact Hs ].

(** One symbol, classified by [tac], then the next state. *)
Ltac symbol_token tac Hs :=
  erewrite ParseTokens_loop_token;
  [ | reflexivity
    | erewrite readToken_symbol;
      [ | apply next_here; vm_compute; reflexivity
        | vm_compute; reflexivity | vm_compute; reflexivity ];
      unfold symbol_result, classify; tac; reflexivity
    | exact Hs ].

(** * The tokenizer against the specification *)

Lemma wrap_int_small (z : Z) : - 2 ^ 63 <= z < 2 ^ 63 -> wrap_int z = z.
Proof.
  intros Hz. unfold wrap_int. rewrite Z.mod_small; lia.
Qed.

Lemma checkBalance_loop_balance (tokens : list ExpressionToken) :
  forall parens,
    Z.abs parens + Z.of_nat (length tokens) < 2 ^ 63 ->
    checkBalance_loop tokens parens = parens + balance tokens.
Proof.
  induction tokens as [|token tokens IH]; intros parens Hsmall; simpl.
  - lia.
  - simpl length in Hsmall.
    destruct (bool_decide (Kind token = CLAUSE));
      [|destruct (bool_decide (Kind token = CLAUSE_CLOSE))];
      try (rewrite wrap_int_small by lia); rewrite IH by lia; lia.
Qed.

(** C7: [ParseTokens] on the empty expression, and on any expression made of
    white space only, returns the empty token sequence and no error. *)
Theorem ParseTokens_blank (L : GoLibrary) (T : Tables)
    (functions : gmap gostring ExpressionFunction) (expression : gostring) :
  Forall (fun c => unicode_IsSpace L c = true) expression ->
  ParseTokens L T [] functions = Done ([], None)
  /\ ParseTokens L T expression functions = Done ([], None).
Proof.
  intros Hblank. split; [reflexivity|].
  unfold ParseTokens, scan.
  rewrite newLexerStream_at, fuel_of_at.
  destruct expression as [|c rest].
  - reflexivity.
  - rewrite ParseTokens_loop_S, canRead_at_cons.
    unfold readToken, bind, getStream. rewrite fuel_of_at.
    destruct (readToken_loop_spaces L T (validLexerStates_0 T) functions
                (c :: rest) Hblank [] 0) as [token ->].
    reflexivity.
Qed.

(** C4: when the scan of [ParseTokens] ends without an error, the call
    fails with the unbalanced-parenthesis error if the balance of the tokens
    read (CLAUSE +1, CLAUSE_CLOSE -1) is not zero and returns the tokens if
    it is zero; the expression [(1 + 2] fails with that error. *)
Theorem ParseTokens_balance (L : GoLibrary) (T : Tables)
    (functions : gmap gostring ExpressionFunction) :
  (forall expression ret_ stream',
      scan L T expression functions = Done ((ret_, None), stream') ->
      Z.of_nat (length ret_) < 2 ^ 63 ->
      (balance ret_ <> 0 ->
       ParseTokens L T expression functions
       = Done ([], Some (go "Unbalanced parenthesis")))
      /\ (balance ret_ = 0 ->
          ParseTokens L T expression functions = Done (ret_, None)))
  /\ (go "+" ∈ modifierSymbols T ->
      snd (getLexerStateForToken T CLAUSE) = None ->
      snd (getLexerStateForToken T NUMERIC) = None ->
      snd (getLexerStateForToken T MODIFIER) = None ->
      canTransitionTo (fst (getLexerStateForToken T NUMERIC)) PREFIX
      = false ->
      ParseTokens L T (go "(1 + 2") functions
      = Done ([], Some (go "Unbalanced parenthesis"))).
Proof.
  split.
  - intros expression ret_ stream' Hscan Hlength.
    unfold ParseTokens, checkBalance. rewrite Hscan.
    rewrite checkBalance_loop_balance by exact Hlength.
    change (0 + balance ret_) with (balance ret_).
    split; intros Hbalance.
    + now destruct (Z.eqb_spec (balance ret_) 0).
    + now rewrite Hbalance.
  - intros Hplus HC HN HM Hprefix.
    apply found_in_true in Hplus. go_literals Hplus.
    name_state HC sC HsC. name_state HM sM HsM.
    destruct (getLexerStateForToken T NUMERIC) as [sN eN] eqn:HsN.
    simpl in HN, Hprefix. subst eN.
    unfold ParseTokens, scan.
    change (fuel_of (newLexerStream (go "(1 + 2"))) with 7%nat.
    plain_token HsC. plain_token HsN.
    symbol_token ltac:(rewrite Hprefix, Hplus) HsM.
    plain_token HsN.
    rewrite ParseTokens_loop_end by reflexivity.
    reflexivity.
Qed.

(** C1: a symbol run read by [readToken] is classified by the priority of
    the spec: PREFIX when the state may transition to PREFIX and the run is
    a prefix symbol, else the modifier, logical, comparator and ternary
    tables in that order, else the invalid-token error.  With [-] a prefix
    and a modifier symbol, a prefix allowed at the start and not after a
    number, [-1] starts with a PREFIX token and the [-] of [1 - 1] is a
    MODIFIER. *)
Theorem readToken_symbol_priority (L : GoLibrary) (T : Tables)
    (functions : gmap gostring ExpressionFunction) :
  (forall state stream position_ character stream1 run stream2,
      next_character L stream position_ character stream1 ->
      symbol_lead L character = true ->
      readTokenUntilFalse L (isNotAlphanumeric L) stream1
      = Done (run, stream2) ->
      readToken L T state functions stream
      = symbol_result T state position_ run stream2)
  /\ (go "-" ∈ prefixSymbols T ->
      canTransitionTo (validLexerStates_0 T) PREFIX = true ->
      snd (getLexerStateForToken T PREFIX) = None ->
      snd (getLexerStateForToken T NUMERIC) = None ->
      ParseTokens L T (go "-1") functions
      = Done ([ {| Kind := PREFIX; Value := VString (go "-");
                   Raw := go "-"; Start := 0; End_ := 1 |};
                {| Kind := NUMERIC;
                   Value := VFloat (S754_finite false (2 ^ 52) (-52));
                   Raw := go "1"; Start := 1; End_ := 2 |} ], None))
  /\ (go "-" ∈ modifierSymbols T ->
      snd (getLexerStateForToken T NUMERIC) = None ->
      snd (getLexerStateForToken T MODIFIER) = None ->
      canTransitionTo (fst (getLexerStateForToken T NUMERIC)) PREFIX
      = false ->
      ParseTokens L T (go "1 - 1") functions
      = Done ([ {| Kind := NUMERIC;
                   Value := VFloat (S754_finite false (2 ^ 52) (-52));
                   Raw := go "1"; Start := 0; End_ := 2 |};
                {| Kind := MODIFIER; Value := VString (go "-");
                   Raw := go "-"; Start := 2; End_ := 4 |};
                {| Kind := NUMERIC;
                   Value := VFloat (S754_finite false (2 ^ 52) (-52));
                   Raw := go "1"; Start := 4; End_ := 5 |} ], None)).
Proof.
  split; [|split].
  - intros state stream position_ character stream1 run stream2.
    apply readToken_symbol.
  - intros Hminus Hstart HP HN.
    apply found_in_true in Hminus. go_literals Hminus.
    name_state HP sP HsP. name_state HN sN HsN.
    unfold ParseTokens, scan.
    change (fuel_of (newLexerStream (go "-1"))) with 3%nat.
    symbol_token ltac:(rewrite Hstart, Hminus) HsP.
    plain_token HsN.
    rewrite ParseTokens_loop_end by reflexivity.
    reflexivity.
  - intros Hminus HN HM Hprefix.
    apply found_in_true in Hminus. go_literals Hminus.
    name_state HM sM HsM.
    destruct (getLexerStateForToken T NUMERIC) as [sN eN] eqn:HsN.
    simpl in HN, Hprefix. subst eN.
    unfold ParseTokens, scan.
    change (fuel_of (newLexerStream (go "1 - 1"))) with 6%nat.
    plain_token HsN.
    symbol_token ltac:(rewrite Hprefix, Hminus) HsM.
    plain_token HsN.
    rewrite ParseTokens_loop_end by reflexivity.
    reflexivity.
Qed.

(** C2, as amended: a word that is exactly [in] or [IN] and is not a key of
    the function mapping is a COMPARATOR token whose value is [in]; the
    spellings [In] and [iN] are not recognised, and unless they are keys of
    the function mapping they are VARIABLE tokens. *)
Theorem readToken_in (L : GoLibrary) (T : Tables)
    (functions : gmap gostring ExpressionFunction) :
  (forall state stream position_ character stream1 run stream2,
      next_character L stream position_ character stream1 ->
      word_lead L character = true ->
      readTokenUntilFalse L (isVariableName L) stream1
      = Done (run, stream2) ->
      run = go "in" \/ run = go "IN" ->
      functions !! run = None ->
      readToken L T state functions stream
      = Done (({| Kind := COMPARATOR; Value := VString (go "in");
                  Raw := run; Start := position_;
                  End_ := position stream2 |}, None, true), stream2))
  /\ (forall state stream position_ character stream1 run stream2,
         next_character L stream position_ character stream1 ->
         word_lead L character = true ->
         readTokenUntilFalse L (isVariableName L) stream1
         = Done (run, stream2) ->
         run = go "In" \/ run = go "iN" ->
         functions !! run = None ->
         readToken L T state functions stream
         = Done (({| Kind := VARIABLE; Value := VString run;
                     Raw := run; Start := position_;
                     End_ := position stream2 |}, None, true), stream2)).
Proof.
  split; intros state stream position_ character stream1 run stream2
           Hnext Hlead Hrun Hspelling Hfree;
    rewrite (readToken_word L T state functions _ _ _ _ _ _
               Hnext Hlead Hrun);
    unfold wordToken;
    destruct Hspelling as [-> | ->]; rewrite Hfree; reflexivity.
Qed.

(** C3, as amended: a word that is a key of the function mapping and holds
    no period is a FUNCTION token whose value is the descriptor; on a word
    with a period the accessor treatment comes after the function lookup and
    replaces its result, so the token is the one read with an empty function
    mapping. *)
Theorem readToken_function (L : GoLibrary) (T : Tables)
    (functions : gmap gostring ExpressionFunction) :
  (forall state stream position_ character stream1 run stream2 function,
      next_character L stream position_ character stream1 ->
      word_lead L character = true ->
      readTokenUntilFalse L (isVariableName L) stream1
      = Done (run, stream2) ->
      functions !! run = Some function ->
      chr "." ∉ run ->
      readToken L T state functions stream
      = Done (({| Kind := FUNCTION; Value := VFunction function;
                  Raw := run; Start := position_;
                  End_ := position stream2 |}, None, true), stream2))
  /\ (forall state stream position_ character stream1 run stream2,
         next_character L stream position_ character stream1 ->
         word_lead L character = true ->
         readTokenUntilFalse L (isVariableName L) stream1
         = Done (run, stream2) ->
         0 < strings_Index run (chr ".") ->
         readToken L T state functions stream
         = readToken L T state ∅ stream).
Proof.
  split.
  - intros state stream position_ character stream1 run stream2 function
      Hnext Hlead Hrun Hfound Hperiod.
    rewrite (readToken_word L T state functions _ _ _ _ _ _
               Hnext Hlead Hrun).
    now apply wordToken_function.
  - intros state stream position_ character stream1 run stream2
      Hnext Hlead Hrun Hindex.
    rewrite (readToken_word L T state functions _ _ _ _ _ _
               Hnext Hlead Hrun).
    rewrite (readToken_word L T state ∅ _ _ _ _ _ _ Hnext Hlead Hrun).
    now apply wordToken_accessor_any.
Qed.

(** What the accessor treatment does: a word with a period behind its head
    fails when it ends in a period or when a segment after the first starts
    with a rune that [unicode.ToUpper] changes, and is an ACCESSOR token of
    its segments otherwise. *)
Lemma readToken_accessor (L : GoLibrary) (T : Tables)
    (functions : gmap gostring ExpressionFunction)
    (state : lexerState) (stream stream1 stream2 : lexerStream)
    (position_ : Z) (character lastCharacter : rune) (run : gostring) :
  next_character L stream position_ character stream1 ->
  word_lead L character = true ->
  readTokenUntilFalse L (isVariableName L) stream1 = Done (run, stream2) ->
  0 < strings_Index run (chr ".") ->
  last run = Some lastCharacter ->
  readToken L T state functions stream
  = if lastCharacter =? chr "." then
      fail_at position_
        (go "Hanging accessor on token '" ++ run ++ go "'") stream2
    else
      match firstUnexported L (tail (strings_Split run (chr "."))) with
      | Some segment =>
          fail_at position_
            (go "Unable to access unexported field '" ++ segment
             ++ go "' in token '" ++ run ++ go "'") stream2
      | None =>
          emit position_ ACCESSOR (VStrings (strings_Split run (chr ".")))
            run stream2
      end.
Proof.
  intros Hnext Hlead Hrun Hindex Hlast.
  rewrite (readToken_word L T state functions _ _ _ _ _ _
             Hnext Hlead Hrun).
  now apply wordToken_accessor.
Qed.

(** C5: on the word [foo._bar], whose second segment starts with an
    underscore and not with an upper-case letter, the tokenizer reports no
    error and emits an ACCESSOR token. *)
Theorem ParseTokens_underscore_segment :
  ParseTokens ascii_library example_tables (go "foo._bar") ∅
  = Done ([ {| Kind := ACCESSOR;
               Value := VStrings [go "foo"; go "_bar"];
               Raw := go "foo._bar"; Start := 0; End_ := 8 |} ], None).
Proof. vm_compute. reflexivity. Qed.

(** C6, as amended: after [0] and [x] with more input behind the [x],
    [readToken] scans with [isHexDigit], parses the text as an unsigned
    64-bit integer in base 16 and emits a NUMERIC token holding that integer
    as a [float64], or fails with the error that names the text; when the
    input ends behind the [x], the [x] is put back and the [0] is read as a
    decimal; [0xFF] is one NUMERIC token of value 255 (the significand
    [255 * 2^45] at exponent [-45]). *)
Theorem readToken_hex (L : GoLibrary) (T : Tables)
    (functions : gmap gostring ExpressionFunction) :
  (forall state stream position_ stream1 stream2 stream3 tokenString
          conditioned,
      next_character L stream position_ (chr "0") stream1 ->
      canRead stream1 = true ->
      readCharacter stream1 = Done (chr "x", stream2) ->
      canRead stream2 = true ->
      readUntilFalse L false true true (isHexDigit L) stream2
      = Done ((tokenString, conditioned), stream3) ->
      readToken L T state functions stream
      = match strconv_ParseUint_16_64 tokenString with
        | Some n =>
            Done (({| Kind := NUMERIC;
                      Value := VFloat (float64_of_uint64 n);
                      Raw := tokenString; Start := position_;
                      End_ := position stream3 |}, None, true), stream3)
        | None =>
            Done (({| Kind := TokenKind_zero; Value := VNil; Raw := [];
                      Start := position_; End_ := position stream3 |},
                   Some (go "Unable to parse hex value '" ++ tokenString
                         ++ go "' to uint64" ++ [newline]), false),
                  stream3)
        end)
  /\ (forall state stream position_ stream1 stream2,
         next_character L stream position_ (chr "0") stream1 ->
         canRead stream1 = true ->
         readCharacter stream1 = Done (chr "x", stream2) ->
         canRead stream2 = false ->
         readToken L T state functions stream
         = readDecimal L position_ stream1)
  /\ (snd (getLexerStateForToken T NUMERIC) = None ->
      ParseTokens L T (go "0xFF") functions
      = Done ([ {| Kind := NUMERIC;
                   Value := VFloat (S754_finite false (255 * 2 ^ 45) (-45));
                   Raw := go "FF"; Start := 0; End_ := 4 |} ], None)).
Proof.
  split; [|split].
  - intros state stream position_ stream1 stream2 stream3 tokenString
      conditioned Hnext Hcan1 Hread Hcan2 Hscan.
    rewrite (readToken_next L T _ _ _ _ state functions Hnext).
    rewrite readToken_dispatch_numeric by reflexivity.
    rewrite (readNumeric_hex L _ _ _ Hcan1 Hread Hcan2).
    unfold readHex. rewrite (bind_Done _ _ _ _ _ Hscan).
    destruct (strconv_ParseUint_16_64 tokenString); reflexivity.
  - intros state stream position_ stream1 stream2 Hnext Hcan1 Hread Hcan2.
    rewrite (readToken_next L T _ _ _ _ state functions Hnext).
    rewrite readToken_dispatch_numeric by reflexivity.
    now apply (readNumeric_hex_end L _ _ stream2).
  - intros HN. name_state HN sN HsN.
    unfold ParseTokens, scan.
    change (fuel_of (newLexerStream (go "0xFF"))) with 5%nat.
    plain_token HsN.
    rewrite ParseTokens_loop_end by reflexivity.
    reflexivity.
Qed.

(** C10: a period at the head of a token takes the numeric branch of
    [readToken], which parses it as a decimal; [.5] is one NUMERIC token of
    value 0.5 (the significand [2^52] at exponent [-53]), and [.] fails with
    the error of a numeric value that does not parse. *)
Theorem readToken_leading_period (L : GoLibrary) (T : Tables)
    (functions : gmap gostring ExpressionFunction) :
  (forall state stream position_ stream1,
      next_character L stream position_ (chr ".") stream1 ->
      readToken L T state functions stream
      = readDecimal L position_ stream1)
  /\ (snd (getLexerStateForToken T NUMERIC) = None ->
      ParseTokens L T (go ".5") functions
      = Done ([ {| Kind := NUMERIC;
                   Value := VFloat (S754_finite false (2 ^ 52) (-53));
                   Raw := go ".5"; Start := 0; End_ := 2 |} ], None))
  /\ ParseTokens L T (go ".") functions
     = Done ([], Some (go "Unable to parse numeric value '.' to float64"
                       ++ [newline])).
Proof.
  split; [|split].
  - intros state stream position_ stream1 Hnext.
    rewrite (readToken_next L T _ _ _ _ state functions Hnext).
    rewrite readToken_dispatch_numeric by reflexivity.
    now apply readNumeric_decimal.
  - intros HN. name_state HN sN HsN.
    unfold ParseTokens, scan.
    change (fuel_of (newLexerStream (go ".5"))) with 3%nat.
    plain_token HsN.
    rewrite ParseTokens_loop_end by reflexivity.
    reflexivity.
  - unfold ParseTokens, scan.
    change (fuel_of (newLexerStream (go "."))) with 2%nat.
    erewrite ParseTokens_loop_error;
      [ | reflexivity | vm_compute; reflexivity ].
    reflexivity.
Qed.

(** * Properties of the renderer *)

(** Induction on a tree, with the property known of every child. *)
Section ASTNode_induction.

Variable P : Generator.ASTNode -> Prop.
Hypothesis P_Node :
  forall token children, Forall P children -> P (Generator.Node token children).

Fixpoint ASTNode_children_ind (ast : Generator.ASTNode) : P ast :=
  match ast with
  | Generator.Node token children =>
      P_Node token children
        ((fix all (rest : list Generator.ASTNode) : Forall P rest :=
            match rest with
            | [] => List.Forall_nil P
            | child :: rest' =>
                List.Forall_cons P child rest' (ASTNode_children_ind child)
                  (all rest')
            end) children)
  end.

End ASTNode_induction.

Lemma arity_ok_Node (token : Generator.Token)
    (children : list Generator.ASTNode) :
  Generator.arity_ok (Generator.Node token children)
  <-> match Generator.Kind token with
      | LOGICALOP | COMPARATOR => (2 <= length children)%nat
      | PREFIX => (1 <= length children)%nat
      | _ => True
      end
      /\ Forall Generator.arity_ok children.
Proof.
  cbn [Generator.arity_ok]. apply and_iff_compat_l.
  induction children as [|child rest IH]; simpl.
  - split; [constructor|trivial].
  - rewrite Forall_cons, <- IH. reflexivity.
Qed.

Lemma height_children (token : Generator.Token)
    (children : list Generator.ASTNode) :
  1 <= Generator.height (Generator.Node token children)
  /\ Forall (fun child =>
               Generator.height child + 1
               <= Generator.height (Generator.Node token children))
            children.
Proof.
  cbn [Generator.height].
  induction children as [|child rest [IHone IH]]; simpl.
  - split; [lia|constructor].
  - split; [lia|]. constructor; [lia|].
    eapply Forall_impl; [exact IH|]. simpl. intros c Hc. lia.
Qed.

Lemma indentation_some (indent : Z) :
  0 <= indent < 2 ^ 62 ->
  Generator.indentation indent
  = Some (two_spaces indent).
Proof.
  intros Hindent. unfold Generator.indentation, Generator.max_int.
  destruct (Z.ltb_spec indent 0); [lia|].
  destruct (Z.ltb_spec (2 ^ 63 - 1) (2 * indent)); [lia|].
  reflexivity.
Qed.

Section GenerateFacts.

Variable fmt_v : TokenValue -> gostring.

Lemma generate_total_children (indent : Z)
    (children : list Generator.ASTNode) :
  0 <= indent ->
  Forall (fun child =>
            Generator.arity_ok child ->
            forall indent, 0 <= indent ->
              indent + Generator.height child < 2 ^ 62 ->
              exists text, Generator.generate fmt_v child indent = Some text)
         children ->
  Forall Generator.arity_ok children ->
  Forall (fun child => indent + Generator.height child < 2 ^ 62) children ->
  Forall (fun child =>
            exists text, Generator.generate fmt_v child indent = Some text)
         children.
Proof.
  intros Hindent HP Harity Hheight.
  induction children as [|child rest IH]; constructor.
  - apply Forall_cons in HP as [HP _], Harity as [Harity _],
      Hheight as [Hheight _]. now apply HP.
  - apply Forall_cons in HP as [_ HP], Harity as [_ Harity],
      Hheight as [_ Hheight]. now apply IH.
Qed.

Lemma generate_total (ast : Generator.ASTNode) :
  Generator.arity_ok ast ->
  forall indent, 0 <= indent ->
    indent + Generator.height ast < 2 ^ 62 ->
    exists text, Generator.generate fmt_v ast indent = Some text.
Proof.
  induction ast as [token children IH] using ASTNode_children_ind.
  intros Harity indent Hindent Hheight.
  apply arity_ok_Node in Harity as [Hcount Harity].
  destruct (height_children token children) as [Hone Hchildren].
  assert (Hdeeper : Forall (fun child =>
                              (indent + 1) + Generator.height child < 2 ^ 62)
                      children).
  { eapply Forall_impl; [exact Hchildren|].
    intros c Hc. cbv beta in Hc |- *. lia. }
  assert (Hflat : Forall (fun child => 0 + Generator.height child < 2 ^ 62)
                    children).
  { eapply Forall_impl; [exact Hchildren|].
    intros c Hc. cbv beta in Hc |- *. lia. }
  pose proof (generate_total_children (indent + 1) children ltac:(lia) IH
                Harity Hdeeper) as Hnext.
  pose proof (generate_total_children 0 children ltac:(lia) IH Harity Hflat)
    as Hzero.
  clear IH Harity Hchildren Hdeeper Hflat.
  cbn [Generator.generate].
  rewrite indentation_some by lia.
  rewrite (wrap_int_small (indent + 1)) by lia.
  destruct (Generator.Kind token); try (eexists; reflexivity).
  - (* PREFIX *)
    destruct children as [|child0 rest]; [simpl in Hcount; lia|].
    apply Forall_cons in Hnext as [[operand ->] _]. eexists; reflexivity.
  - (* FUNCTION *)
    match goal with
    | |- context [match ?e with Some _ => _ | None => _ end] =>
        assert (exists params, e = Some params) as [params ->]
    end; [|eexists; reflexivity].
    clear Hnext Hcount Hheight Hone.
    induction children as [|child rest IH]; [eexists; reflexivity|].
    apply Forall_cons in Hzero as [[param ->] Hzero].
    destruct (IH Hzero) as [params ->]. eexists; reflexivity.
  - (* COMPARATOR *)
    destruct children as [|child0 [|child1 rest]]; try (simpl in Hcount; lia).
    apply Forall_cons in Hnext as [[lhs ->] Hnext].
    apply Forall_cons in Hnext as [[rhs ->] _]. eexists; reflexivity.
  - (* LOGICALOP *)
    destruct children as [|child0 [|child1 rest]]; try (simpl in Hcount; lia).
    apply Forall_cons in Hnext as [[lhs ->] Hnext].
    apply Forall_cons in Hnext as [[rhs ->] _].
    destruct (0 <? indent); eexists; reflexivity.
  - (* ARRAY *)
    match goal with
    | |- context [match ?e with Some _ => _ | None => _ end] =>
        assert (exists elements, e = Some elements) as [elements ->]
    end; [|eexists; reflexivity].
    clear Hzero Hcount Hheight Hone.
    induction children as [|child rest IH]; [eexists; reflexivity|].
    apply Forall_cons in Hnext as [[element ->] Hnext].
    destruct (IH Hnext) as [elements ->]. eexists; reflexivity.
Qed.

(** C8: a LOGICALOP node whose two children render at depth [indent + 1]
    renders at depth 0 as the left text, the operator and the right text on
    three lines with no parentheses around them, and at a depth above 0 as
    the same group, each line indented by two spaces for every level, between
    an opening and a closing parenthesis on lines of their own. *)
Theorem generate_logicalop (token : Generator.Token)
    (child0 child1 : Generator.ASTNode) (rest : list Generator.ASTNode)
    (indent : Z) (lhs rhs : gostring) :
  Generator.Kind token = LOGICALOP ->
  0 <= indent < 2 ^ 62 ->
  Generator.generate fmt_v child0 (indent + 1) = Some lhs ->
  Generator.generate fmt_v child1 (indent + 1) = Some rhs ->
  (indent = 0 ->
   Generator.generate fmt_v
     (Generator.Node token (child0 :: child1 :: rest)) indent
   = Some (lhs ++ [newline] ++ Generator.Content token ++ [newline]
           ++ rhs ++ go " "))
  /\ (0 < indent ->
      Generator.generate fmt_v
        (Generator.Node token (child0 :: child1 :: rest)) indent
      = Some (go "(" ++ [newline] ++ two_spaces indent
              ++ (lhs ++ [newline] ++ two_spaces indent
                  ++ Generator.Content token ++ [newline]
                  ++ two_spaces indent ++ rhs ++ go " "
                  ++ two_spaces indent)
              ++ [newline] ++ two_spaces indent ++ go ")")).
Proof.
  intros Hkind Hindent Hlhs Hrhs.
  cbn [Generator.generate].
  rewrite indentation_some by lia.
  rewrite (wrap_int_small (indent + 1)) by lia.
  rewrite Hkind, Hlhs, Hrhs.
  split; intros Hdepth.
  - subst indent. reflexivity.
  - apply Z.ltb_lt in Hdepth. now rewrite Hdepth.
Qed.

(** C9: on a tree that keeps the arity invariant, [generate] returns a text
    at every depth from 0 on (the tree being less than 2^62 high, as every
    tree in memory is); a node of a kind without a case renders as the
    empty text; a FUNCTION node without children renders as its name
    followed by [(  )]. *)
Theorem generate_returns :
  (forall ast indent,
      Generator.arity_ok ast ->
      0 <= indent ->
      indent + Generator.height ast < 2 ^ 62 ->
      exists text, Generator.generate fmt_v ast indent = Some text)
  /\ (forall token children indent,
         Generator.rendered (Generator.Kind token) = false ->
         0 <= indent < 2 ^ 62 ->
         Generator.generate fmt_v (Generator.Node token children) indent
         = Some [])
  /\ (forall token indent,
         Generator.Kind token = FUNCTION ->
         0 <= indent < 2 ^ 62 ->
         Generator.generate fmt_v (Generator.Node token []) indent
         = Some (Generator.Content token ++ go "(  )")).
Proof.
  split; [|split].
  - intros ast indent Harity Hindent Hheight.
    now apply generate_total.
  - intros token children indent Hkind Hindent.
    cbn [Generator.generate]. rewrite indentation_some by lia.
    destruct (Generator.Kind token); try discriminate; reflexivity.
  - intros token indent Hkind Hindent.
    cbn [Generator.generate]. rewrite indentation_some by lia.
    rewrite Hkind. reflexivity.
Qed.

End GenerateFacts.

(** * The properties at concrete expressions and trees *)

Ltac evaluated := vm_compute; reflexivity.
Ltac decided :=
  match goal with
  | |- ?P => apply (bool_decide_unpack P); vm_compute; exact I
  end.

(** [ParseTokens_blank] at an expression of three spaces. *)
Lemma ParseTokens_blank_witness :
  Forall (fun c => unicode_IsSpace ascii_library c = true) (go "   ")
  /\ ParseTokens ascii_library example_tables (go "   ") ∅ = Done ([], None).
Proof.
  assert (Hblank : Forall (fun c => unicode_IsSpace ascii_library c = true)
                     (go "   ")) by (repeat constructor).
  split; [exact Hblank|].
  exact (proj2 (ParseTokens_blank ascii_library example_tables ∅ (go "   ")
                  Hblank)).
Defined.

(** [ParseTokens_balance] at [(1)], which is balanced, and at [(1 + 2]. *)
Lemma ParseTokens_balance_witness :
  scan ascii_library example_tables (go "(1)") ∅
  = Done (([ {| Kind := CLAUSE; Value := VRune (chr "("); Raw := go "(";
                Start := 0; End_ := 1 |};
             {| Kind := NUMERIC;
                Value := VFloat (S754_finite false (2 ^ 52) (-52));
                Raw := go "1"; Start := 1; End_ := 2 |};
             {| Kind := CLAUSE_CLOSE; Value := VRune (chr ")");
                Raw := go ")"; Start := 2; End_ := 3 |} ], None),
           stream_at (go "(1)") [])
  /\ ParseTokens ascii_library example_tables (go "(1)") ∅
     = Done ([ {| Kind := CLAUSE; Value := VRune (chr "("); Raw := go "(";
                  Start := 0; End_ := 1 |};
               {| Kind := NUMERIC;
                  Value := VFloat (S754_finite false (2 ^ 52) (-52));
                  Raw := go "1"; Start := 1; End_ := 2 |};
               {| Kind := CLAUSE_CLOSE; Value := VRune (chr ")");
                  Raw := go ")"; Start := 2; End_ := 3 |} ], None)
  /\ go "+" ∈ modifierSymbols example_tables
  /\ ParseTokens ascii_library example_tables (go "(1 + 2") ∅
     = Done ([], Some (go "Unbalanced parenthesis")).
Proof.
  destruct (ParseTokens_balance ascii_library example_tables ∅)
    as [Hgeneral Hexample].
  assert (Hscan : scan ascii_library example_tables (go "(1)") ∅
                  = Done (([ {| Kind := CLAUSE; Value := VRune (chr "(");
                                Raw := go "("; Start := 0; End_ := 1 |};
                             {| Kind := NUMERIC;
                                Value := VFloat (S754_finite false (2 ^ 52)
                                                   (-52));
                                Raw := go "1"; Start := 1; End_ := 2 |};
                             {| Kind := CLAUSE_CLOSE;
                                Value := VRune (chr ")"); Raw := go ")";
                                Start := 2; End_ := 3 |} ], None),
                           stream_at (go "(1)") [])) by evaluated.
  assert (Hplus : go "+" ∈ modifierSymbols example_tables) by decided.
  split; [exact Hscan|].
  split; [apply (Hgeneral _ _ _ Hscan); [evaluated|reflexivity]|].
  split; [exact Hplus|].
  apply Hexample; [exact Hplus|reflexivity..].
Defined.

(** [readToken_symbol_priority] at [-1] and [1 - 1]. *)
Lemma readToken_symbol_priority_witness :
  next_character ascii_library (newLexerStream (go "-1")) 0 (chr "-")
    (stream_at (go "-") (go "1"))
  /\ symbol_lead ascii_library (chr "-") = true
  /\ readToken ascii_library example_tables
       (validLexerStates_0 example_tables) ∅ (newLexerStream (go "-1"))
     = Done (({| Kind := PREFIX; Value := VString (go "-"); Raw := go "-";
                 Start := 0; End_ := 1 |}, None, true),
             stream_at (go "-") (go "1"))
  /\ go "-" ∈ prefixSymbols example_tables
  /\ go "-" ∈ modifierSymbols example_tables
  /\ ParseTokens ascii_library example_tables (go "-1") ∅
     = Done ([ {| Kind := PREFIX; Value := VString (go "-");
                  Raw := go "-"; Start := 0; End_ := 1 |};
               {| Kind := NUMERIC;
                  Value := VFloat (S754_finite false (2 ^ 52) (-52));
                  Raw := go "1"; Start := 1; End_ := 2 |} ], None)
  /\ ParseTokens ascii_library example_tables (go "1 - 1") ∅
     = Done ([ {| Kind := NUMERIC;
                  Value := VFloat (S754_finite false (2 ^ 52) (-52));
                  Raw := go "1"; Start := 0; End_ := 2 |};
               {| Kind := MODIFIER; Value := VString (go "-");
                  Raw := go "-"; Start := 2; End_ := 4 |};
               {| Kind := NUMERIC;
                  Value := VFloat (S754_finite false (2 ^ 52) (-52));
                  Raw := go "1"; Start := 4; End_ := 5 |} ], None).
Proof.
  destruct (readToken_symbol_priority ascii_library example_tables ∅)
    as [Hgeneral [Hprefix Hmodifier]].
  assert (Hnext : next_character ascii_library (newLexerStream (go "-1")) 0
                    (chr "-") (stream_at (go "-") (go "1")))
    by (apply next_here; evaluated).
  assert (Hlead : symbol_lead ascii_library (chr "-") = true) by evaluated.
  assert (Hp : go "-" ∈ prefixSymbols example_tables) by decided.
  assert (Hm : go "-" ∈ modifierSymbols example_tables) by decided.
  split; [exact Hnext|]. split; [exact Hlead|].
  split.
  { rewrite (Hgeneral (validLexerStates_0 example_tables) _ _ _ _
               (go "-") (stream_at (go "-") (go "1")) Hnext Hlead
               ltac:(evaluated)).
    evaluated. }
  split; [exact Hp|]. split; [exact Hm|].
  split.
  - apply Hprefix; [exact Hp|reflexivity..].
  - apply Hmodifier; [exact Hm|reflexivity..].
Defined.

(** The spelling [In] is read as a VARIABLE, not as the comparator. *)
Lemma ParseTokens_In_variable :
  ParseTokens ascii_library example_tables (go "In") ∅
  = Done ([ {| Kind := VARIABLE; Value := VString (go "In");
               Raw := go "In"; Start := 0; End_ := 2 |} ], None).
Proof. evaluated. Qed.

(** [readToken_in] at [IN] and [iN]. *)
Lemma readToken_in_witness :
  next_character ascii_library (newLexerStream (go "IN")) 0 (chr "I")
    (stream_at (go "I") (go "N"))
  /\ word_lead ascii_library (chr "I") = true
  /\ readToken ascii_library example_tables
       (validLexerStates_0 example_tables) ∅ (newLexerStream (go "IN"))
     = Done (({| Kind := COMPARATOR; Value := VString (go "in");
                 Raw := go "IN"; Start := 0; End_ := 2 |}, None, true),
             stream_at (go "IN") [])
  /\ readToken ascii_library example_tables
       (validLexerStates_0 example_tables) ∅ (newLexerStream (go "iN"))
     = Done (({| Kind := VARIABLE; Value := VString (go "iN");
                 Raw := go "iN"; Start := 0; End_ := 2 |}, None, true),
             stream_at (go "iN") []).
Proof.
  destruct (readToken_in ascii_library example_tables ∅)
    as [Hcomparator Hvariable].
  assert (Hnext : next_character ascii_library (newLexerStream (go "IN")) 0
                    (chr "I") (stream_at (go "I") (go "N")))
    by (apply next_here; evaluated).
  assert (Hlead : word_lead ascii_library (chr "I") = true) by evaluated.
  split; [exact Hnext|]. split; [exact Hlead|]. split.
  - exact (Hcomparator (validLexerStates_0 example_tables) _ _ _ _
             (go "IN") (stream_at (go "IN") []) Hnext Hlead
             ltac:(evaluated) ltac:(right; reflexivity) ltac:(evaluated)).
  - assert (Hnext' : next_character ascii_library
                       (newLexerStream (go "iN")) 0 (chr "i")
                       (stream_at (go "i") (go "N")))
      by (apply next_here; evaluated).
    exact (Hvariable (validLexerStates_0 example_tables) _ _ _ _
             (go "iN") (stream_at (go "iN") []) Hnext'
             ltac:(evaluated) ltac:(evaluated) ltac:(right; reflexivity)
             ltac:(evaluated)).
Defined.

(** A registered name that holds a period is read as an ACCESSOR, not as a
    FUNCTION. *)
Lemma ParseTokens_registered_accessor :
  ParseTokens ascii_library example_tables (go "foo.Bar") functions_dotted
  = Done ([ {| Kind := ACCESSOR; Value := VStrings [go "foo"; go "Bar"];
               Raw := go "foo.Bar"; Start := 0; End_ := 7 |} ], None).
Proof. evaluated. Qed.

(** [readToken_function] at [max] and at the registered [foo.Bar]. *)
Lemma readToken_function_witness :
  next_character ascii_library (newLexerStream (go "max")) 0 (chr "m")
    (stream_at (go "m") (go "ax"))
  /\ (chr "." ∉ go "max")
  /\ readToken ascii_library example_tables
       (validLexerStates_0 example_tables) functions_max
       (newLexerStream (go "max"))
     = Done (({| Kind := FUNCTION; Value := VFunction max_function;
                 Raw := go "max"; Start := 0; End_ := 3 |}, None, true),
             stream_at (go "max") [])
  /\ 0 < strings_Index (go "foo.Bar") (chr ".")
  /\ readToken ascii_library example_tables
       (validLexerStates_0 example_tables) functions_dotted
       (newLexerStream (go "foo.Bar"))
     = readToken ascii_library example_tables
         (validLexerStates_0 example_tables) ∅
         (newLexerStream (go "foo.Bar")).
Proof.
  assert (Hnext : next_character ascii_library (newLexerStream (go "max")) 0
                    (chr "m") (stream_at (go "m") (go "ax")))
    by (apply next_here; evaluated).
  assert (Hperiod : chr "." ∉ go "max") by decided.
  assert (Hindex : 0 < strings_Index (go "foo.Bar") (chr "."))
    by reflexivity.
  split; [exact Hnext|]. split; [exact Hperiod|]. split; [|split].
  - exact (proj1 (readToken_function ascii_library example_tables
                    functions_max)
             (validLexerStates_0 example_tables) _ _ _ _
             (go "max") (stream_at (go "max") []) max_function Hnext
             ltac:(evaluated) ltac:(evaluated) ltac:(evaluated) Hperiod).
  - exact Hindex.
  - assert (Hnext' : next_character ascii_library
                       (newLexerStream (go "foo.Bar")) 0 (chr "f")
                       (stream_at (go "f") (go "oo.Bar")))
      by (apply next_here; evaluated).
    exact (proj2 (readToken_function ascii_library example_tables
                    functions_dotted)
             (validLexerStates_0 example_tables) _ _ _ _
             (go "foo.Bar") (stream_at (go "foo.Bar") []) Hnext'
             ltac:(evaluated) ltac:(evaluated) Hindex).
Defined.

(** The input [0x]: a decimal 0 and the variable [x], and no error. *)
Lemma ParseTokens_0x_end :
  ParseTokens ascii_library example_tables (go "0x") ∅
  = Done ([ {| Kind := NUMERIC; Value := VFloat (S754_zero false);
               Raw := go "0"; Start := 0; End_ := 1 |};
            {| Kind := VARIABLE; Value := VString (go "x");
               Raw := go "x"; Start := 1; End_ := 2 |} ], None).
Proof. evaluated. Qed.

(** [readToken_hex] at [0xFF] and at [0x]. *)
Lemma readToken_hex_witness :
  next_character ascii_library (newLexerStream (go "0xFF")) 0 (chr "0")
    (stream_at (go "0") (go "xFF"))
  /\ readUntilFalse ascii_library false true true
       (isHexDigit ascii_library) (stream_at (go "0x") (go "FF"))
     = Done ((go "FF", false), stream_at (go "0xFF") [])
  /\ readToken ascii_library example_tables
       (validLexerStates_0 example_tables) ∅ (newLexerStream (go "0xFF"))
     = Done (({| Kind := NUMERIC;
                 Value := VFloat (S754_finite false (255 * 2 ^ 45) (-45));
                 Raw := go "FF"; Start := 0; End_ := 4 |}, None, true),
             stream_at (go "0xFF") [])
  /\ readToken ascii_library example_tables
       (validLexerStates_0 example_tables) ∅ (newLexerStream (go "0x"))
     = readDecimal ascii_library 0 (stream_at (go "0") (go "x"))
  /\ ParseTokens ascii_library example_tables (go "0xFF") ∅
     = Done ([ {| Kind := NUMERIC;
                  Value := VFloat (S754_finite false (255 * 2 ^ 45) (-45));
                  Raw := go "FF"; Start := 0; End_ := 4 |} ], None).
Proof.
  destruct (readToken_hex ascii_library example_tables ∅)
    as [Hgeneral [Hend Hexample]].
  assert (Hnext : next_character ascii_library (newLexerStream (go "0xFF"))
                    0 (chr "0") (stream_at (go "0") (go "xFF")))
    by (apply next_here; evaluated).
  assert (Hscan : readUntilFalse ascii_library false true true
                    (isHexDigit ascii_library) (stream_at (go "0x") (go "FF"))
                  = Done ((go "FF", false), stream_at (go "0xFF") []))
    by evaluated.
  split; [exact Hnext|]. split; [exact Hscan|]. split; [|split].
  - rewrite (Hgeneral (validLexerStates_0 example_tables) _ _ _
               (stream_at (go "0x") (go "FF")) _ _ _ Hnext
               ltac:(evaluated) ltac:(evaluated) ltac:(evaluated) Hscan).
    evaluated.
  - assert (Hnext' : next_character ascii_library (newLexerStream (go "0x"))
                       0 (chr "0") (stream_at (go "0") (go "x")))
      by (apply next_here; evaluated).
    exact (Hend (validLexerStates_0 example_tables) _ _ _
             (stream_at (go "0x") []) Hnext'
             ltac:(evaluated) ltac:(evaluated) ltac:(evaluated)).
  - apply Hexample. reflexivity.
Defined.

(** [readToken_leading_period] at [.5]. *)
Lemma readToken_leading_period_witness :
  next_character ascii_library (newLexerStream (go ".5")) 0 (chr ".")
    (stream_at (go ".") (go "5"))
  /\ readToken ascii_library example_tables
       (validLexerStates_0 example_tables) ∅ (newLexerStream (go ".5"))
     = readDecimal ascii_library 0 (stream_at (go ".") (go "5"))
  /\ ParseTokens ascii_library example_tables (go ".5") ∅
     = Done ([ {| Kind := NUMERIC;
                  Value := VFloat (S754_finite false (2 ^ 52) (-53));
                  Raw := go ".5"; Start := 0; End_ := 2 |} ], None).
Proof.
  destruct (readToken_leading_period ascii_library example_tables ∅)
    as [Hgeneral [Hexample _]].
  assert (Hnext : next_character ascii_library (newLexerStream (go ".5")) 0
                    (chr ".") (stream_at (go ".") (go "5")))
    by (apply next_here; evaluated).
  split; [exact Hnext|]. split.
  - exact (Hgeneral (validLexerStates_0 example_tables) _ _ _ Hnext).
  - apply Hexample. reflexivity.
Defined.

(** [generate_logicalop] at [a && b], rendered at depth 1. *)
Lemma generate_logicalop_witness :
  Generator.generate show_value (variable_node (go "a")) (1 + 1)
  = Some (go "a")
  /\ Generator.generate show_value (variable_node (go "b")) (1 + 1)
     = Some (go "b")
  /\ Generator.generate show_value
       (Generator.Node and_token
          [variable_node (go "a"); variable_node (go "b")]) 1
     = Some (go "(" ++ [newline] ++ go "  a" ++ [newline] ++ go "  &&"
             ++ [newline] ++ go "  b   " ++ [newline] ++ go "  )").
Proof.
  assert (Hlhs : Generator.generate show_value (variable_node (go "a"))
                   (1 + 1) = Some (go "a")) by reflexivity.
  assert (Hrhs : Generator.generate show_value (variable_node (go "b"))
                   (1 + 1) = Some (go "b")) by reflexivity.
  split; [exact Hlhs|]. split; [exact Hrhs|].
  exact (proj2 (generate_logicalop show_value and_token
                  (variable_node (go "a")) (variable_node (go "b")) [] 1
                  (go "a") (go "b") eq_refl
                  ltac:(split; [discriminate|reflexivity]) Hlhs Hrhs)
           eq_refl).
Defined.

(** [generate_returns] at [!a], at a node of kind CLAUSE and at a function
    without arguments. *)
Lemma generate_returns_witness :
  Generator.arity_ok not_node
  /\ (exists text, Generator.generate show_value not_node 0 = Some text)
  /\ Generator.generate show_value
       (Generator.Node
          {| Generator.Kind := CLAUSE; Generator.Content := go "(";
             Generator.Value := VNil |} []) 0
     = Some []
  /\ Generator.generate show_value
       (Generator.Node
          {| Generator.Kind := FUNCTION; Generator.Content := go "name";
             Generator.Value := VNil |} []) 0
     = Some (go "name(  )").
Proof.
  destruct (generate_returns show_value) as [Htotal [Hother Hfunction]].
  assert (Harity : Generator.arity_ok not_node)
    by (simpl; repeat split; lia).
  split; [exact Harity|]. split; [|split].
  - apply Htotal; [exact Harity|discriminate|reflexivity].
  - apply Hother; [reflexivity|split; [discriminate|reflexivity]].
  - exact (Hfunction {| Generator.Kind := FUNCTION;
                        Generator.Content := go "name";
                        Generator.Value := VNil |} 0 eq_refl
             ltac:(split; [discriminate|reflexivity])).
Defined.

(** * Further properties of the tokenizer *)

Lemma rewind_at (pre : gostring) (c : rune) (rest : gostring) :
  rewind 1 (stream_at (pre ++ [c]) rest)
  = Done (tt, stream_at pre (c :: rest)).
Proof. apply (rewind_read _ _ c). apply readCharacter_at. Qed.

Section ScanFacts.
Variable L : GoLibrary.
Variables includeWhitespace breakWhitespace allowEscaping : bool.
Variable condition : rune -> bool.

Local Abbreviation loop := (readUntilFalse_loop L).
Local Abbreviation scanning :=
  (scanText L includeWhitespace breakWhitespace allowEscaping condition).

Lemma scan_outcome_consumed_1 (pre : gostring) (c : rune)
    (rest : gostring) r :
  scan_outcome (pre ++ [c]) rest r
  = scan_outcome pre (c :: rest) (consumed 1 r).
Proof.
  destruct r as [[[text conditioned] n]|]; simpl; [|reflexivity].
  now rewrite <- app_assoc.
Qed.

Lemma scan_outcome_consumed_2 (pre : gostring) (c e : rune)
    (rest : gostring) r :
  scan_outcome ((pre ++ [c]) ++ [e]) rest r
  = scan_outcome pre (c :: e :: rest) (consumed 2 r).
Proof.
  destruct r as [[[text conditioned] n]|]; simpl; [|reflexivity].
  now rewrite <- !app_assoc.
Qed.

Lemma readUntilFalse_loop_view (fuel : nat) :
  forall rest pre tokenBuffer,
    (length rest < fuel)%nat ->
    loop fuel includeWhitespace breakWhitespace allowEscaping condition
      tokenBuffer (stream_at pre rest)
    = scan_outcome pre rest (scanning rest tokenBuffer).
Proof.
  induction fuel as [|fuel IH]; intros rest pre tokenBuffer Hfuel; [lia|].
  cbn [readUntilFalse_loop]. unfold bind at 1. unfold getStream at 1.
  destruct rest as [|c rest].
  - rewrite canRead_at_nil. simpl. now rewrite app_nil_r.
  - rewrite canRead_at_cons. unfold bind at 1. rewrite readCharacter_at.
    simpl in Hfuel. cbn [scanText]. fold backslash.
    destruct (allowEscaping && (c =? backslash)).
    { destruct rest as [|e rest]; unfold bind at 1.
      - unfold readCharacter, stream_at; simpl.
        destruct (0 <=? _); [|reflexivity].
        rewrite Nat2Z.id, app_nil_r, lookup_ge_None_2; [reflexivity|lia].
      - rewrite readCharacter_at, IH by (simpl in Hfuel; lia).
        apply scan_outcome_consumed_2. }
    destruct (unicode_IsSpace L c && breakWhitespace
              && (0 <? length tokenBuffer)%nat).
    { reflexivity. }
    destruct (unicode_IsSpace L c && negb includeWhitespace).
    { rewrite IH by lia. apply scan_outcome_consumed_1. }
    destruct (condition c).
    { rewrite IH by lia. apply scan_outcome_consumed_1. }
    unfold bind at 1. rewrite rewind_at. unfold ret. simpl.
    now rewrite app_nil_r.
Qed.

Lemma readUntilFalse_view (pre rest : gostring) :
  readUntilFalse L includeWhitespace breakWhitespace allowEscaping condition
    (stream_at pre rest)
  = scan_outcome pre rest (scanning rest []).
Proof.
  unfold readUntilFalse, bind, getStream. rewrite fuel_of_at.
  apply readUntilFalse_loop_view. lia.
Qed.
Lemma consumed_consumed (j k : nat) r :
  consumed j (consumed k r) = consumed (j + k) r.
Proof.
  destruct r as [[[text conditioned] n]|]; simpl; [|reflexivity].
  do 2 f_equal. lia.
Qed.

Lemma consumed_0 r : consumed 0 r = r.
Proof. now destruct r as [[[text conditioned] n]|]. Qed.

(** What a scanning that returns has done: it has consumed no more than there
    was, all of it when it reports that nothing stopped it, and it has added
    to the buffer runes that satisfy the condition, unless a backslash
    escaped a rune. *)
Lemma scan_returns (k : nat) :
  forall rest tokenBuffer text conditioned n,
    (length rest <= k)%nat ->
    scanning rest tokenBuffer = Some (text, conditioned, n) ->
    (n <= length rest)%nat
    /\ (conditioned = false -> n = length rest)
    /\ exists added,
         text = tokenBuffer ++ added
         /\ ((allowEscaping = true /\ backslash ∈ rest)
             \/ Forall (fun c => condition c = true) added).
Proof.
  induction k as [|k IH]; intros rest tokenBuffer text conditioned n Hk Hscan.
  - destruct rest; [|simpl in Hk; lia]. injection Hscan as <- <- <-.
    repeat split; try lia. exists []. rewrite app_nil_r. auto.
  - destruct rest as [|c rest].
    { injection Hscan as <- <- <-.
      repeat split; try lia. exists []. rewrite app_nil_r. auto. }
    cbn [scanText] in Hscan. simpl in Hk.
    destruct (allowEscaping && (c =? backslash)) eqn:Hescape.
    { apply andb_prop in Hescape as [Hae Hc]. apply Z.eqb_eq in Hc as ->.
      destruct rest as [|e rest]; [discriminate|].
      destruct (scanning rest (tokenBuffer ++ [e])) as [[[t1 c1] n1]|] eqn:Hrec;
        [|discriminate].
      injection Hscan as <- <- <-.
      destruct (IH rest _ _ _ _ ltac:(simpl in Hk; lia) Hrec)
        as [Hn [Hall [added [-> _]]]].
      simpl. repeat split; try lia.
      - intros Hc. specialize (Hall Hc). lia.
      - exists (e :: added). rewrite <- app_assoc. split; [reflexivity|].
        left. split; [assumption|]. apply list_elem_of_here. }
    destruct (unicode_IsSpace L c && breakWhitespace
              && (0 <? length tokenBuffer)%nat).
    { injection Hscan as <- <- <-. simpl.
      repeat split; try lia; try discriminate.
      exists []. rewrite app_nil_r. auto. }
    destruct (unicode_IsSpace L c && negb includeWhitespace).
    { destruct (scanning rest tokenBuffer) as [[[t1 c1] n1]|] eqn:Hrec;
        [|discriminate].
      injection Hscan as <- <- <-.
      destruct (IH rest _ _ _ _ ltac:(lia) Hrec)
        as [Hn [Hall [added [-> Hadded]]]].
      simpl. repeat split; try lia.
      - intros Hc. specialize (Hall Hc). lia.
      - exists added. split; [reflexivity|].
        destruct Hadded as [[? Hin]|?]; [left|right]; auto.
        split; [assumption|]. now apply list_elem_of_further. }
    destruct (condition c) eqn:Hcondition.
    { destruct (scanning rest (tokenBuffer ++ [c])) as [[[t1 c1] n1]|] eqn:Hrec;
        [|discriminate].
      injection Hscan as <- <- <-.
      destruct (IH rest _ _ _ _ ltac:(lia) Hrec)
        as [Hn [Hall [added [-> Hadded]]]].
      simpl. repeat split; try lia.
      - intros Hc. specialize (Hall Hc). lia.
      - exists (c :: added). rewrite <- app_assoc. split; [reflexivity|].
        destruct Hadded as [[? Hin]|?]; [left|right].
        + split; [assumption|]. now apply list_elem_of_further.
        + now constructor. }
    injection Hscan as <- <- <-. simpl.
    repeat split; try lia; try discriminate.
    exists []. rewrite app_nil_r. auto.
Qed.

(** A scanning that consumes nothing adds nothing, and one that a rune stopped,
    white space not breaking it, has that rune still to read. *)
Lemma scan_stops (k : nat) :
  forall rest tokenBuffer text conditioned n,
    (length rest <= k)%nat ->
    scanning rest tokenBuffer = Some (text, conditioned, n) ->
    (n = 0%nat -> text = tokenBuffer)
    /\ (conditioned = true -> breakWhitespace = false ->
        (n < length rest)%nat).
Proof.
  induction k as [|k IH]; intros rest tokenBuffer text conditioned n Hk Hscan.
  - destruct rest; [|simpl in Hk; lia]. injection Hscan as <- <- <-.
    split; [reflexivity|discriminate].
  - destruct rest as [|c rest].
    { injection Hscan as <- <- <-. split; [reflexivity|discriminate]. }
    cbn [scanText] in Hscan. simpl in Hk.
    destruct (allowEscaping && (c =? backslash)).
    { destruct rest as [|e rest]; [discriminate|].
      destruct (scanning rest (tokenBuffer ++ [e])) as [[[t1 c1] n1]|] eqn:Hrec;
        [|discriminate].
      injection Hscan as <- <- <-.
      destruct (IH rest _ _ _ _ ltac:(simpl in Hk; lia) Hrec) as [_ Hstop].
      split; [lia|]. intros Hc Hb. specialize (Hstop Hc Hb). simpl. lia. }
    destruct (unicode_IsSpace L c && breakWhitespace
              && (0 <? length tokenBuffer)%nat) eqn:Hbreak.
    { injection Hscan as <- <- <-. split; [lia|]. intros _ Hb.
      rewrite Hb, andb_false_r in Hbreak. discriminate. }
    destruct (unicode_IsSpace L c && negb includeWhitespace).
    { destruct (scanning rest tokenBuffer) as [[[t1 c1] n1]|] eqn:Hrec;
        [|discriminate].
      injection Hscan as <- <- <-.
      destruct (IH rest _ _ _ _ ltac:(lia) Hrec) as [_ Hstop].
      split; [lia|]. intros Hc Hb. specialize (Hstop Hc Hb). simpl. lia. }
    destruct (condition c).
    { destruct (scanning rest (tokenBuffer ++ [c])) as [[[t1 c1] n1]|] eqn:Hrec;
        [|discriminate].
      injection Hscan as <- <- <-.
      destruct (IH rest _ _ _ _ ltac:(lia) Hrec) as [_ Hstop].
      split; [lia|]. intros Hc Hb. specialize (Hstop Hc Hb). simpl. lia. }
    injection Hscan as <- <- <-. split; [reflexivity|]. simpl. lia.
Qed.

(** A scanning panics only on a backslash. *)
Lemma scan_panics (k : nat) :
  forall rest tokenBuffer,
    (length rest <= k)%nat ->
    scanning rest tokenBuffer = None ->
    allowEscaping = true /\ backslash ∈ rest.
Proof.
  induction k as [|k IH]; intros rest tokenBuffer Hk Hscan.
  - destruct rest; [discriminate|simpl in Hk; lia].
  - destruct rest as [|c rest]; [discriminate|].
    cbn [scanText] in Hscan. simpl in Hk.
    destruct (allowEscaping && (c =? backslash)) eqn:Hescape.
    { apply andb_prop in Hescape as [Hae Hc]. apply Z.eqb_eq in Hc as ->.
      split; [assumption|apply list_elem_of_here]. }
    destruct (unicode_IsSpace L c && breakWhitespace
              && (0 <? length tokenBuffer)%nat); [discriminate|].
    destruct (unicode_IsSpace L c && negb includeWhitespace).
    { destruct (scanning rest tokenBuffer) as [[[t1 c1] n1]|] eqn:Hrec;
        [discriminate|].
      destruct (IH rest _ ltac:(lia) Hrec) as [? Hin].
      split; [assumption|]. now apply list_elem_of_further. }
    destruct (condition c); [|discriminate].
    destruct (scanning rest (tokenBuffer ++ [c])) as [[[t1 c1] n1]|] eqn:Hrec;
      [discriminate|].
    destruct (IH rest _ ltac:(lia) Hrec) as [? Hin].
    split; [assumption|]. now apply list_elem_of_further.
Qed.

(** A scanning that starts on a rune it accepts consumes it. *)
Lemma scan_progress (c : rune) (rest tokenBuffer text : gostring)
    (conditioned : bool) (n : nat) :
  unicode_IsSpace L c = false ->
  condition c = true ->
  scanning (c :: rest) tokenBuffer = Some (text, conditioned, n) ->
  (1 <= n)%nat.
Proof.
  intros Hspace Hcondition Hscan. cbn [scanText] in Hscan.
  rewrite Hspace, Hcondition in Hscan. simpl in Hscan.
  destruct (allowEscaping && (c =? backslash)).
  - destruct rest as [|e rest]; [discriminate|].
    destruct (scanning rest (tokenBuffer ++ [e])) as [[[t1 c1] n1]|];
      [|discriminate].
    injection Hscan as <- <- <-. lia.
  - destruct (scanning rest (tokenBuffer ++ [c])) as [[[t1 c1] n1]|];
      [|discriminate].
    injection Hscan as <- <- <-. lia.
Qed.

(** Runes that are not white space, are not an escaping backslash and
    satisfy the condition are read into the buffer one after the other. *)
Lemma scan_plain (run : gostring) :
  forall rest tokenBuffer,
    Forall (fun c => allowEscaping && (c =? backslash) = false
                     /\ unicode_IsSpace L c = false
                     /\ condition c = true) run ->
    scanning (run ++ rest) tokenBuffer
    = consumed (length run) (scanning rest (tokenBuffer ++ run)).
Proof.
  induction run as [|c run IH]; intros rest tokenBuffer Hrun.
  - simpl. now rewrite consumed_0, app_nil_r.
  - apply Forall_cons in Hrun as [[Hescape [Hspace Hcondition]] Hrun].
    cbn [app scanText]. rewrite Hescape, Hspace, Hcondition. simpl.
    rewrite IH by assumption. rewrite consumed_consumed, <- app_assoc.
    reflexivity.
Qed.

End ScanFacts.

(** With white space kept and escapes allowed, an escaped text is read back
    as the text. *)
Lemma scan_escaped (L : GoLibrary) (condition : rune -> bool)
    (text : gostring) :
  forall rest tokenBuffer,
    scanText L true false true condition
      (escape_text condition text ++ rest) tokenBuffer
    = consumed (length (escape_text condition text))
        (scanText L true false true condition rest (tokenBuffer ++ text)).
Proof.
  induction text as [|c text IH]; intros rest tokenBuffer.
  - simpl. now rewrite consumed_0, app_nil_r.
  - cbn [escape_text].
    destruct ((c =? backslash) || negb (condition c)) eqn:Hspecial.
    + change ((backslash :: c :: escape_text condition text) ++ rest)
        with (backslash :: c :: (escape_text condition text ++ rest)).
      cbn [scanText]. rewrite Z.eqb_refl. cbn [andb].
      rewrite IH, consumed_consumed, <- app_assoc. reflexivity.
    + apply orb_false_elim in Hspecial as [Hc Hcondition].
      apply negb_false_iff in Hcondition.
      change ((c :: escape_text condition text) ++ rest)
        with (c :: (escape_text condition text ++ rest)).
      cbn [scanText]. rewrite Hcondition, Hc.
      rewrite !andb_false_r. cbn [andb negb].
      rewrite IH, consumed_consumed, <- app_assoc. reflexivity.
Qed.


Lemma rewind_forward_at (pre : gostring) (c : rune) (rest : gostring) :
  rewind (-1) (stream_at pre (c :: rest))
  = Done (tt, stream_at (pre ++ [c]) rest).
Proof.
  unfold rewind, stream_at; simpl. rewrite <- !app_assoc; simpl.
  do 3 f_equal. rewrite length_app; simpl. lia.
Qed.

Lemma next_character_at (L : GoLibrary) (pre : gostring) (c : rune)
    (rest : gostring) :
  unicode_IsSpace L c = false ->
  next_character L (stream_at pre (c :: rest)) (Z.of_nat (length pre)) c
    (stream_at (pre ++ [c]) rest).
Proof.
  intros Hspace.
  apply (next_here L (stream_at pre (c :: rest)));
    [apply canRead_at_cons|apply readCharacter_at|assumption].
Qed.

Lemma position_at (pre rest : gostring) :
  position (stream_at pre rest) = Z.of_nat (length pre).
Proof. reflexivity. Qed.

(** A delimited literal: the scan of an escaped text up to the rune that
    closes it. *)
Lemma readUntilFalse_delimited (L : GoLibrary) (condition : rune -> bool)
    (pre text : gostring) (close : rune) (rest : gostring) :
  condition close = false ->
  close <> backslash ->
  readUntilFalse L true false true condition
    (stream_at pre (escape_text condition text ++ close :: rest))
  = Done ((text, true),
          stream_at (pre ++ escape_text condition text) (close :: rest)).
Proof.
  intros Hclose Hbackslash.
  rewrite readUntilFalse_view, scan_escaped.
  cbn [scanText app]. rewrite Hclose.
  destruct (Z.eqb_spec close backslash) as [?|_]; [contradiction|].
  rewrite !andb_false_r. cbn [andb consumed scan_outcome].
  rewrite Nat.add_0_r.
  rewrite take_app_length.
  rewrite drop_app_length. reflexivity.
Qed.


Section Literals.
Variable L : GoLibrary.
Variable T : Tables.
Variable functions : gmap gostring ExpressionFunction.

Lemma quote_cases (q : rune) :
  isNotQuote q = false -> q = singlequote \/ q = doublequote.
Proof.
  unfold isNotQuote. intros Hq.
  destruct (Z.eqb_spec q singlequote); [now left|].
  destruct (Z.eqb_spec q doublequote); [now right|discriminate].
Qed.

Lemma readToken_dispatch_quote (state : lexerState) (position_ : Z)
    (q : rune) (stream : lexerStream) :
  isNotQuote q = false ->
  readToken_dispatch L T state functions position_ q stream
  = readQuoted L position_ stream.
Proof.
  intros Hq. unfold readToken_dispatch. rewrite Hq.
  destruct (quote_cases q Hq) as [-> | ->]; reflexivity.
Qed.

Lemma quote_not_space (q : rune) :
  isNotQuote q = false -> unicode_IsSpace L q = false.
Proof. intros Hq. destruct (quote_cases q Hq) as [-> | ->]; reflexivity. Qed.

Lemma quote_not_backslash (q : rune) :
  isNotQuote q = false -> q <> backslash.
Proof.
  intros Hq. destruct (quote_cases q Hq) as [-> | ->]; discriminate.
Qed.

(** A quoted literal is read back as its text: [readToken] on an opening
    quote, an escaped text and a closing quote returns the text, as a TIME
    when [tryParseTime] finds one and as a STRING otherwise. *)
Theorem readToken_quoted (state : lexerState) (pre text rest : gostring)
    (open close : rune) :
  isNotQuote open = false ->
  isNotQuote close = false ->
  readToken L T state functions
    (stream_at pre (open :: escape_text isNotQuote text ++ close :: rest))
  = Done (({| Kind := if snd (tryParseTime L text) then TIME else STRING;
              Value := if snd (tryParseTime L text)
                       then VTime (fst (tryParseTime L text))
                       else VString text;
              Raw := text;
              Start := Z.of_nat (length pre);
              End_ := Z.of_nat (length pre)
                      + Z.of_nat (length (escape_text isNotQuote text)) + 2 |},
           None, true),
          stream_at (pre ++ open :: escape_text isNotQuote text ++ [close])
            rest).
Proof.
  intros Hopen Hclose.
  rewrite (readToken_next L T _ _ _ _ state functions
             (next_character_at L pre open _ (quote_not_space _ Hopen))).
  rewrite readToken_dispatch_quote by assumption.
  unfold readQuoted.
  rewrite (bind_Done _ _ _ _ _
             (readUntilFalse_delimited L isNotQuote (pre ++ [open]) text
                close rest Hclose (quote_not_backslash _ Hclose))).
  cbn [negb]. unfold bind at 1. rewrite rewind_forward_at.
  replace ((pre ++ [open]) ++ escape_text isNotQuote text)
    with (pre ++ open :: escape_text isNotQuote text)
    by (now rewrite <- app_assoc).
  replace ((pre ++ open :: escape_text isNotQuote text) ++ [close])
    with (pre ++ open :: escape_text isNotQuote text ++ [close])
    by (now rewrite <- app_assoc).
  destruct (tryParseTime L text) as [tokenTime found].
  assert (Hend : position
                   (stream_at
                      (pre ++ open :: escape_text isNotQuote text
                           ++ [close]) rest)
                 = Z.of_nat (length pre)
                   + Z.of_nat (length (escape_text isNotQuote text)) + 2).
  { unfold stream_at; simpl.
    rewrite length_app. simpl. rewrite length_app. simpl. lia. }
  unfold emit, bind, getStream, ret.
  destruct found; cbv beta; rewrite Hend; reflexivity.
Qed.

Lemma position_after (pre body : gostring) (c : rune) (rest : gostring) :
  position (stream_at (pre ++ c :: body) rest)
  = Z.of_nat (length pre) + Z.of_nat (length body) + 1.
Proof.
  unfold stream_at; simpl. rewrite length_app. simpl. lia.
Qed.

(** A bracketed name is read back as the name: [readToken] on an opening
    bracket, an escaped text and a closing bracket returns a VARIABLE whose
    value is the text, whatever runes it holds. *)
Theorem readToken_bracketed (state : lexerState) (pre text rest : gostring) :
  readToken L T state functions
    (stream_at pre
       (chr "[" :: escape_text isNotClosingBracket text ++ chr "]" :: rest))
  = Done (({| Kind := VARIABLE; Value := VString text; Raw := text;
              Start := Z.of_nat (length pre);
              End_ := Z.of_nat (length pre)
                      + Z.of_nat (length (escape_text isNotClosingBracket
                                            text)) + 2 |},
           None, true),
          stream_at
            (pre ++ chr "[" :: escape_text isNotClosingBracket text
                 ++ [chr "]"]) rest).
Proof.
  rewrite (readToken_next L T _ _ _ _ state functions
             (next_character_at L pre (chr "[") _ eq_refl)).
  change (readToken_dispatch L T state functions (Z.of_nat (length pre))
            (chr "["))
    with (readBracket L (Z.of_nat (length pre))).
  unfold readBracket.
  rewrite (bind_Done _ _ _ _ _
             (readUntilFalse_delimited L isNotClosingBracket
                (pre ++ [chr "["]) text (chr "]") rest eq_refl
                ltac:(discriminate))).
  cbn [negb]. unfold bind at 1. rewrite rewind_forward_at.
  replace ((pre ++ [chr "["]) ++ escape_text isNotClosingBracket text)
    with (pre ++ chr "[" :: escape_text isNotClosingBracket text)
    by (now rewrite <- app_assoc).
  replace ((pre ++ chr "[" :: escape_text isNotClosingBracket text)
           ++ [chr "]"])
    with (pre ++ chr "[" :: escape_text isNotClosingBracket text
              ++ [chr "]"])
    by (now rewrite <- app_assoc).
  assert (Hend : position
                   (stream_at
                      (pre ++ chr "[" :: escape_text isNotClosingBracket text
                           ++ [chr "]"]) rest)
                 = Z.of_nat (length pre)
                   + Z.of_nat (length (escape_text isNotClosingBracket text))
                   + 2).
  { rewrite position_after, length_app. simpl length. lia. }
  unfold emit, bind, getStream, ret. cbv beta. now rewrite Hend.
Qed.


End Literals.

(** ** Outcomes over a fixed source *)

Lemma stream_of_at (src : gostring) (n : nat) :
  (n <= length src)%nat ->
  stream_at (take n src) (drop n src) = stream_of src (Z.of_nat n).
Proof.
  intros Hn. unfold stream_at, stream_of.
  rewrite take_drop, length_take. do 2 f_equal. lia.
Qed.

Section Post.
Variable src : gostring.
Variables Ep Ef : Prop.

Local Abbreviation len := (Z.of_nat (length src)).
Local Abbreviation at_ := (stream_of src).

Lemma post_ret {A} (a : A) (p : Z) (Q : A -> Z -> Prop) :
  Q a p -> post src Ep Ef (ret a (at_ p)) Q.
Proof. intros HQ. exists p. auto. Qed.

Lemma post_bind {A B} (m : M A) (k : A -> M B) (stream : lexerStream)
    (Q1 : A -> Z -> Prop) (Q2 : B -> Z -> Prop) :
  post src Ep Ef (m stream) Q1 ->
  (forall a p, Q1 a p -> post src Ep Ef (k a (at_ p)) Q2) ->
  post src Ep Ef (bind m k stream) Q2.
Proof.
  unfold post at 1, bind. intros Hm Hk.
  destruct (m stream) as [[a stream']| |]; [|exact Hm..].
  destruct Hm as [p [-> HQ]]. now apply Hk.
Qed.

Lemma post_weaken {A} (o : outcome (A * lexerStream))
    (Q Q' : A -> Z -> Prop) :
  post src Ep Ef o Q -> (forall a p, Q a p -> Q' a p) ->
  post src Ep Ef o Q'.
Proof.
  unfold post. intros Ho HQ. destruct o as [[a stream']| |]; [|exact Ho..].
  destruct Ho as [p [-> Ho]]. exists p. auto.
Qed.

Lemma post_getStream (p : Z) (Q : lexerStream -> Z -> Prop) :
  Q (at_ p) p -> post src Ep Ef (getStream (at_ p)) Q.
Proof. intros HQ. exists p. auto. Qed.

Lemma post_rewind (n p : Z) (Q : unit -> Z -> Prop) :
  Q tt (p - n) -> post src Ep Ef (rewind n (at_ p)) Q.
Proof. intros HQ. exists (p - n). auto. Qed.

Lemma post_readCharacter (p : Z) (Q : rune -> Z -> Prop) :
  0 <= p < len ->
  (forall c, src !! Z.to_nat p = Some c -> Q c (p + 1)) ->
  post src Ep Ef (readCharacter (at_ p)) Q.
Proof.
  intros Hp HQ. unfold readCharacter, stream_of; simpl.
  destruct (Z.leb_spec 0 p); [|lia].
  destruct (src !! Z.to_nat p) as [c|] eqn:Hc.
  - exists (p + 1). auto.
  - apply lookup_ge_None in Hc. lia.
Qed.

Lemma post_getStream_eq (p : Z) :
  post src Ep Ef (getStream (at_ p)) (fun s p' => p' = p /\ s = at_ p).
Proof. now apply post_getStream. Qed.

Lemma post_rewind_eq (n p : Z) :
  post src Ep Ef (rewind n (at_ p)) (fun _ p' => p' = p - n).
Proof. now apply post_rewind. Qed.

Lemma post_readCharacter_eq (p : Z) :
  0 <= p < len ->
  post src Ep Ef (readCharacter (at_ p))
    (fun c p' => p' = p + 1 /\ src !! Z.to_nat p = Some c).
Proof. intros Hp. apply post_readCharacter; auto. Qed.

Lemma canRead_of (p : Z) : canRead (at_ p) = (p <? len).
Proof. reflexivity. Qed.

End Post.

Section ReaderPosts.
Variable L : GoLibrary.
Variable src : gostring.

Local Abbreviation len := (Z.of_nat (length src)).
Local Abbreviation at_ := (stream_of src).
Local Abbreviation safe := (post src (backslash ∈ src) False).

Lemma readUntilFalse_post
    (includeWhitespace breakWhitespace allowEscaping : bool)
    (condition : rune -> bool) (p : Z) :
  0 <= p <= len ->
  safe (readUntilFalse L includeWhitespace breakWhitespace allowEscaping
          condition (at_ p))
    (scanned L src breakWhitespace condition p).
Proof.
  intros Hp.
  rewrite <- (Z2Nat.id p) at 1 by lia.
  rewrite <- stream_of_at by lia.
  rewrite readUntilFalse_view.
  destruct (scanText L includeWhitespace breakWhitespace allowEscaping
              condition (drop (Z.to_nat p) src) [])
    as [[[text conditioned] n]|] eqn:Hscan; simpl.
  - pose proof (length_drop src (Z.to_nat p)) as Hlength.
    destruct (scan_returns L _ _ _ _ _ _ _ _ _ _ (Nat.le_refl _) Hscan)
      as [Hn [Hall [added [Htext Hadded]]]].
    destruct (scan_stops L _ _ _ _ _ _ _ _ _ _ (Nat.le_refl _) Hscan)
      as [Hnone Hstop].
    exists (Z.of_nat (Z.to_nat p + n)). split.
    + rewrite take_take_drop, drop_drop. apply stream_of_at. lia.
    + simpl in Htext. subst added. unfold scanned; simpl.
      repeat split; try lia.
      * intros Hc. specialize (Hall Hc). lia.
      * intros Hc Hb. specialize (Hstop Hc Hb). lia.
      * intros Hsame. apply Hnone. lia.
      * destruct Hadded as [[_ Hin]|Hadded]; [left|now right].
        now apply (subseteq_drop (Z.to_nat p)).
      * intros c Hc Hspace Hcondition.
        rewrite (drop_S _ _ _ Hc) in Hscan.
        pose proof (scan_progress L _ _ _ _ _ _ _ _ _ _
                      Hspace Hcondition Hscan). lia.
  - destruct (scan_panics L _ _ _ _ _ _ _ (Nat.le_refl _) Hscan)
      as [_ Hin].
    now apply (subseteq_drop (Z.to_nat p)).
Qed.

Lemma readTokenUntilFalse_post (condition : rune -> bool) (p : Z) :
  1 <= p <= len ->
  safe (readTokenUntilFalse L condition (at_ p))
    (fun text p' =>
       exists conditioned,
         scanned L src true condition (p - 1) (text, conditioned) p').
Proof.
  intros Hp. unfold readTokenUntilFalse.
  eapply post_bind; [apply post_rewind_eq|].
  intros _ p1 ->.
  eapply post_bind; [apply readUntilFalse_post; lia|].
  intros [text conditioned] p2 Hscanned.
  apply post_ret. now exists conditioned.
Qed.

End ReaderPosts.

Section TokenPosts.
Variable L : GoLibrary.
Variable T : Tables.
Variable functions : gmap gostring ExpressionFunction.
Variable src : gostring.

Local Abbreviation len := (Z.of_nat (length src)).
Local Abbreviation at_ := (stream_of src).
Local Abbreviation safe := (post src (backslash ∈ src) False).
Local Abbreviation token_at :=
  (fun pos => token_post L T functions len pos true).

Lemma emit_post (pos : Z) (k : TokenKind) (v : TokenValue)
    (raw : gostring) (p : Z) :
  pos <= p <= len ->
  token_value L T functions k raw v ->
  (empty_symbol T = false -> pos < p) ->
  safe (emit pos k v raw (at_ p)) (token_at pos).
Proof.
  intros Hp Hvalue Hstrict. unfold emit.
  eapply post_bind; [apply post_getStream_eq|].
  intros stream p1 [-> ->]. apply post_ret.
  unfold token_post; simpl. split; [lia|]. split.
  - intros _. split; [reflexivity|]. split; [lia|].
    split; [reflexivity|]. split; [reflexivity|]. split; [lia|].
    split; [exact Hstrict|exact Hvalue].
  - destruct k; try discriminate; destruct Hvalue.
Qed.

Lemma fail_at_post (pos : Z) (msg : error) (p : Z) :
  pos <= p <= len ->
  safe (fail_at pos msg (at_ p)) (token_at pos).
Proof.
  intros Hp. unfold fail_at.
  eapply post_bind; [apply post_getStream_eq|].
  intros stream p1 [-> ->]. apply post_ret.
  unfold token_post; simpl. split; [lia|]. split; discriminate.
Qed.

Lemma readDecimal_post (pos : Z) (c : rune) :
  0 <= pos < len ->
  src !! Z.to_nat pos = Some c ->
  unicode_IsSpace L c = false ->
  isNumeric L c = true ->
  safe (readDecimal L pos (at_ (pos + 1))) (token_at pos).
Proof.
  intros Hpos Hc Hspace Hnumeric. unfold readDecimal.
  eapply post_bind; [apply readTokenUntilFalse_post; lia|].
  intros text p [conditioned Hscanned].
  replace (pos + 1 - 1) with pos in Hscanned by lia.
  destruct Hscanned as [Hp [_ [_ [_ [_ Hprogress]]]]].
  specialize (Hprogress c Hc Hspace Hnumeric).
  destruct (strconv_ParseFloat L text) as [f|] eqn:Hparse.
  - apply emit_post; [lia| |lia]. exists f. auto.
  - apply fail_at_post. lia.
Qed.

Lemma readHex_post (pos p : Z) :
  pos < p <= len -> 0 <= pos ->
  safe (readHex L pos (at_ p)) (token_at pos).
Proof.
  intros Hp Hpos. unfold readHex.
  eapply post_bind; [apply readUntilFalse_post; lia|].
  intros [text conditioned] p' [Hp' _].
  destruct (strconv_ParseUint_16_64 text) as [n|] eqn:Hparse.
  - apply emit_post; [lia| |lia].
    exists (float64_of_uint64 n). split; [reflexivity|].
    right. now exists n.
  - apply fail_at_post. lia.
Qed.

Lemma readNumeric_post (pos : Z) (c : rune) :
  0 <= pos < len ->
  src !! Z.to_nat pos = Some c ->
  unicode_IsSpace L c = false ->
  isNumeric L c = true ->
  safe (readNumeric L pos c (at_ (pos + 1))) (token_at pos).
Proof.
  intros Hpos Hc Hspace Hnumeric. unfold readNumeric.
  eapply post_bind; [apply post_getStream_eq|].
  intros stream p1 [-> ->]. rewrite canRead_of.
  destruct ((pos + 1 <? len) && (c =? chr "0")) eqn:Hzero;
    [|now apply (readDecimal_post pos c)].
  apply andb_prop in Hzero as [Hmore _]. apply Z.ltb_lt in Hmore.
  eapply post_bind; [apply post_readCharacter_eq; lia|].
  intros c2 p2 [-> _].
  eapply post_bind; [apply post_getStream_eq|].
  intros stream p3 [-> ->]. rewrite canRead_of.
  destruct ((pos + 1 + 1 <? len) && (c2 =? chr "x")) eqn:Hx.
  - apply andb_prop in Hx as [Hmore2 _]. apply Z.ltb_lt in Hmore2.
    apply readHex_post; lia.
  - eapply post_bind; [apply post_rewind_eq|].
    intros _ p4 ->. replace (pos + 1 + 1 - 1) with (pos + 1) by lia.
    now apply (readDecimal_post pos c).
Qed.

Lemma readBracket_post (pos : Z) :
  0 <= pos < len ->
  safe (readBracket L pos (at_ (pos + 1))) (token_at pos).
Proof.
  intros Hpos. unfold readBracket.
  eapply post_bind; [apply readUntilFalse_post; lia|].
  intros [text conditioned] p [Hp [_ [Hbefore _]]]. simpl in Hbefore.
  destruct conditioned; cbn [negb].
  - specialize (Hbefore eq_refl eq_refl).
    eapply post_bind; [apply post_rewind_eq|].
    intros _ p1 ->. apply emit_post; [lia|reflexivity|lia].
  - apply fail_at_post. lia.
Qed.

Lemma readQuoted_post (pos : Z) :
  0 <= pos < len ->
  safe (readQuoted L pos (at_ (pos + 1))) (token_at pos).
Proof.
  intros Hpos. unfold readQuoted.
  eapply post_bind; [apply readUntilFalse_post; lia|].
  intros [text conditioned] p [Hp [_ [Hbefore _]]]. simpl in Hbefore.
  destruct conditioned; cbn [negb].
  - specialize (Hbefore eq_refl eq_refl).
    eapply post_bind; [apply post_rewind_eq|].
    intros _ p1 ->.
    destruct (tryParseTime L text) as [tokenTime found] eqn:Htime.
    destruct found; (apply emit_post; [lia| |lia]).
    + now exists tokenTime.
    + simpl. now rewrite Htime.
  - apply fail_at_post. lia.
Qed.

Lemma string_eqb_true (a b : gostring) : string_eqb a b = true -> a = b.
Proof. apply bool_decide_eq_true_1. Qed.

Lemma wordToken_post (pos : Z) (tokenString : gostring) (p : Z) :
  pos < p <= len ->
  safe (wordToken L functions pos tokenString (at_ p)) (token_at pos).
Proof.
  intros Hp. unfold wordToken.
  assert (Hrest : forall k v,
             token_value L T functions k tokenString v ->
             safe
               ((let '(kind, tokenValue) :=
                   match functions !! tokenString with
                   | Some function => (FUNCTION, VFunction function)
                   | None => (k, v)
                   end in
                 let accessorIndex := strings_Index tokenString (chr ".") in
                 if 0 <? accessorIndex then
                   match last tokenString with
                   | None => fun _ => Panic
                   | Some lastCharacter =>
                       if lastCharacter =? chr "." then
                         fail_at pos
                           (go "Hanging accessor on token '" ++ tokenString
                            ++ go "'")
                       else
                         let kind := ACCESSOR in
                         let splits :=
                           strings_Split tokenString (chr ".") in
                         let tokenValue := VStrings splits in
                         match firstUnexported L (tail splits) with
                         | Some segment =>
                             fail_at pos
                               (go "Unable to access unexported field '"
                                ++ segment ++ go "' in token '"
                                ++ tokenString ++ go "'")
                         | None => emit pos kind tokenValue tokenString
                         end
                   end
                 else emit pos kind tokenValue tokenString) (at_ p))
               (token_at pos)).
  { intros k v Hvalue.
    assert (Hfits : token_value L T functions
                      (match functions !! tokenString with
                       | Some function => (FUNCTION, VFunction function)
                       | None => (k, v)
                       end).1 tokenString
                      (match functions !! tokenString with
                       | Some function => (FUNCTION, VFunction function)
                       | None => (k, v)
                       end).2).
    { destruct (functions !! tokenString) as [function|] eqn:Hfunction;
        simpl; [|exact Hvalue].
      now exists function. }
    destruct (match functions !! tokenString with
              | Some function => (FUNCTION, VFunction function)
              | None => (k, v)
              end) as [kind tokenValue].
    simpl in Hfits. cbv zeta.
    destruct (0 <? strings_Index tokenString (chr ".")) eqn:Hindex;
      [|apply emit_post; [lia|exact Hfits|lia]].
    destruct (last tokenString) as [lastCharacter|] eqn:Hlast.
    - destruct (lastCharacter =? chr "."); [apply fail_at_post; lia|].
      destruct (firstUnexported L
                  (tail (strings_Split tokenString (chr "."))));
        [apply fail_at_post; lia|apply emit_post; [lia|reflexivity|lia]].
    - apply last_None in Hlast. subst tokenString. discriminate Hindex. }
  cbv zeta.
  destruct (value_is (VString tokenString) (go "true")) eqn:Htrue;
    [|destruct (value_is (VString tokenString) (go "false")) eqn:Hfalse].
  - replace (value_is (VBool true) (go "in")
             || value_is (VBool true) (go "IN")) with false
      by reflexivity.
    apply Hrest. left. split; [now apply string_eqb_true|reflexivity].
  - replace (value_is (VBool false) (go "in")
             || value_is (VBool false) (go "IN")) with false
      by reflexivity.
    apply Hrest. right. split; [now apply string_eqb_true|reflexivity].
  - destruct (value_is (VString tokenString) (go "in")
              || value_is (VString tokenString) (go "IN")) eqn:Hin;
      apply Hrest; [|reflexivity].
    right. split; [|reflexivity].
    apply orb_prop in Hin as [Hin|Hin]; [left|right];
      now apply string_eqb_true.
Qed.

Lemma readWord_post (pos : Z) (c : rune) :
  0 <= pos < len ->
  src !! Z.to_nat pos = Some c ->
  unicode_IsSpace L c = false ->
  unicode_IsLetter L c = true ->
  safe (readWord L functions pos (at_ (pos + 1))) (token_at pos).
Proof.
  intros Hpos Hc Hspace Hletter. unfold readWord.
  eapply post_bind; [apply readTokenUntilFalse_post; lia|].
  intros text p [conditioned Hscanned].
  replace (pos + 1 - 1) with pos in Hscanned by lia.
  destruct Hscanned as [Hp [_ [_ [_ [_ Hprogress]]]]].
  assert (Hname : isVariableName L c = true)
    by (unfold isVariableName; now rewrite Hletter).
  specialize (Hprogress c Hc Hspace Hname).
  apply wordToken_post. lia.
Qed.

Lemma found_in_elem (table : gset gostring) (key : gostring) :
  found_in table key = true -> key ∈ table.
Proof. apply bool_decide_eq_true_1. Qed.

Lemma empty_symbol_false :
  empty_symbol T = false ->
  found_in (prefixSymbols T) [] = false
  /\ found_in (modifierSymbols T) [] = false
  /\ found_in (logicalSymbols T) [] = false
  /\ found_in (comparatorSymbols T) [] = false
  /\ found_in (ternarySymbols T) [] = false.
Proof.
  unfold empty_symbol. intros Hempty.
  apply orb_false_elim in Hempty as [Hempty Hternary].
  apply orb_false_elim in Hempty as [Hempty Hcomparator].
  apply orb_false_elim in Hempty as [Hempty Hlogical].
  apply orb_false_elim in Hempty as [Hprefix Hmodifier].
  auto.
Qed.

Lemma symbolToken_post (state : lexerState) (pos : Z)
    (tokenString : gostring) (p : Z) :
  pos <= p <= len ->
  (p = pos -> tokenString = []) ->
  safe (symbolToken T state pos tokenString (at_ p)) (token_at pos).
Proof.
  intros Hp Hempty. unfold symbolToken.
  assert (Hstrict : forall table,
             found_in table tokenString = true ->
             found_in table [] = false ->
             pos < p).
  { intros table Hfound Hnot.
    destruct (Z.eq_dec p pos) as [Hsame|]; [|lia].
    rewrite (Hempty Hsame) in Hfound. congruence. }
  destruct (canTransitionTo state PREFIX
            && found_in (prefixSymbols T) tokenString) eqn:Hprefix.
  { apply andb_prop in Hprefix as [_ Hfound].
    apply emit_post; [lia|split; [now apply found_in_elem|reflexivity]|].
    intros Hnone. apply (Hstrict _ Hfound).
    apply (empty_symbol_false Hnone). }
  destruct (found_in (modifierSymbols T) tokenString) eqn:Hmodifier.
  { apply emit_post; [lia|split; [now apply found_in_elem|reflexivity]|].
    intros Hnone. apply (Hstrict _ Hmodifier).
    apply (empty_symbol_false Hnone). }
  destruct (found_in (logicalSymbols T) tokenString) eqn:Hlogical.
  { apply emit_post; [lia|split; [now apply found_in_elem|reflexivity]|].
    intros Hnone. apply (Hstrict _ Hlogical).
    apply (empty_symbol_false Hnone). }
  destruct (found_in (comparatorSymbols T) tokenString) eqn:Hcomparator.
  { apply emit_post;
      [lia|left; split; [now apply found_in_elem|reflexivity]|].
    intros Hnone. apply (Hstrict _ Hcomparator).
    apply (empty_symbol_false Hnone). }
  destruct (found_in (ternarySymbols T) tokenString) eqn:Hternary.
  { apply emit_post; [lia|split; [now apply found_in_elem|reflexivity]|].
    intros Hnone. apply (Hstrict _ Hternary).
    apply (empty_symbol_false Hnone). }
  apply post_ret. unfold token_post; simpl.
  split; [lia|]. split; discriminate.
Qed.

Lemma readSymbol_post (state : lexerState) (pos : Z) :
  0 <= pos < len ->
  safe (readSymbol L T state pos (at_ (pos + 1))) (token_at pos).
Proof.
  intros Hpos. unfold readSymbol.
  eapply post_bind; [apply readTokenUntilFalse_post; lia|].
  intros text p [conditioned Hscanned].
  replace (pos + 1 - 1) with pos in Hscanned by lia.
  destruct Hscanned as [Hp [_ [_ [Hempty _]]]].
  apply symbolToken_post; [lia|exact Hempty].
Qed.

Lemma readToken_dispatch_post (state : lexerState) (pos : Z) (c : rune) :
  0 <= pos < len ->
  src !! Z.to_nat pos = Some c ->
  unicode_IsSpace L c = false ->
  safe (readToken_dispatch L T state functions pos c (at_ (pos + 1)))
    (token_at pos).
Proof.
  intros Hpos Hc Hspace. unfold readToken_dispatch.
  destruct (isNumeric L c) eqn:Hnumeric;
    [now apply readNumeric_post|].
  destruct (c =? chr ","); [apply emit_post; [lia|now split|lia]|].
  destruct (c =? chr "["); [now apply readBracket_post|].
  destruct (unicode_IsLetter L c) eqn:Hletter;
    [now apply (readWord_post pos c)|].
  destruct (negb (isNotQuote c)); [now apply readQuoted_post|].
  destruct (Z.eqb_spec c (chr "(")) as [->|_];
    [apply emit_post; [lia|now split|lia]|].
  destruct (Z.eqb_spec c (chr ")")) as [->|_];
    [apply emit_post; [lia|now split|lia]|].
  now apply readSymbol_post.
Qed.

Lemma readToken_loop_post (state : lexerState) (fuel : nat) :
  forall start p,
    0 <= p <= len ->
    (Z.to_nat (len - p) < fuel)%nat ->
    safe (readToken_loop L T fuel state functions start (at_ p))
      (token_post L T functions len p false).
Proof.
  induction fuel as [|fuel IH]; intros start p Hp Hfuel; [lia|].
  rewrite readToken_loop_S, canRead_of.
  destruct (Z.ltb_spec p len) as [Hmore|Hend].
  - pose proof (post_readCharacter_eq src (backslash ∈ src) False p
                  ltac:(lia)) as Hread.
    destruct (readCharacter (at_ p)) as [[c stream1]| |];
      [|exact Hread..].
    destruct Hread as [p1 [-> [-> Hc]]]. simpl position.
    destruct (unicode_IsSpace L c) eqn:Hspace.
    + eapply post_weaken; [apply IH; lia|].
      intros [[token err] found] p' [Hp' [Hfound Hnone]].
      split; [lia|]. split; [|exact Hnone].
      intros Htrue. destruct (Hfound Htrue) as (Herr & Hs & _ & Hrest).
      split; [exact Herr|]. split; [lia|].
      split; [discriminate|exact Hrest].
    + eapply post_weaken; [now apply readToken_dispatch_post|].
      intros [[token err] found] p' [Hp' [Hfound Hnone]].
      split; [lia|]. split.
      * intros Htrue.
        destruct (Hfound Htrue) as (Herr & Hs & _ & Hrest).
        split; [exact Herr|]. split; [lia|].
        split; [discriminate|exact Hrest].
      * intros Hfalse Herr. destruct (Hnone Hfalse Herr). discriminate.
  - unfold emit, TokenKind_zero.
    eapply post_bind; [apply post_getStream_eq|].
    intros stream p1 [-> ->]. apply post_ret.
    unfold token_post; simpl. split; [lia|]. split; [discriminate|].
    intros _ _. split; [reflexivity|lia].
Qed.

Lemma readToken_loop_gap (state : lexerState) (fuel : nat) :
  forall start p,
    0 <= p <= len ->
    (Z.to_nat (len - p) < fuel)%nat ->
    safe (readToken_loop L T fuel state functions start (at_ p))
      (fun r _ => token_gap L src p r).
Proof.
  induction fuel as [|fuel IH]; intros start p Hp Hfuel; [lia|].
  rewrite readToken_loop_S, canRead_of.
  destruct (Z.ltb_spec p len) as [Hmore|Hend].
  - pose proof (post_readCharacter_eq src (backslash ∈ src) False p
                  ltac:(lia)) as Hread.
    destruct (readCharacter (at_ p)) as [[c stream1]| |];
      [|exact Hread..].
    destruct Hread as [p1 [-> [-> Hc]]]. simpl position.
    destruct (unicode_IsSpace L c) eqn:Hspace.
    + eapply post_weaken; [apply IH; lia|].
      intros [[token err] found] p' [Hfound Hnone].
      assert (Hstep : forall hi, blank_between L src (p + 1) hi ->
                                 blank_between L src p hi).
      { intros hi Hblank i d Hi Hd.
        destruct (Z.eq_dec i p) as [->|]; [congruence|].
        apply (Hblank i d); [lia|exact Hd]. }
      split; auto.
    + eapply post_weaken; [now apply readToken_dispatch_post|].
      intros [[token err] found] p' [Hp' [Hfound Hnone]].
      split.
      * intros Htrue. destruct (Hfound Htrue) as (_ & _ & Hs & _).
        rewrite (Hs eq_refl). intros i d Hi. lia.
      * intros Hfalse Herr. destruct (Hnone Hfalse Herr). discriminate.
  - unfold emit, TokenKind_zero.
    eapply post_bind; [apply post_getStream_eq|].
    intros stream p1 [-> ->]. apply post_ret.
    unfold token_gap; simpl. split; [discriminate|].
    intros _ _ i d Hi. lia.
Qed.

Lemma post_and {A} (o : outcome (A * lexerStream))
    (Q Q' : A -> Z -> Prop) :
  safe o Q -> safe o Q' -> safe o (fun a p => Q a p /\ Q' a p).
Proof.
  unfold post. destruct o as [[a stream']| |]; auto.
  intros [p [-> HQ]] [p' [Heq HQ']]. exists p. split; [reflexivity|].
  injection Heq as Heq. rewrite <- Heq in HQ'. auto.
Qed.

(** [readToken] over [src], from any position within it. *)
Lemma readToken_post (state : lexerState) (p : Z) :
  0 <= p <= len ->
  safe (readToken L T state functions (at_ p))
    (fun r p' => token_post L T functions len p false r p'
                 /\ token_gap L src p r).
Proof.
  intros Hp. unfold readToken.
  eapply post_bind; [apply post_getStream_eq|].
  intros stream p1 [-> ->].
  assert (Hfuel : (Z.to_nat (len - p) < fuel_of (at_ p))%nat)
    by (unfold fuel_of, stream_of; simpl; lia).
  apply post_and;
    [now apply readToken_loop_post|now apply readToken_loop_gap].
Qed.

Hypothesis no_empty_symbol : empty_symbol T = false.

Lemma ParseTokens_loop_post (fuel : nat) :
  forall state ret_ p,
    0 <= p <= len ->
    (Z.to_nat (len - p) < fuel)%nat ->
    safe (ParseTokens_loop L T fuel state functions ret_ (at_ p))
      (fun r _ => exists new,
           r.1 = ret_ ++ new
           /\ spans p new len
           /\ Forall (well_formed L T functions) new
           /\ (r.2 = None -> gaps_blank L src p new len)).
Proof.
  induction fuel as [|fuel IH]; intros state ret_ p Hp Hfuel; [lia|].
  rewrite ParseTokens_loop_S, canRead_of.
  assert (Hnone : forall err : option error,
             (err = None -> blank_between L src p len) ->
             exists new : list ExpressionToken,
               ret_ = ret_ ++ new /\ spans p new len
               /\ Forall (well_formed L T functions) new
               /\ (err = None -> gaps_blank L src p new len)).
  { intros err Hblank. exists []. rewrite app_nil_r.
    repeat split; [simpl; lia|apply List.Forall_nil|exact Hblank]. }
  destruct (Z.ltb_spec p len) as [Hmore|Hend].
  - pose proof (readToken_post state p Hp) as Hread.
    destruct (readToken L T state functions (at_ p))
      as [[[[token err] found] stream']| |]; [|exact Hread..].
    destruct Hread
      as [p' [-> [[Hp' [Hfound Hnot]] [Hgap Hrest]]]].
    destruct err as [e|].
    { exists p'. split; [reflexivity|].
      apply (Hnone (Some e)). discriminate. }
    destruct found; cbn [negb].
    + destruct (Hfound eq_refl)
        as (_ & Hlo & _ & Hend & _ & Hstrict & Hvalue).
      specialize (Hstrict no_empty_symbol). specialize (Hgap eq_refl).
      destruct (getLexerStateForToken T (Kind token)) as [state' err'].
      destruct err' as [e|].
      { exists p'. split; [reflexivity|].
        apply (Hnone (Some e)). discriminate. }
      eapply post_weaken; [apply IH; lia|].
      intros [tokens err] p'' [new [Htokens [Hspans [Hwf Hgaps]]]].
      exists (token :: new). simpl in *. rewrite <- app_assoc in Htokens.
      split; [exact Htokens|]. rewrite Hend.
      split; [repeat split; [lia..|exact Hspans]|].
      split; [apply List.Forall_cons; [exact Hvalue|exact Hwf]|].
      intros Herr. split; [exact Hgap|auto].
    + exists p'. split; [reflexivity|].
      apply (Hnone None). intros _. apply Hrest; reflexivity.
  - exists p. split; [reflexivity|].
    apply (Hnone None). intros _ i d Hi. lia.
Qed.

Lemma scan_post :
  safe (scan L T src functions)
    (fun r _ => spans 0 r.1 len /\ Forall (well_formed L T functions) r.1
                /\ (r.2 = None -> gaps_blank L src 0 r.1 len)).
Proof.
  unfold scan.
  change (newLexerStream src) with (at_ 0).
  eapply post_weaken.
  - apply ParseTokens_loop_post; [lia|].
    unfold fuel_of, stream_of; simpl. lia.
  - intros [tokens err] p [new [Htokens Hnew]]. simpl in *.
    now rewrite Htokens.
Qed.

End TokenPosts.

(** What [ParseTokens] gives on any expression, with symbol tables that do
    not hold the empty text. *)
Lemma ParseTokens_cases (L : GoLibrary) (T : Tables)
    (functions : gmap gostring ExpressionFunction) (expression : gostring) :
  empty_symbol T = false ->
  match ParseTokens L T expression functions with
  | Done (tokens, err) =>
      spans 0 tokens (Z.of_nat (length expression))
      /\ Forall (well_formed L T functions) tokens
      /\ (err = None ->
          gaps_blank L expression 0 tokens (Z.of_nat (length expression)))
  | Panic => backslash ∈ expression
  | OutOfFuel => False
  end.
Proof.
  intros Hempty. unfold ParseTokens.
  pose proof (scan_post L T functions expression Hempty) as Hscan.
  destruct (scan L T expression functions)
    as [[[tokens err] stream']| |]; [|exact Hscan..].
  destruct Hscan as [p [_ [Hspans [Hwf Hgaps]]]]. simpl in *.
  destruct err as [e|].
  - repeat split; [exact Hspans|exact Hwf|discriminate].
  - destruct (checkBalance tokens).
    + repeat split; [simpl; lia|apply List.Forall_nil|discriminate].
    + repeat split; auto.
Qed.

(** [ParseTokens] comes to an end on every expression when no symbol table
    holds the empty text: it returns tokens and maybe an error, or it
    panics, and it panics only on an expression that holds a backslash. *)
Theorem ParseTokens_returns (L : GoLibrary) (T : Tables)
    (functions : gmap gostring ExpressionFunction) (expression : gostring) :
  empty_symbol T = false ->
  (ParseTokens L T expression functions = Panic /\ backslash ∈ expression)
  \/ exists tokens err,
       ParseTokens L T expression functions = Done (tokens, err).
Proof.
  intros Hempty.
  pose proof (ParseTokens_cases L T functions expression Hempty) as Hcases.
  destruct (ParseTokens L T expression functions) as [[tokens err]| |].
  - right. now exists tokens, err.
  - left. split; [reflexivity|exact Hcases].
  - destruct Hcases.
Qed.

(** The tokens that [ParseTokens] returns, with or without an error, lie one
    after the other within the expression, in the order of the source, and
    each spans at least one rune ([Start < End], and the [End] of a token is
    at most the [Start] of the next). *)
Theorem ParseTokens_spans (L : GoLibrary) (T : Tables)
    (functions : gmap gostring ExpressionFunction) (expression : gostring)
    (tokens : list ExpressionToken) (err : option error) :
  empty_symbol T = false ->
  ParseTokens L T expression functions = Done (tokens, err) ->
  spans 0 tokens (Z.of_nat (length expression)).
Proof.
  intros Hempty Hparse.
  pose proof (ParseTokens_cases L T functions expression Hempty) as Hcases.
  rewrite Hparse in Hcases. apply Hcases.
Qed.

(** No token that [ParseTokens] returns has the kind UNKNOWN or ARRAY, and
    the value of each is the one of its kind and raw text: the [float64]
    parsed from the text of a NUMERIC token, the boolean named by a BOOLEAN
    token, the text itself for STRING and VARIABLE, the time parsed from
    the text for TIME, the function registered under the text for FUNCTION,
    the segments of the text for ACCESSOR, the symbol, found in the table
    of its kind, for the operators ([in] for the words [in] and [IN]), and
    the rune of a parenthesis. *)
Theorem ParseTokens_well_formed (L : GoLibrary) (T : Tables)
    (functions : gmap gostring ExpressionFunction) (expression : gostring)
    (tokens : list ExpressionToken) (err : option error) :
  empty_symbol T = false ->
  ParseTokens L T expression functions = Done (tokens, err) ->
  Forall (well_formed L T functions) tokens.
Proof.
  intros Hempty Hparse.
  pose proof (ParseTokens_cases L T functions expression Hempty) as Hcases.
  rewrite Hparse in Hcases. apply Hcases.
Qed.

(** When [ParseTokens] returns without an error, nothing of the expression
    is dropped but white space: every rune that lies in no token, before
    the first token, between two tokens or after the last, is white
    space. *)
Theorem ParseTokens_gaps (L : GoLibrary) (T : Tables)
    (functions : gmap gostring ExpressionFunction) (expression : gostring)
    (tokens : list ExpressionToken) :
  empty_symbol T = false ->
  ParseTokens L T expression functions = Done (tokens, None) ->
  gaps_blank L expression 0 tokens (Z.of_nat (length expression)).
Proof.
  intros Hempty Hparse.
  pose proof (ParseTokens_cases L T functions expression Hempty) as Hcases.
  rewrite Hparse in Hcases. now apply Hcases.
Qed.

(** ** The readers *)

Lemma space_not_backslash (L : GoLibrary) (c : rune) :
  unicode_IsSpace L c = true -> (c =? backslash) = false.
Proof.
  intros Hspace. destruct (Z.eqb_spec c backslash) as [->|]; [|reflexivity].
  vm_compute in Hspace. discriminate.
Qed.

Lemma plain_scan (L : GoLibrary) (condition : rune -> bool)
    (includeWhitespace breakWhitespace allowEscaping : bool)
    (run : gostring) :
  Forall (fun c => plain L condition c = true) run ->
  Forall (fun c => allowEscaping && (c =? backslash) = false
                   /\ unicode_IsSpace L c = false
                   /\ condition c = true) run.
Proof.
  intros Hrun. eapply Forall_impl; [exact Hrun|].
  intros c Hc. unfold plain in Hc.
  apply andb_prop in Hc as [Hc Hcondition].
  apply andb_prop in Hc as [Hbackslash Hspace].
  apply negb_true_iff in Hbackslash, Hspace.
  rewrite Hbackslash, andb_false_r. auto.
Qed.

(** [readTokenUntilFalse] behind a rune that has been read, on a run of
    plain runes: what is left of the input decides where it stops. *)
Lemma readTokenUntilFalse_plain (L : GoLibrary) (condition : rune -> bool)
    (pre : gostring) (c : rune) (run rest : gostring) :
  Forall (fun c => plain L condition c = true) (c :: run) ->
  readTokenUntilFalse L condition (stream_at (pre ++ [c]) (run ++ rest))
  = match scanText L false true true condition rest (c :: run) with
    | Some (text, _, n) =>
        Done (text, stream_at (pre ++ (c :: run) ++ take n rest)
                      (drop n rest))
    | None => Panic
    end.
Proof.
  intros Hplain. unfold readTokenUntilFalse.
  rewrite (bind_Done _ _ _ _ _ (rewind_at pre c (run ++ rest))).
  unfold bind. rewrite readUntilFalse_view.
  change (c :: run ++ rest) with ((c :: run) ++ rest).
  rewrite (scan_plain L false true true condition (c :: run) rest [])
    by exact (plain_scan L condition false true true _ Hplain).
  cbn [app].
  destruct (scanText L false true true condition rest (c :: run))
    as [[[text conditioned] n]|]; [|reflexivity].
  cbn [consumed scan_outcome ret].
  change (c :: run ++ rest) with ((c :: run) ++ rest).
  rewrite take_app_add', drop_app_add' by reflexivity.
  reflexivity.
Qed.

(** [readTokenUntilFalse], called behind the first rune of a run of runes
    that are plain for the condition, returns the run with its first rune;
    it stops at the end of the input, or behind a white space, which it
    consumes, or before a rune that the condition refuses, which it leaves
    unread. *)
Theorem readTokenUntilFalse_run (L : GoLibrary) (condition : rune -> bool)
    (pre : gostring) (c : rune) (run : gostring) :
  Forall (fun c => plain L condition c = true) (c :: run) ->
  readTokenUntilFalse L condition (stream_at (pre ++ [c]) run)
  = Done (c :: run, stream_at (pre ++ c :: run) [])
  /\ (forall space rest,
         unicode_IsSpace L space = true ->
         readTokenUntilFalse L condition
           (stream_at (pre ++ [c]) (run ++ space :: rest))
         = Done (c :: run, stream_at (pre ++ c :: run ++ [space]) rest))
  /\ (forall stop rest,
         unicode_IsSpace L stop = false ->
         stop <> backslash ->
         condition stop = false ->
         readTokenUntilFalse L condition
           (stream_at (pre ++ [c]) (run ++ stop :: rest))
         = Done (c :: run, stream_at (pre ++ c :: run) (stop :: rest))).
Proof.
  intros Hplain. split; [|split].
  - pose proof (readTokenUntilFalse_plain L condition pre c run [] Hplain)
      as Hrun.
    rewrite app_nil_r in Hrun. rewrite Hrun. cbn [scanText take drop].
    now rewrite app_nil_r.
  - intros space rest Hspace.
    rewrite (readTokenUntilFalse_plain L condition pre c run _ Hplain).
    cbn [scanText]. rewrite (space_not_backslash L space Hspace), Hspace.
    cbn [andb length Nat.ltb Nat.leb take drop]. reflexivity.
  - intros stop rest Hspace Hstop Hcondition.
    rewrite (readTokenUntilFalse_plain L condition pre c run _ Hplain).
    cbn [scanText]. rewrite Hspace, Hcondition.
    destruct (Z.eqb_spec stop backslash) as [?|_]; [contradiction|].
    cbn [andb take drop]. now rewrite app_nil_r.
Qed.

(** [readUntilFalse], from any position of a source: it returns, or it
    panics and the source holds a backslash.  When it returns, it has not
    moved back; when it reports that nothing stopped it ([false]), the
    stream is at its end, as the comment of the function has it; when a rune
    stopped it and white space does not break the text, that rune is still
    to be read; and the runes of the text satisfy the condition unless the
    source holds a backslash. *)
Theorem readUntilFalse_result (L : GoLibrary) (src : gostring)
    (includeWhitespace breakWhitespace allowEscaping : bool)
    (condition : rune -> bool) (p : Z) :
  0 <= p <= Z.of_nat (length src) ->
  (readUntilFalse L includeWhitespace breakWhitespace allowEscaping
     condition (stream_of src p) = Panic
   /\ backslash ∈ src)
  \/ exists text conditioned p',
       readUntilFalse L includeWhitespace breakWhitespace allowEscaping
         condition (stream_of src p)
       = Done ((text, conditioned), stream_of src p')
       /\ p <= p' <= Z.of_nat (length src)
       /\ (conditioned = false -> p' = Z.of_nat (length src))
       /\ (conditioned = true -> breakWhitespace = false ->
           p' < Z.of_nat (length src))
       /\ (backslash ∈ src \/ Forall (fun c => condition c = true) text).
Proof.
  intros Hp.
  pose proof (readUntilFalse_post L src includeWhitespace breakWhitespace
                allowEscaping condition p Hp) as Hpost.
  destruct (readUntilFalse L includeWhitespace breakWhitespace
              allowEscaping condition (stream_of src p))
    as [[[text conditioned] stream']| |].
  - destruct Hpost as [p' [-> (Hp' & Hend & Hstop & _ & Htext & _)]].
    right. exists text, conditioned, p'. auto.
  - left. split; [reflexivity|exact Hpost].
  - destruct Hpost.
Qed.

(** ** [checkBalance] *)

Lemma wrap_int_add (a b : Z) : wrap_int (wrap_int a + b) = wrap_int (a + b).
Proof.
  unfold wrap_int.
  replace ((a + 2 ^ 63) mod 2 ^ 64 - 2 ^ 63 + b + 2 ^ 63)
    with ((a + 2 ^ 63) mod 2 ^ 64 + b) by lia.
  rewrite Zplus_mod_idemp_l.
  replace (a + 2 ^ 63 + b) with (a + b + 2 ^ 63) by lia. reflexivity.
Qed.

Lemma checkBalance_loop_wrap (tokens : list ExpressionToken) :
  forall parens,
    checkBalance_loop tokens (wrap_int parens)
    = wrap_int (parens + balance tokens).
Proof.
  induction tokens as [|token tokens IH]; intros parens;
    cbn [checkBalance_loop balance].
  - now rewrite Z.add_0_r.
  - destruct (bool_decide (Kind token = CLAUSE));
      [|destruct (bool_decide (Kind token = CLAUSE_CLOSE))].
    + rewrite wrap_int_add, IH. f_equal. lia.
    + replace (wrap_int parens - 1) with (wrap_int parens + - 1) by lia.
      rewrite wrap_int_add, IH. f_equal. lia.
    + rewrite IH. f_equal.
Qed.

Lemma balance_Permutation (tokens tokens' : list ExpressionToken) :
  tokens ≡ₚ tokens' -> balance tokens = balance tokens'.
Proof.
  induction 1 as [|token l l' _ IH|a b l|l l' l'' _ IH1 _ IH2];
    cbn [balance]; lia.
Qed.

(** [checkBalance] counts and does not look at the order: it gives the same
    answer on any rearrangement of the tokens, so that a closing
    parenthesis before its opening one is not an error to it. *)
Theorem checkBalance_Permutation (tokens tokens' : list ExpressionToken) :
  tokens ≡ₚ tokens' -> checkBalance tokens = checkBalance tokens'.
Proof.
  intros Hperm. unfold checkBalance.
  change 0 with (wrap_int 0).
  rewrite !checkBalance_loop_wrap.
  now rewrite (balance_Permutation _ _ Hperm).
Qed.

(** ** [tryParseTime] *)

Lemma tryParseTime_loop_first (L : GoLibrary) (candidate : gostring)
    (formats : list gostring) (t : Time) :
  tryParseTime_loop L candidate formats = (t, true)
  <-> exists before format after,
        formats = before ++ format :: after
        /\ Forall (fun f => time_ParseInLocation L f candidate = None) before
        /\ time_ParseInLocation L format candidate = Some t.
Proof.
  induction formats as [|format formats IH];
    cbn [tryParseTime_loop]; unfold tryParseExactTime.
  - split; [discriminate|].
    intros (before & f & after & Hformats & _). now destruct before.
  - destruct (time_ParseInLocation L format candidate) as [t'|] eqn:Hparse.
    + split.
      * intros [= <-]. exists [], format, formats.
        repeat split; [apply List.Forall_nil|exact Hparse].
      * intros (before & f & after & Hformats & Hbefore & Hf).
        destruct before as [|b before]; simpl in Hformats.
        -- injection Hformats as <- _. congruence.
        -- injection Hformats as <- _.
           apply Forall_cons in Hbefore as [Hb _]. congruence.
    + rewrite IH. split.
      * intros (before & f & after & -> & Hbefore & Hf).
        exists (format :: before), f, after.
        repeat split; [apply List.Forall_cons; assumption|exact Hf].
      * intros (before & f & after & Hformats & Hbefore & Hf).
        destruct before as [|b before]; simpl in Hformats.
        -- injection Hformats as <- _. congruence.
        -- injection Hformats as _ ->.
           apply Forall_cons in Hbefore as [_ Hbefore].
           now exists before, f, after.
Qed.

Lemma tryParseTime_loop_none (L : GoLibrary) (candidate : gostring)
    (formats : list gostring) :
  snd (tryParseTime_loop L candidate formats) = false
  <-> Forall (fun f => time_ParseInLocation L f candidate = None) formats.
Proof.
  induction formats as [|format formats IH];
    cbn [tryParseTime_loop]; unfold tryParseExactTime.
  - split; [intros _; apply List.Forall_nil|reflexivity].
  - destruct (time_ParseInLocation L format candidate) as [t'|] eqn:Hparse.
    + split; [discriminate|].
      intros Hall. apply Forall_cons in Hall as [Hf _]. congruence.
    + rewrite IH. split.
      * intros Hall. now apply List.Forall_cons.
      * intros Hall. now apply Forall_cons in Hall as [_ Hall].
Qed.

Lemma tryParseTime_loop_now (L : GoLibrary) (candidate : gostring)
    (formats : list gostring) :
  snd (tryParseTime_loop L candidate formats) = false ->
  fst (tryParseTime_loop L candidate formats) = time_Now L.
Proof.
  induction formats as [|format formats IH];
    cbn [tryParseTime_loop]; unfold tryParseExactTime; [reflexivity|].
  now destruct (time_ParseInLocation L format candidate).
Qed.

(** [tryParseTime] takes the first of its layouts that parses the
    candidate: it returns a time and [true] exactly when the candidate
    parses with a layout and with none of the layouts before it, the time
    being the one parsed with that layout; it returns [false] exactly when
    no layout parses the candidate, and then the time is the current
    time. *)
Theorem tryParseTime_first (L : GoLibrary) (candidate : gostring) :
  (forall t,
      tryParseTime L candidate = (t, true)
      <-> exists before format after,
            timeFormats = before ++ format :: after
            /\ Forall (fun f => time_ParseInLocation L f candidate = None)
                 before
            /\ time_ParseInLocation L format candidate = Some t)
  /\ (snd (tryParseTime L candidate) = false
      <-> Forall (fun f => time_ParseInLocation L f candidate = None)
            timeFormats)
  /\ (snd (tryParseTime L candidate) = false ->
      tryParseTime L candidate = (time_Now L, false)).
Proof.
  split; [|split].
  - intros t. apply tryParseTime_loop_first.
  - apply tryParseTime_loop_none.
  - intros Hnone.
    pose proof (tryParseTime_loop_now L candidate timeFormats Hnone) as Hnow.
    unfold tryParseTime in *.
    destruct (tryParseTime_loop L candidate timeFormats) as [t found].
    simpl in *. now subst.
Qed.

(** ** Tokens of one rune *)

Section Single.
Variable L : GoLibrary.
Variable T : Tables.
Variable functions : gmap gostring ExpressionFunction.

(** A comma and the two parentheses are tokens of one rune each, whatever
    comes before and after them: SEPARATOR with the string [,] as value,
    CLAUSE and CLAUSE_CLOSE with the rune as value; they do not take part in
    a run of symbols. *)
Theorem readToken_single (state : lexerState) (pre rest : gostring) :
  readToken L T state functions (stream_at pre (chr "," :: rest))
  = Done (({| Kind := SEPARATOR; Value := VString (go ","); Raw := go ",";
              Start := Z.of_nat (length pre);
              End_ := Z.of_nat (length pre) + 1 |}, None, true),
          stream_at (pre ++ go ",") rest)
  /\ readToken L T state functions (stream_at pre (chr "(" :: rest))
     = Done (({| Kind := CLAUSE; Value := VRune (chr "("); Raw := go "(";
                 Start := Z.of_nat (length pre);
                 End_ := Z.of_nat (length pre) + 1 |}, None, true),
             stream_at (pre ++ go "(") rest)
  /\ readToken L T state functions (stream_at pre (chr ")" :: rest))
     = Done (({| Kind := CLAUSE_CLOSE; Value := VRune (chr ")");
                 Raw := go ")"; Start := Z.of_nat (length pre);
                 End_ := Z.of_nat (length pre) + 1 |}, None, true),
             stream_at (pre ++ go ")") rest).
Proof.
  assert (Hend : forall c, Z.of_nat (length (pre ++ [c]))
                           = Z.of_nat (length pre) + 1)
    by (intros c; rewrite length_app; simpl; lia).
  repeat split.
  - rewrite (readToken_next L T _ _ _ _ state functions
               (next_character_at L pre (chr ",") rest eq_refl)).
    unfold readToken_dispatch, emit, bind, getStream, ret.
    change (isNumeric L (chr ",")) with false. cbv iota.
    change (chr "," =? chr ",") with true. cbv beta iota.
    now rewrite position_at, Hend.
  - rewrite (readToken_next L T _ _ _ _ state functions
               (next_character_at L pre (chr "(") rest eq_refl)).
    unfold readToken_dispatch, emit, bind, getStream, ret.
    change (isNumeric L (chr "(")) with false.
    change (unicode_IsLetter L (chr "(")) with false.
    change (isNotQuote (chr "(")) with true.
    change (chr "(" =? chr ",") with false.
    change (chr "(" =? chr "[") with false.
    change (chr "(" =? chr "(") with true. cbn [negb]. cbv beta iota.
    now rewrite position_at, Hend.
  - rewrite (readToken_next L T _ _ _ _ state functions
               (next_character_at L pre (chr ")") rest eq_refl)).
    unfold readToken_dispatch, emit, bind, getStream, ret.
    change (isNumeric L (chr ")")) with false.
    change (unicode_IsLetter L (chr ")")) with false.
    change (isNotQuote (chr ")")) with true.
    change (chr ")" =? chr ",") with false.
    change (chr ")" =? chr "[") with false.
    change (chr ")" =? chr "(") with false.
    change (chr ")" =? chr ")") with true. cbn [negb]. cbv beta iota.
    now rewrite position_at, Hend.
Qed.

(** A closing bracket that closes no bracketed name is read as an empty
    run of symbols: with no empty text in the symbol tables, [readToken]
    fails on it with the invalid-token error for the empty name, and leaves
    the bracket unread. *)
Theorem readToken_closing_bracket (state : lexerState)
    (pre rest : gostring) :
  empty_symbol T = false ->
  readToken L T state functions (stream_at pre (chr "]" :: rest))
  = Done (({| Kind := UNKNOWN; Value := VNil; Raw := [];
              Start := Z.of_nat (length pre); End_ := 0 |},
           Some (go "Invalid token: ''"), false),
          stream_at pre (chr "]" :: rest)).
Proof.
  intros Hempty.
  assert (Hrun : readTokenUntilFalse L (isNotAlphanumeric L)
                   (stream_at (pre ++ go "]") rest)
                 = Done ([], stream_at pre (chr "]" :: rest))).
  { unfold readTokenUntilFalse.
    rewrite (bind_Done _ _ _ _ _ (rewind_at pre (chr "]") rest)).
    unfold bind. rewrite readUntilFalse_view.
    cbn [scanText]. change (chr "]" =? backslash) with false.
    change (unicode_IsSpace L (chr "]")) with false.
    change (isNotAlphanumeric L (chr "]")) with false.
    cbn [andb scan_outcome take drop ret]. now rewrite app_nil_r. }
  rewrite (readToken_symbol L T state functions _ _ _ _ _ _
             (next_character_at L pre (chr "]") rest eq_refl)
             eq_refl Hrun).
  unfold symbol_result, classify. unfold empty_symbol in Hempty.
  apply orb_false_elim in Hempty as [Hempty Hternary].
  apply orb_false_elim in Hempty as [Hempty Hcomparator].
  apply orb_false_elim in Hempty as [Hempty Hlogical].
  apply orb_false_elim in Hempty as [Hprefix Hmodifier].
  rewrite Hprefix, Hmodifier, Hlogical, Hcomparator, Hternary.
  now rewrite andb_false_r.
Qed.

(** A word that holds no period and is not a registered function: [true]
    and [false] are BOOLEAN tokens whose value is the boolean; any other
    word but [in] and [IN] is a VARIABLE token whose value is the word. *)
Theorem readToken_plain_word (state : lexerState)
    (stream stream1 stream2 : lexerStream) (position_ : Z)
    (character : rune) (run : gostring) :
  next_character L stream position_ character stream1 ->
  word_lead L character = true ->
  readTokenUntilFalse L (isVariableName L) stream1 = Done (run, stream2) ->
  functions !! run = None ->
  strings_Index run (chr ".") <= 0 ->
  readToken L T state functions stream
  = Done (({| Kind := if string_eqb run (go "true")
                         || string_eqb run (go "false") then BOOLEAN
                      else if string_eqb run (go "in")
                              || string_eqb run (go "IN") then COMPARATOR
                      else VARIABLE;
              Value := if string_eqb run (go "true") then VBool true
                       else if string_eqb run (go "false") then VBool false
                       else if string_eqb run (go "in")
                               || string_eqb run (go "IN")
                       then VString (go "in")
                       else VString run;
              Raw := run; Start := position_;
              End_ := position stream2 |}, None, true), stream2).
Proof.
  intros Hnext Hlead Hrun Hfunction Hindex.
  rewrite (readToken_word L T state functions _ _ _ _ _ _
             Hnext Hlead Hrun).
  unfold wordToken. rewrite Hfunction.
  destruct (Z.ltb_spec 0 (strings_Index run (chr "."))) as [?|_]; [lia|].
  cbn [value_is].
  destruct (string_eqb run (go "true")); [reflexivity|].
  destruct (string_eqb run (go "false")); [reflexivity|].
  cbn [orb value_is].
  now destruct (string_eqb run (go "in") || string_eqb run (go "IN")).
Qed.

End Single.

(** * Further properties of the renderer *)

Section GenerateVisits.

Variable fmt_v : TokenValue -> gostring.

Lemma each_Some (f : Generator.ASTNode -> option gostring)
    (children : list Generator.ASTNode) :
  forall texts,
    (fix each (rest : list Generator.ASTNode) : option (list gostring) :=
       match rest with
       | [] => Some []
       | child :: rest' =>
           match f child, each rest' with
           | Some text, Some texts => Some (text :: texts)
           | _, _ => None
           end
       end) children = Some texts ->
    Forall2 (fun child text => f child = Some text) children texts.
Proof.
  induction children as [|child rest IH]; intros texts Heach.
  - injection Heach as <-. apply Forall2_nil_2.
  - destruct (f child) as [text|] eqn:Htext; [|discriminate].
    match type of Heach with
    | match ?e with Some _ => _ | None => _ end = _ =>
        destruct e as [texts'|] eqn:Hrest; [|discriminate]
    end.
    injection Heach as <-. apply Forall2_cons_2; [exact Htext|].
    now apply IH.
Qed.

Lemma each_all (f : Generator.ASTNode -> option gostring)
    (children : list Generator.ASTNode) :
  Forall (fun child => exists text, f child = Some text) children ->
  exists texts,
    (fix each (rest : list Generator.ASTNode) : option (list gostring) :=
       match rest with
       | [] => Some []
       | child :: rest' =>
           match f child, each rest' with
           | Some text, Some texts => Some (text :: texts)
           | _, _ => None
           end
       end) children = Some texts.
Proof.
  induction 1 as [|child rest [text Htext] _ [texts IH]].
  - now exists [].
  - exists (text :: texts). now rewrite Htext, IH.
Qed.

Lemma visited_ok_all (children : list Generator.ASTNode) :
  foldr and True (map visited_ok children) <-> Forall visited_ok children.
Proof.
  induction children as [|child rest IH]; simpl.
  - split; [constructor|trivial].
  - now rewrite Forall_cons, IH.
Qed.

(** [generate] returns a text exactly on the trees whose visited nodes
    have the children it indexes (the tree being less than 2^62 high and
    the depth not negative); on any other tree it panics.  Children that it
    does not visit, such as a third child of a comparison or the children
    of a variable, play no part. *)
Theorem generate_visited (ast : Generator.ASTNode) :
  forall indent,
    0 <= indent ->
    indent + Generator.height ast < 2 ^ 62 ->
    visited_ok ast
    <-> exists text, Generator.generate fmt_v ast indent = Some text.
Proof.
  induction ast as [token children IH] using ASTNode_children_ind.
  intros indent Hindent Hheight.
  destruct (height_children token children) as [Hone Hchildren].
  assert (Hat : forall depth,
             0 <= depth <= indent + 1 ->
             Forall (fun child =>
                       visited_ok child
                       <-> exists text,
                             Generator.generate fmt_v child depth
                             = Some text) children).
  { intros depth Hdepth.
    rewrite Forall_forall in IH, Hchildren. apply Forall_forall.
    intros child Hchild. apply IH; [exact Hchild|lia|].
    specialize (Hchildren child Hchild). cbv beta in Hchildren. lia. }
  pose proof (Hat (indent + 1) ltac:(lia)) as Hnext.
  pose proof (Hat 0 ltac:(lia)) as Hzero.
  clear IH Hchildren Hat.
  cbn [Generator.generate visited_ok].
  rewrite indentation_some by lia.
  rewrite (wrap_int_small (indent + 1)) by lia.
  assert (Hall : forall depth,
             Forall (fun child =>
                       visited_ok child
                       <-> exists text,
                             Generator.generate fmt_v child depth
                             = Some text) children ->
             foldr and True (map visited_ok children)
             <-> exists texts,
                   (fix each (rest : list Generator.ASTNode)
                      : option (list gostring) :=
                      match rest with
                      | [] => Some []
                      | child :: rest' =>
                          match Generator.generate fmt_v child depth,
                                each rest' with
                          | Some text, Some texts => Some (text :: texts)
                          | _, _ => None
                          end
                      end) children = Some texts).
  { intros depth Hdepth. rewrite visited_ok_all. split.
    - intros Hok.
      apply (each_all (fun child => Generator.generate fmt_v child depth)).
      rewrite Forall_forall in Hdepth, Hok. apply Forall_forall.
      intros child Hchild. now apply Hdepth, Hok.
    - intros [texts Heach].
      apply (each_Some (fun child => Generator.generate fmt_v child depth))
        in Heach.
      rewrite Forall_forall in Hdepth. apply Forall_forall.
      intros child Hchild.
      apply list_elem_of_lookup_1 in Hchild as Hlookup.
      destruct Hlookup as [i Hi].
      destruct (Forall2_lookup_l _ _ _ _ _ Heach Hi) as (text & _ & Htext).
      apply Hdepth; [exact Hchild|]. now exists text. }
  destruct (Generator.Kind token);
    try (split; [intros _; eexists; reflexivity|trivial]).
  - (* PREFIX *)
    destruct children as [|child0 rest];
      [split; [contradiction|intros [text Htext]; discriminate]|].
    apply Forall_cons in Hnext as [Hchild _]. rewrite Hchild.
    split.
    + intros [operand ->]. eexists; reflexivity.
    + intros [text Htext].
      destruct (Generator.generate fmt_v child0 (indent + 1)) as [operand|];
        [now exists operand|discriminate].
  - (* FUNCTION *)
    rewrite (Hall 0 Hzero). split.
    + intros [texts ->]. eexists; reflexivity.
    + intros [text Htext].
      match type of Htext with
      | match ?e with Some _ => _ | None => _ end = _ =>
          destruct e as [texts|]; [now exists texts|discriminate]
      end.
  - (* COMPARATOR *)
    destruct children as [|child0 [|child1 rest]];
      try (split; [contradiction|intros [text Htext]; discriminate]).
    apply Forall_cons in Hnext as [Hchild0 Hnext].
    apply Forall_cons in Hnext as [Hchild1 _].
    rewrite Hchild0, Hchild1. split.
    + intros [[lhs ->] [rhs ->]]. eexists; reflexivity.
    + intros [text Htext].
      destruct (Generator.generate fmt_v child0 (indent + 1)) as [lhs|];
        [|discriminate].
      destruct (Generator.generate fmt_v child1 (indent + 1)) as [rhs|];
        [|discriminate].
      split; eexists; reflexivity.
  - (* LOGICALOP *)
    destruct children as [|child0 [|child1 rest]];
      try (split; [contradiction|intros [text Htext]; discriminate]).
    apply Forall_cons in Hnext as [Hchild0 Hnext].
    apply Forall_cons in Hnext as [Hchild1 _].
    rewrite Hchild0, Hchild1. split.
    + intros [[lhs ->] [rhs ->]].
      destruct (0 <? indent); eexists; reflexivity.
    + intros [text Htext].
      destruct (Generator.generate fmt_v child0 (indent + 1)) as [lhs|];
        [|discriminate].
      destruct (Generator.generate fmt_v child1 (indent + 1)) as [rhs|];
        [|discriminate].
      split; eexists; reflexivity.
  - (* ARRAY *)
    rewrite (Hall (indent + 1) Hnext). split.
    + intros [texts ->]. eexists; reflexivity.
    + intros [text Htext].
      match type of Htext with
      | match ?e with Some _ => _ | None => _ end = _ =>
          destruct e as [texts|]; [now exists texts|discriminate]
      end.
Qed.

Lemma no_break_all (children : list Generator.ASTNode) :
  foldr and True (map (no_break fmt_v) children)
  <-> Forall (no_break fmt_v) children.
Proof.
  induction children as [|child rest IH]; simpl.
  - split; [constructor|trivial].
  - now rewrite Forall_cons, IH.
Qed.

Lemma indentation_no_break (indent : Z) (indentStr : gostring) :
  Generator.indentation indent = Some indentStr -> newline ∉ indentStr.
Proof.
  unfold Generator.indentation.
  destruct (indent <? 0); [discriminate|].
  destruct (Generator.max_int <? 2 * indent); [discriminate|].
  intros [= <-]. induction (Z.to_nat indent) as [|n IH]; simpl.
  - apply not_elem_of_nil.
  - intros Hin. apply elem_of_cons in Hin as [Hin|Hin]; [discriminate|].
    apply elem_of_cons in Hin as [Hin|Hin]; [discriminate|].
    now apply IH.
Qed.

Lemma strings_Join_no_break (texts : list gostring) (sep : gostring) :
  Forall (fun text => newline ∉ text) texts ->
  newline ∉ sep ->
  newline ∉ strings_Join texts sep.
Proof.
  intros Htexts Hsep.
  induction Htexts as [|text rest Htext Hrest IH]; cbn [strings_Join].
  - apply not_elem_of_nil.
  - destruct rest as [|text' rest]; [exact Htext|].
    rewrite !not_elem_of_app. auto.
Qed.

Lemma children_no_break (depth : Z) (children : list Generator.ASTNode)
    (texts : list gostring) :
  Forall (fun child =>
            forall indent text,
              no_break fmt_v child ->
              Generator.generate fmt_v child indent = Some text ->
              newline ∉ text) children ->
  Forall (no_break fmt_v) children ->
  Forall2 (fun child text =>
             Generator.generate fmt_v child depth = Some text)
    children texts ->
  Forall (fun text => newline ∉ text) texts.
Proof.
  intros IH Hno Htexts.
  induction Htexts as [|child text rest texts Htext _ IHrest];
    [apply List.Forall_nil|].
  apply Forall_cons in IH as [IHchild IH], Hno as [Hchild Hno].
  apply List.Forall_cons; [now apply (IHchild depth)|now apply IHrest].
Qed.

Ltac no_break_text :=
  repeat first
    [ assumption
    | apply not_elem_of_nil
    | apply not_elem_of_app; split
    | apply not_elem_of_cons; split; [vm_compute; discriminate|]
    | match goal with
      | |- ?c ∉ go ?s =>
          apply (bool_decide_unpack (c ∉ go s)); vm_compute; exact I
      end ].

(** [generate] breaks lines at LOGICALOP nodes only: the text of a tree
    that has no LOGICALOP node, and whose contents and printed values hold
    no line break, holds no line break. *)
Theorem generate_no_break (ast : Generator.ASTNode) :
  forall indent text,
    no_break fmt_v ast ->
    Generator.generate fmt_v ast indent = Some text ->
    newline ∉ text.
Proof.
  induction ast as [token children IH] using ASTNode_children_ind.
  intros indent text (Hkind & Hcontent & Hvalue & Hchildren) Hgenerate.
  apply no_break_all in Hchildren.
  cbn [Generator.generate] in Hgenerate.
  destruct (Generator.indentation indent) as [indentStr|] eqn:Hindent;
    [|discriminate].
  apply indentation_no_break in Hindent.
  destruct (Generator.Kind token); try contradiction;
    try (injection Hgenerate as <-; first [exact Hvalue
                                          |apply not_elem_of_nil]).
  - (* PREFIX *)
    destruct children as [|child0 rest]; [discriminate|].
    apply Forall_cons in IH as [IH0 _], Hchildren as [Hchild0 _].
    destruct (Generator.generate fmt_v child0 (wrap_int (indent + 1)))
      as [operand|] eqn:Hoperand; [|discriminate].
    apply (IH0 _ _ Hchild0) in Hoperand.
    injection Hgenerate as <-. no_break_text.
  - (* FUNCTION *)
    match type of Hgenerate with
    | match ?e with Some _ => _ | None => _ end = _ =>
        destruct e as [params|] eqn:Heach; [|discriminate]
    end.
    apply (each_Some (fun child => Generator.generate fmt_v child 0))
      in Heach.
    pose proof (children_no_break 0 children params IH Hchildren Heach)
      as Hparams.
    injection Hgenerate as <-.
    assert (Hjoin : newline ∉ strings_Join params (go ", "))
      by (apply strings_Join_no_break; [exact Hparams|no_break_text]).
    no_break_text.
  - (* COMPARATOR *)
    destruct children as [|child0 [|child1 rest]]; try discriminate.
    apply Forall_cons in IH as [IH0 IH], Hchildren as [Hchild0 Hchildren].
    apply Forall_cons in IH as [IH1 _], Hchildren as [Hchild1 _].
    destruct (Generator.generate fmt_v child0 (wrap_int (indent + 1)))
      as [lhs|] eqn:Hlhs; [|discriminate].
    destruct (Generator.generate fmt_v child1 (wrap_int (indent + 1)))
      as [rhs|] eqn:Hrhs; [|discriminate].
    apply (IH0 _ _ Hchild0) in Hlhs. apply (IH1 _ _ Hchild1) in Hrhs.
    injection Hgenerate as <-. no_break_text.
  - (* ARRAY *)
    match type of Hgenerate with
    | match ?e with Some _ => _ | None => _ end = _ =>
        destruct e as [elements|] eqn:Heach; [|discriminate]
    end.
    apply (each_Some
             (fun child =>
                Generator.generate fmt_v child (wrap_int (indent + 1))))
      in Heach.
    pose proof (children_no_break _ children elements IH Hchildren Heach)
      as Helements.
    injection Hgenerate as <-.
    assert (Hjoin : newline ∉ strings_Join elements (go ", "))
      by (apply strings_Join_no_break; [exact Helements|no_break_text]).
    no_break_text.
Qed.

End GenerateVisits.

(** ** What the readers leave aside *)

Lemma scan_spaces (L : GoLibrary) (breakWhitespace allowEscaping : bool)
    (condition : rune -> bool) (spaces rest : gostring) :
  Forall (fun c => unicode_IsSpace L c = true) spaces ->
  scanText L false breakWhitespace allowEscaping condition
    (spaces ++ rest) []
  = consumed (length spaces)
      (scanText L false breakWhitespace allowEscaping condition rest []).
Proof.
  induction 1 as [|c spaces Hc _ IH]; cbn [app length].
  - now rewrite consumed_0.
  - cbn [scanText]. rewrite (space_not_backslash L c Hc), Hc.
    rewrite andb_false_r. cbn [andb negb length Nat.ltb Nat.leb].
    rewrite andb_false_r. rewrite IH, consumed_consumed. reflexivity.
Qed.

(** When white space is not to be kept, [readUntilFalse] skips the white
    space that comes before the text: it reads from white space what it
    reads from behind it.  The hexadecimal digits of a number may thus be
    set off from the [0x]. *)
Theorem readUntilFalse_skips (L : GoLibrary)
    (breakWhitespace allowEscaping : bool) (condition : rune -> bool)
    (pre spaces rest : gostring) :
  Forall (fun c => unicode_IsSpace L c = true) spaces ->
  readUntilFalse L false breakWhitespace allowEscaping condition
    (stream_at pre (spaces ++ rest))
  = readUntilFalse L false breakWhitespace allowEscaping condition
      (stream_at (pre ++ spaces) rest).
Proof.
  intros Hspaces. rewrite !readUntilFalse_view.
  rewrite (scan_spaces L _ _ _ _ _ Hspaces).
  destruct (scanText L false breakWhitespace allowEscaping condition rest [])
    as [[[text conditioned] n]|]; [|reflexivity].
  cbn [consumed scan_outcome].
  rewrite take_app_add', drop_app_add' by reflexivity.
  now rewrite <- app_assoc.
Qed.

(** [readToken] looks at the registered functions for a word only, and at
    the lexer state for a run of symbols only: behind any other first rune
    the token does not depend on them. *)
Theorem readToken_frame (L : GoLibrary) (T : Tables)
    (stream stream1 : lexerStream) (position_ : Z) (character : rune) :
  next_character L stream position_ character stream1 ->
  (word_lead L character = false ->
   forall state functions functions',
     readToken L T state functions stream
     = readToken L T state functions' stream)
  /\ (symbol_lead L character = false ->
      forall state state' functions,
        readToken L T state functions stream
        = readToken L T state' functions stream).
Proof.
  intros Hnext. split.
  - intros Hlead state functions functions'.
    rewrite !(readToken_next L T _ _ _ _ _ _ Hnext).
    unfold word_lead in Hlead. unfold readToken_dispatch.
    destruct (isNumeric L character); [reflexivity|].
    destruct (character =? chr ","); [reflexivity|].
    destruct (character =? chr "["); [reflexivity|].
    destruct (unicode_IsLetter L character); [discriminate|reflexivity].
  - intros Hlead state state' functions.
    rewrite !(readToken_next L T _ _ _ _ _ _ Hnext).
    unfold symbol_lead in Hlead. unfold readToken_dispatch.
    destruct (isNumeric L character); [reflexivity|].
    destruct (character =? chr ","); [reflexivity|].
    destruct (character =? chr "["); [reflexivity|].
    destruct (unicode_IsLetter L character); [reflexivity|].
    destruct (isNotQuote character); [|reflexivity]. cbn [negb].
    destruct (character =? chr "("); [reflexivity|].
    destruct (character =? chr ")"); [reflexivity|discriminate].
Qed.

(** * The further properties at concrete expressions and trees *)

(** [readToken_quoted] at the text [it's], opened by a single quote and
    closed by a double quote. *)
Lemma readToken_quoted_witness :
  isNotQuote singlequote = false
  /\ isNotQuote doublequote = false
  /\ readToken ascii_library example_tables
       (validLexerStates_0 example_tables) ∅
       (stream_at []
          (singlequote :: escape_text isNotQuote (go "it's")
           ++ doublequote :: []))
     = Done (({| Kind := STRING; Value := VString (go "it's");
                 Raw := go "it's"; Start := 0; End_ := 7 |}, None, true),
             stream_at
               (singlequote :: escape_text isNotQuote (go "it's")
                ++ [doublequote]) []).
Proof.
  split; [reflexivity|]. split; [reflexivity|].
  exact (readToken_quoted ascii_library example_tables ∅
           (validLexerStates_0 example_tables) [] (go "it's") []
           singlequote doublequote eq_refl eq_refl).
Defined.


(** [readUntilFalse_result] on [ab c], read from its start as a name. *)
Lemma readUntilFalse_result_witness :
  0 <= 0 <= Z.of_nat (length (go "ab c"))
  /\ ((readUntilFalse ascii_library false true true
         (isVariableName ascii_library) (stream_of (go "ab c") 0) = Panic
       /\ backslash ∈ go "ab c")
      \/ exists text conditioned p',
           readUntilFalse ascii_library false true true
             (isVariableName ascii_library) (stream_of (go "ab c") 0)
           = Done ((text, conditioned), stream_of (go "ab c") p')
           /\ 0 <= p' <= Z.of_nat (length (go "ab c"))
           /\ (conditioned = false -> p' = Z.of_nat (length (go "ab c")))
           /\ (conditioned = true -> true = false ->
               p' < Z.of_nat (length (go "ab c")))
           /\ (backslash ∈ go "ab c"
               \/ Forall (fun c => isVariableName ascii_library c = true)
                    text)).
Proof.
  assert (Hp : 0 <= 0 <= Z.of_nat (length (go "ab c")))
    by (split; discriminate).
  split; [exact Hp|].
  exact (readUntilFalse_result ascii_library (go "ab c") false true true
           (isVariableName ascii_library) 0 Hp).
Defined.

(** [readTokenUntilFalse_run] on the name [ab], at the end of the input,
    before a space and before a parenthesis. *)
Lemma readTokenUntilFalse_run_witness :
  Forall (fun c => plain ascii_library (isVariableName ascii_library) c
                   = true) (go "ab")
  /\ readTokenUntilFalse ascii_library (isVariableName ascii_library)
       (stream_at (go "a") (go "b"))
     = Done (go "ab", stream_at (go "ab") [])
  /\ readTokenUntilFalse ascii_library (isVariableName ascii_library)
       (stream_at (go "a") (go "b c"))
     = Done (go "ab", stream_at (go "ab ") (go "c"))
  /\ readTokenUntilFalse ascii_library (isVariableName ascii_library)
       (stream_at (go "a") (go "b)"))
     = Done (go "ab", stream_at (go "ab") (go ")")).
Proof.
  assert (Hplain : Forall (fun c => plain ascii_library
                                      (isVariableName ascii_library) c
                                    = true) (go "ab"))
    by (repeat constructor).
  destruct (readTokenUntilFalse_run ascii_library
              (isVariableName ascii_library) [] (chr "a") (go "b") Hplain)
    as [Hend [Hspace Hstop]].
  split; [exact Hplain|]. split; [exact Hend|]. split.
  - exact (Hspace (chr " ") (go "c") eq_refl).
  - exact (Hstop (chr ")") [] eq_refl ltac:(discriminate) eq_refl).
Defined.

(** [ParseTokens_returns] at an expression that ends in a backslash. *)
Lemma ParseTokens_returns_witness :
  empty_symbol example_tables = false
  /\ ((ParseTokens ascii_library example_tables (go "a\") ∅ = Panic
       /\ backslash ∈ go "a\")
      \/ exists tokens err,
           ParseTokens ascii_library example_tables (go "a\") ∅
           = Done (tokens, err)).
Proof.
  split; [reflexivity|].
  exact (ParseTokens_returns ascii_library example_tables ∅ (go "a\")
           eq_refl).
Defined.

(** [ParseTokens_spans] at [ a + (b) ]: the white space behind [a] and
    behind [+] lies within their spans. *)
Lemma ParseTokens_spans_witness :
  empty_symbol example_tables = false
  /\ ParseTokens ascii_library example_tables (go " a + (b) ") ∅
     = Done ([ {| Kind := VARIABLE; Value := VString (go "a");
                  Raw := go "a"; Start := 1; End_ := 3 |};
               {| Kind := MODIFIER; Value := VString (go "+");
                  Raw := go "+"; Start := 3; End_ := 5 |};
               {| Kind := CLAUSE; Value := VRune (chr "(");
                  Raw := go "("; Start := 5; End_ := 6 |};
               {| Kind := VARIABLE; Value := VString (go "b");
                  Raw := go "b"; Start := 6; End_ := 7 |};
               {| Kind := CLAUSE_CLOSE; Value := VRune (chr ")");
                  Raw := go ")"; Start := 7; End_ := 8 |} ], None)
  /\ spans 0
       [ {| Kind := VARIABLE; Value := VString (go "a");
            Raw := go "a"; Start := 1; End_ := 3 |};
         {| Kind := MODIFIER; Value := VString (go "+");
            Raw := go "+"; Start := 3; End_ := 5 |};
         {| Kind := CLAUSE; Value := VRune (chr "(");
            Raw := go "("; Start := 5; End_ := 6 |};
         {| Kind := VARIABLE; Value := VString (go "b");
            Raw := go "b"; Start := 6; End_ := 7 |};
         {| Kind := CLAUSE_CLOSE; Value := VRune (chr ")");
            Raw := go ")"; Start := 7; End_ := 8 |} ]
       (Z.of_nat (length (go " a + (b) "))).
Proof.
  split; [reflexivity|]. split; [vm_compute; reflexivity|].
  apply (ParseTokens_spans ascii_library example_tables ∅ (go " a + (b) ")
           _ None eq_refl).
  vm_compute. reflexivity.
Defined.

(** [ParseTokens_well_formed] at [max(true)], with [max] registered. *)
Lemma ParseTokens_well_formed_witness :
  empty_symbol example_tables = false
  /\ ParseTokens ascii_library example_tables (go "max(true)")
       functions_max
     = Done ([ {| Kind := FUNCTION; Value := VFunction max_function;
                  Raw := go "max"; Start := 0; End_ := 3 |};
               {| Kind := CLAUSE; Value := VRune (chr "(");
                  Raw := go "("; Start := 3; End_ := 4 |};
               {| Kind := BOOLEAN; Value := VBool true;
                  Raw := go "true"; Start := 4; End_ := 8 |};
               {| Kind := CLAUSE_CLOSE; Value := VRune (chr ")");
                  Raw := go ")"; Start := 8; End_ := 9 |} ], None)
  /\ Forall (well_formed ascii_library example_tables functions_max)
       [ {| Kind := FUNCTION; Value := VFunction max_function;
            Raw := go "max"; Start := 0; End_ := 3 |};
         {| Kind := CLAUSE; Value := VRune (chr "(");
            Raw := go "("; Start := 3; End_ := 4 |};
         {| Kind := BOOLEAN; Value := VBool true;
            Raw := go "true"; Start := 4; End_ := 8 |};
         {| Kind := CLAUSE_CLOSE; Value := VRune (chr ")");
            Raw := go ")"; Start := 8; End_ := 9 |} ].
Proof.
  split; [reflexivity|]. split; [vm_compute; reflexivity|].
  apply (ParseTokens_well_formed ascii_library example_tables functions_max
           (go "max(true)") _ None eq_refl).
  vm_compute. reflexivity.
Defined.

(** [ParseTokens_gaps] at [ a + (b) ]. *)
Lemma ParseTokens_gaps_witness :
  empty_symbol example_tables = false
  /\ ParseTokens ascii_library example_tables (go " a + (b) ") ∅
     = Done ([ {| Kind := VARIABLE; Value := VString (go "a");
                  Raw := go "a"; Start := 1; End_ := 3 |};
               {| Kind := MODIFIER; Value := VString (go "+");
                  Raw := go "+"; Start := 3; End_ := 5 |};
               {| Kind := CLAUSE; Value := VRune (chr "(");
                  Raw := go "("; Start := 5; End_ := 6 |};
               {| Kind := VARIABLE; Value := VString (go "b");
                  Raw := go "b"; Start := 6; End_ := 7 |};
               {| Kind := CLAUSE_CLOSE; Value := VRune (chr ")");
                  Raw := go ")"; Start := 7; End_ := 8 |} ], None)
  /\ gaps_blank ascii_library (go " a + (b) ") 0
       [ {| Kind := VARIABLE; Value := VString (go "a");
            Raw := go "a"; Start := 1; End_ := 3 |};
         {| Kind := MODIFIER; Value := VString (go "+");
            Raw := go "+"; Start := 3; End_ := 5 |};
         {| Kind := CLAUSE; Value := VRune (chr "(");
            Raw := go "("; Start := 5; End_ := 6 |};
         {| Kind := VARIABLE; Value := VString (go "b");
            Raw := go "b"; Start := 6; End_ := 7 |};
         {| Kind := CLAUSE_CLOSE; Value := VRune (chr ")");
            Raw := go ")"; Start := 7; End_ := 8 |} ]
       (Z.of_nat (length (go " a + (b) "))).
Proof.
  split; [reflexivity|]. split; [vm_compute; reflexivity|].
  apply (ParseTokens_gaps ascii_library example_tables ∅ (go " a + (b) ")
           _ eq_refl).
  vm_compute. reflexivity.
Defined.

(** [checkBalance_Permutation] at a closing parenthesis before an opening
    one. *)
Lemma checkBalance_Permutation_witness :
  [ {| Kind := CLAUSE_CLOSE; Value := VRune (chr ")"); Raw := go ")";
       Start := 0; End_ := 1 |};
    {| Kind := CLAUSE; Value := VRune (chr "("); Raw := go "(";
       Start := 1; End_ := 2 |} ]
  ≡ₚ [ {| Kind := CLAUSE; Value := VRune (chr "("); Raw := go "(";
          Start := 1; End_ := 2 |};
       {| Kind := CLAUSE_CLOSE; Value := VRune (chr ")"); Raw := go ")";
          Start := 0; End_ := 1 |} ]
  /\ checkBalance
       [ {| Kind := CLAUSE_CLOSE; Value := VRune (chr ")"); Raw := go ")";
            Start := 0; End_ := 1 |};
         {| Kind := CLAUSE; Value := VRune (chr "("); Raw := go "(";
            Start := 1; End_ := 2 |} ]
     = checkBalance
         [ {| Kind := CLAUSE; Value := VRune (chr "("); Raw := go "(";
              Start := 1; End_ := 2 |};
           {| Kind := CLAUSE_CLOSE; Value := VRune (chr ")"); Raw := go ")";
              Start := 0; End_ := 1 |} ].
Proof.
  assert (Hswap :
    [ {| Kind := CLAUSE_CLOSE; Value := VRune (chr ")"); Raw := go ")";
         Start := 0; End_ := 1 |};
      {| Kind := CLAUSE; Value := VRune (chr "("); Raw := go "(";
         Start := 1; End_ := 2 |} ]
    ≡ₚ [ {| Kind := CLAUSE; Value := VRune (chr "("); Raw := go "(";
            Start := 1; End_ := 2 |};
         {| Kind := CLAUSE_CLOSE; Value := VRune (chr ")"); Raw := go ")";
            Start := 0; End_ := 1 |} ]) by apply perm_swap.
  split; [exact Hswap|].
  exact (checkBalance_Permutation _ _ Hswap).
Defined.

(** [readToken_closing_bracket] at a lone closing bracket. *)
Lemma readToken_closing_bracket_witness :
  empty_symbol example_tables = false
  /\ readToken ascii_library example_tables
       (validLexerStates_0 example_tables) ∅ (stream_at [] (go "]"))
     = Done (({| Kind := UNKNOWN; Value := VNil; Raw := [];
                 Start := 0; End_ := 0 |},
              Some (go "Invalid token: ''"), false),
             stream_at [] (go "]")).
Proof.
  split; [reflexivity|].
  exact (readToken_closing_bracket ascii_library example_tables ∅
           (validLexerStates_0 example_tables) [] [] eq_refl).
Defined.

(** [readToken_plain_word] at the word [true]. *)
Lemma readToken_plain_word_witness :
  next_character ascii_library (newLexerStream (go "true")) 0 (chr "t")
    (stream_at (go "t") (go "rue"))
  /\ word_lead ascii_library (chr "t") = true
  /\ readTokenUntilFalse ascii_library (isVariableName ascii_library)
       (stream_at (go "t") (go "rue"))
     = Done (go "true", stream_at (go "true") [])
  /\ readToken ascii_library example_tables
       (validLexerStates_0 example_tables) ∅ (newLexerStream (go "true"))
     = Done (({| Kind := BOOLEAN; Value := VBool true; Raw := go "true";
                 Start := 0; End_ := 4 |}, None, true),
             stream_at (go "true") []).
Proof.
  assert (Hnext : next_character ascii_library (newLexerStream (go "true"))
                    0 (chr "t") (stream_at (go "t") (go "rue")))
    by (apply next_here; evaluated).
  assert (Hrun : readTokenUntilFalse ascii_library
                   (isVariableName ascii_library)
                   (stream_at (go "t") (go "rue"))
                 = Done (go "true", stream_at (go "true") []))
    by evaluated.
  split; [exact Hnext|]. split; [reflexivity|]. split; [exact Hrun|].
  exact (readToken_plain_word ascii_library example_tables ∅
           (validLexerStates_0 example_tables) _ _ _ _ _ _
           Hnext eq_refl Hrun eq_refl ltac:(discriminate)).
Defined.

(** [readToken_accessor] at the word [foo.Bar]. *)
Lemma readToken_accessor_witness :
  next_character ascii_library (newLexerStream (go "foo.Bar")) 0 (chr "f")
    (stream_at (go "f") (go "oo.Bar"))
  /\ readToken ascii_library example_tables
       (validLexerStates_0 example_tables) ∅
       (newLexerStream (go "foo.Bar"))
     = Done (({| Kind := ACCESSOR; Value := VStrings [go "foo"; go "Bar"];
                 Raw := go "foo.Bar"; Start := 0; End_ := 7 |},
              None, true),
             stream_at (go "foo.Bar") []).
Proof.
  assert (Hnext : next_character ascii_library
                    (newLexerStream (go "foo.Bar")) 0 (chr "f")
                    (stream_at (go "f") (go "oo.Bar")))
    by (apply next_here; evaluated).
  split; [exact Hnext|].
  exact (readToken_accessor ascii_library example_tables ∅
           (validLexerStates_0 example_tables) _ _
           (stream_at (go "foo.Bar") []) _ _ (chr "r") (go "foo.Bar")
           Hnext eq_refl ltac:(evaluated) eq_refl eq_refl).
Defined.

(** [generate_visited] at [!a], and at a negation without an operand. *)
Lemma generate_visited_witness :
  0 <= 0
  /\ 0 + Generator.height not_node < 2 ^ 62
  /\ (visited_ok not_node
      <-> exists text, Generator.generate show_value not_node 0 = Some text).
Proof.
  assert (Hindent : 0 <= 0) by discriminate.
  assert (Hheight : 0 + Generator.height not_node < 2 ^ 62) by reflexivity.
  split; [exact Hindent|]. split; [exact Hheight|].
  exact (generate_visited show_value not_node 0 Hindent Hheight).
Defined.

(** [generate_no_break] at [!a]. *)
Lemma generate_no_break_witness :
  no_break show_value not_node
  /\ Generator.generate show_value not_node 0 = Some (go "!(a)")
  /\ newline ∉ go "!(a)".
Proof.
  assert (Hno : no_break show_value not_node).
  { simpl. repeat split; try discriminate;
      intros Hin; vm_compute in Hin;
      repeat (apply elem_of_cons in Hin as [Hin|Hin]; [discriminate|]);
      now apply elem_of_nil in Hin. }
  assert (Htext : Generator.generate show_value not_node 0
                  = Some (go "!(a)")) by reflexivity.
  split; [exact Hno|]. split; [exact Htext|].
  exact (generate_no_break show_value not_node 0 (go "!(a)") Hno Htext).
Defined.

(** [readUntilFalse_skips] at the digits [ff] behind [0x] and a space. *)
Lemma readUntilFalse_skips_witness :
  Forall (fun c => unicode_IsSpace ascii_library c = true) (go " ")
  /\ readUntilFalse ascii_library false true true
       (isHexDigit ascii_library) (stream_at (go "0x") (go " " ++ go "ff"))
     = readUntilFalse ascii_library false true true
         (isHexDigit ascii_library) (stream_at (go "0x" ++ go " ") (go "ff")).
Proof.
  assert (Hspaces : Forall (fun c => unicode_IsSpace ascii_library c = true)
                      (go " ")) by (repeat constructor).
  split; [exact Hspaces|].
  exact (readUntilFalse_skips ascii_library true true
           (isHexDigit ascii_library) (go "0x") (go " ") (go "ff") Hspaces).
Defined.

(** [readToken_frame] at the number [1], with and without [max]
    registered, and at the start of an expression and behind a number. *)
Lemma readToken_frame_witness :
  next_character ascii_library (newLexerStream (go "1")) 0 (chr "1")
    (stream_at (go "1") [])
  /\ readToken ascii_library example_tables
       (validLexerStates_0 example_tables) functions_max
       (newLexerStream (go "1"))
     = readToken ascii_library example_tables
         (validLexerStates_0 example_tables) ∅ (newLexerStream (go "1"))
  /\ readToken ascii_library example_tables
       (validLexerStates_0 example_tables) ∅ (newLexerStream (go "1"))
     = readToken ascii_library example_tables
         (fst (example_state NUMERIC)) ∅ (newLexerStream (go "1")).
Proof.
  assert (Hnext : next_character ascii_library (newLexerStream (go "1")) 0
                    (chr "1") (stream_at (go "1") []))
    by (apply next_here; evaluated).
  destruct (readToken_frame ascii_library example_tables _ _ _ _ Hnext)
    as [Hword Hsymbol].
  split; [exact Hnext|]. split.
  - exact (Hword eq_refl (validLexerStates_0 example_tables)
             functions_max ∅).
  - exact (Hsymbol eq_refl (validLexerStates_0 example_tables)
             (fst (example_state NUMERIC)) ∅).
Defined.
